(** * fix_fonts: a shallow embedding of the font-correction engine

    The development follows [src/fix_fonts.py]: the tokenizer and the
    word-frequency classifier, the styled-run model with the rFonts
    attribute map, the per-run rewriter of the frequency mode, the
    sentence mode with its rescan loop, the output-path policy and the
    command-line entry point.

    Python [str] values are lists of Unicode code points.  A paragraph is
    the list of its runs; a run object is named by its position in that
    list, and an in-place mutation of a run is an update at that index. *)

From Stdlib Require Import ZArith NArith List Bool Lia String Ascii.
From Stdlib Require Import Floats.SpecFloat.
From stdpp Require Import base option list gmap strings fin_maps.

Set Default Proof Using "Type".

(* ===================================================================== *)
(** ** Text *)
(* ===================================================================== *)

(** A Python [str]: a sequence of code points. *)
Abbreviation str := (list N).

(** The code points of an ASCII literal. *)
Definition of_string (s : string) : str :=
  List.map N_of_ascii (list_ascii_of_string s).

(** [[A-Za-z]] *)
Definition is_alpha (c : N) : bool :=
  ((65 <=? c) && (c <=? 90) || (97 <=? c) && (c <=? 122))%N.

(** [[A-Za-z'-]] *)
Definition is_word_char (c : N) : bool :=
  (is_alpha c || (c =? 39) || (c =? 45))%N.

(** [CTRL_CHARS_RE = [\x00-\x08\x0B\x0C\x0E-\x1F\x7F]] *)
Definition is_ctrl_char (c : N) : bool :=
  ((c <=? 8) || (c =? 11) || (c =? 12) || (14 <=? c) && (c <=? 31)
   || (c =? 127))%N.

(** [str.lower()] on the ASCII range; the lowering of the other code points
    is a table of the Python runtime, taken as [lower_ext] below. *)
Definition is_ascii_upper (c : N) : bool := ((65 <=? c) && (c <=? 90))%N.

(** The White_Space code points, the class [\s] of a Unicode pattern. *)
Definition unicode_white_space (c : N) : bool :=
  ((9 <=? c) && (c <=? 13) || (c =? 32) || (c =? 133) || (c =? 160)
   || (c =? 5760) || (8192 <=? c) && (c <=? 8202) || (c =? 8232)
   || (c =? 8233) || (c =? 8239) || (c =? 8287) || (c =? 12288))%N.

(** Truth value of a string and of a list: not empty. *)
Definition nonempty (s : str) : bool :=
  match s with [] => false | _ => true end.

Definition nonempty_list {A : Type} (l : list A) : bool :=
  match l with [] => false | _ => true end.

(** The longest prefix in a character class, and what follows it: a greedy
    [cls*]. *)
Fixpoint span (cls : N -> bool) (s : str) : str * str :=
  match s with
  | [] => ([], [])
  | c :: s' =>
      if cls c then let '(m, r) := span cls s' in (c :: m, r) else ([], s)
  end.

(** [sub in s]: substring test of Python's [in] on strings. *)
Fixpoint is_prefix (p s : str) : bool :=
  match p, s with
  | [], _ => true
  | _ :: _, [] => false
  | a :: p', b :: s' => (a =? b)%N && is_prefix p' s'
  end.

Fixpoint contains (sub s : str) : bool :=
  is_prefix sub s || match s with [] => false | _ :: s' => contains sub s' end.

(** [s.split(sep)] for a one-character separator. *)
Fixpoint split_on (sep : N) (s : str) : list str :=
  match s with
  | [] => [[]]
  | c :: s' =>
      if (c =? sep)%N then [] :: split_on sep s'
      else match split_on sep s' with
           | h :: t => (c :: h) :: t
           | [] => [[c]]
           end
  end.

(** [sep.join(parts)] *)
Fixpoint join (sep : str) (parts : list str) : str :=
  match parts with
  | [] => []
  | [p] => p
  | p :: ps => p ++ sep ++ join sep ps
  end.

(* ===================================================================== *)
(** ** Errors *)
(* ===================================================================== *)

(** The exceptions that cross function boundaries in [fix_fonts.py]. *)
Inductive error : Type :=
  | FileNotFoundError      (* raise FileNotFoundError("Input file not found") *)
  | ClassifierUnavailable  (* raise RuntimeError("wordfreq not installed") *)
  | DocumentOpenFailure    (* Document(in_path) raised *)
  | DocumentSaveFailure    (* doc.save(out_path) raised, not FileNotFoundError *)
  | RecursionError.        (* the calls of a function in itself went too deep *)

Inductive result (A : Type) : Type :=
  | Ok (a : A)
  | Raise (e : error).
Arguments Ok {A} a.
Arguments Raise {A} e.

Global Instance result_ret : MRet result := fun A a => Ok a.
Global Instance result_bind : MBind result := fun A B k m =>
  match m with
  | Ok a => k a
  | Raise e => Raise e
  end.

(* ===================================================================== *)
(** ** Floats *)
(* ===================================================================== *)

(** Python floats are IEEE 754 values; [a >= b] is false as soon as one
    side is a NaN. *)
Definition float_ge (a b : spec_float) : bool := SFleb b a.
Definition float_le (a b : spec_float) : bool := SFleb a b.

(** The default [--threshold], 3.5 = 7881299347898368 * 2^-51. *)
Definition default_threshold : spec_float :=
  S754_finite false 7881299347898368 (-51).

(* ===================================================================== *)
(** ** Paths *)
(* ===================================================================== *)

(** [os.path] for POSIX paths, after [posixpath.py] and [genericpath.py]. *)
Module posixpath.

Definition sep : N := 47.
Definition extsep : N := 46.
Definition curdir : str := [46%N].
Definition pardir : str := [46%N; 46%N].

(** [p.rfind(c)]: the last position of [c] in [p], or -1. *)
Fixpoint rfind_from (c : N) (p : str) (i last : Z) : Z :=
  match p with
  | [] => last
  | x :: p' => rfind_from c p' (i + 1)%Z (if (x =? c)%N then i else last)
  end.

Definition rfind (c : N) (p : str) : Z := rfind_from c p 0 (-1).

(** The [while filenameIndex < dotIndex] loop of [_splitext], run for the
    [todo] positions from [filenameIndex]: is a character other than the
    dot found? *)
Fixpoint skip_leading_dots (p : str) (filenameIndex todo : nat) : bool :=
  match todo with
  | O => false
  | S todo' =>
      match p !! filenameIndex with
      | Some c =>
          if negb (c =? extsep)%N then true
          else skip_leading_dots p (S filenameIndex) todo'
      | None => true
      end
  end.

Definition splitext (p : str) : str * str :=
  let sepIndex := rfind sep p in
  let dotIndex := rfind extsep p in
  if (dotIndex >? sepIndex)%Z then
    let filenameIndex := (sepIndex + 1)%Z in
    if skip_leading_dots p (Z.to_nat filenameIndex)
         (Z.to_nat (dotIndex - filenameIndex))
    then (take (Z.to_nat dotIndex) p, drop (Z.to_nat dotIndex) p)
    else (p, [])
  else (p, []).

Definition startswith (pre s : str) : bool := is_prefix pre s.
Definition endswith (suf s : str) : bool := is_prefix (rev suf) (rev s).

Definition isabs (s : str) : bool := startswith [sep] s.

(** [join(a, b)] *)
Definition join2 (a b : str) : str :=
  if startswith [sep] b then b
  else if negb (nonempty a) || endswith [sep] a then a ++ b
  else a ++ [sep] ++ b.

Definition str_eqb (a b : str) : bool := bool_decide (a = b).

(** One turn of the loop over the components in [normpath]. *)
Definition normpath_step (initial_slashes : nat) (new_comps : list str)
    (comp : str) : list str :=
  if str_eqb comp [] || str_eqb comp curdir then new_comps
  else if negb (str_eqb comp pardir)
          || (Nat.eqb initial_slashes 0 && negb (nonempty_list new_comps))
          || (nonempty_list new_comps
              && bool_decide (last new_comps = Some pardir))
  then new_comps ++ [comp]
  else if nonempty_list new_comps then removelast new_comps
  else new_comps.

Definition initial_slashes_of (path : str) : nat :=
  if startswith [sep] path then
    if startswith [sep; sep] path && negb (startswith [sep; sep; sep] path)
    then 2 else 1
  else 0.

Definition normpath (path : str) : str :=
  if negb (nonempty path) then curdir
  else
    let initial_slashes := initial_slashes_of path in
    let comps := split_on sep path in
    let comps := fold_left (normpath_step initial_slashes) comps [] in
    let path := join [sep] comps in
    let path := repeat sep initial_slashes ++ path in
    if nonempty path then path else curdir.

(** [abspath(path)] in the working directory [cwd]. *)
Definition abspath (cwd path : str) : str :=
  let path := if negb (isabs path) then join2 cwd path else path in
  normpath path.

End posixpath.

Section Engine.

(** The class [\s] of the [regex] module, the predicate [str.isspace] used
    by [str.strip], and [str.lower] outside the ASCII range are tables of
    the regular-expression engine and of the Python runtime. *)
Variable re_space : N -> bool.
Variable py_isspace : N -> bool.
Variable lower_ext : N -> str.

(** Before a propositional solver runs, the tables the goal does not
    mention are put out of its reach. *)
Ltac hide_tables :=
  repeat match goal with
         | f : N -> bool |- _ => clear f
         | f : N -> str |- _ => clear f
         | f : str -> list str |- _ => clear f
         | f : list str -> _ |- _ => clear f
         end.

Definition lower (s : str) : str :=
  flat_map (fun c => if is_ascii_upper c then [(c + 32)%N]
                     else if (c <? 128)%N then [c] else lower_ext c) s.

Definition strip (s : str) : str :=
  let s1 := snd (span py_isspace s) in
  rev (snd (span py_isspace (rev s1))).

(* ===================================================================== *)
(** ** Tokenizer *)
(* ===================================================================== *)

(** [[^A-Za-z\s]] *)
Definition is_other_char (c : N) : bool := negb (is_alpha c) && negb (re_space c).

(** A greedy [cls+] at the head of [s]. *)
Definition match_plus (cls : N -> bool) (s : str) : option (str * str) :=
  match span cls s with
  | ([], _) => None
  | (m, r) => Some (m, r)
  end.

(** [[A-Za-z][A-Za-z'-]+] at the head of [s]. *)
Definition match_en_like_word (s : str) : option (str * str) :=
  match s with
  | c :: s' =>
      if is_alpha c then
        match match_plus is_word_char s' with
        | Some (m, r) => Some (c :: m, r)
        | None => None
        end
      else None
  | [] => None
  end.

(** [TOKEN_SPLIT_RE = ([A-Za-z][A-Za-z'-]+|\s+|[^A-Za-z\s]+)] at the head
    of [s]: the alternatives are tried in order. *)
Definition TOKEN_SPLIT_RE_match (s : str) : option (str * str) :=
  match match_en_like_word s with
  | Some r => Some r
  | None =>
      match match_plus re_space s with
      | Some r => Some r
      | None => match_plus is_other_char s
      end
  end.

(** [TOKEN_SPLIT_RE.findall]: scan left to right; where the pattern matches,
    keep the match and go on after it; where it does not, move one
    character on.  A match is never empty, so [length s] steps suffice. *)
Fixpoint findall_from (fuel : nat) (s : str) : list str :=
  match fuel with
  | O => []
  | S fuel' =>
      match s with
      | [] => []
      | _ :: s' =>
          match TOKEN_SPLIT_RE_match s with
          | Some (m, rest) => m :: findall_from fuel' rest
          | None => findall_from fuel' s'
          end
      end
  end.

Definition TOKEN_SPLIT_RE_findall (s : str) : list str :=
  findall_from (length s) s.

Definition split_into_chunks (text : str) : list str :=
  if nonempty text then List.filter nonempty (TOKEN_SPLIT_RE_findall text)
  else [].

(** [EN_LIKE_WORD_RE.fullmatch(chunk)] *)
Definition EN_LIKE_WORD_RE_fullmatch (chunk : str) : bool :=
  match match_en_like_word chunk with
  | Some (_, []) => true
  | _ => false
  end.

Definition sanitize_text (text : str) : str :=
  if nonempty text then List.filter (fun c => negb (is_ctrl_char c)) text
  else [].

(* ===================================================================== *)
(** ** Classifier *)
(* ===================================================================== *)

(** [_zipf_frequency]: [None] when [wordfreq] could not be imported, else
    the score of a word in the English lexicon. *)
Definition oracle := option (str -> spec_float).

(** The characters of [token] in [[A-Za-z'-]]: what [re.sub] leaves when
    it deletes the others. *)
Definition keep_word_chars (token : str) : str := List.filter is_word_char token.

Definition is_english_word (zipf : oracle) (token : str)
    (threshold : spec_float) : result bool :=
  if negb (nonempty token) then Ok false
  else
    let cleaned := keep_word_chars token in
    if (length cleaned <? 2)%nat then Ok false
    else
      match zipf with
      | None => Raise ClassifierUnavailable
      | Some zipf_frequency =>
          let freq := zipf_frequency (lower cleaned) in
          Ok (float_ge freq threshold)
      end.

Definition _clean_token (token : str) : str :=
  if nonempty token then keep_word_chars token else [].

Definition sutonny : str := Eval cbv in of_string "sutonny".

Definition should_use_tnr (zipf : oracle) (token : str)
    (threshold : spec_float) (src_font_name : option str) : result bool :=
  let cleaned := _clean_token token in
  if (length cleaned <? 2)%nat then Ok false
  else
    en ← is_english_word zipf cleaned threshold;
    if negb en then Ok false
    else
      let font_name := lower (default [] src_font_name) in
      if contains sutonny font_name && (length cleaned <=? 3)%nat then Ok false
      else Ok true.

(* ===================================================================== *)
(** ** Styled runs *)
(* ===================================================================== *)

(** A run is what python-docx shows of a [w:r] element: its text, the
    attributes of its font that the engine copies, and the attribute map
    of its [w:rFonts] element.  The style functions are followed on the
    path where the library calls succeed; the exceptions that the source
    catches and drops around them are not part of the model. *)

(** [run.font.underline]: [True], [False] or a member of [WD_UNDERLINE]. *)
Inductive underline_value : Type :=
  | UnderlineTrue
  | UnderlineFalse
  | UnderlineEnum (member : N).

(** [run.font.color]: the [w:color] child of the run properties seen
    through [ColorFormat].  The element is absent, or has a [w:val] that
    is a colour or "auto" ([None] here) and maybe a [w:themeColor]. *)
Inductive ColorFormat : Type :=
  | NoColor
  | Color (val : option N) (themeColor : option N).

(** [color.rgb]: [None] without the element or with "auto". *)
Definition rgb (c : ColorFormat) : option N :=
  match c with NoColor => None | Color val _ => val end.

(** [color.theme_color] *)
Definition theme_color (c : ColorFormat) : option N :=
  match c with NoColor => None | Color _ themeColor => themeColor end.

(** The attributes of [run.font] that [clone_run_style] reads and writes. *)
Record Font : Type := {
  bold : option bool;
  italic : option bool;
  underline : option underline_value;
  size : option N;
  all_caps : option bool;
  small_caps : option bool;
  color : ColorFormat;
}.

(** The tag of the element that holds a run ([run._r.getparent()]). *)
Inductive parent_tag : Type :=
  | InParagraph
  | InHyperlink
  | InFldSimple
  | NoParent.

(** A run.  [run_rFonts] is the attribute map of the [w:rFonts] child of
    the run properties, [None] when there is no such element. *)
Record Run : Type := {
  run_text : str;
  run_style : option str;
  run_font : Font;
  run_rFonts : option (gmap string str);
  run_parent : parent_tag;
  has_fldChar : bool;
  has_instrText : bool;
}.

Abbreviation Paragraph := (list Run).

Definition no_color : ColorFormat := NoColor.

Definition no_font : Font :=
  {| bold := None; italic := None; underline := None; size := None;
     all_caps := None; small_caps := None; color := no_color |}.

(** The run made by [paragraph.add_run] with no text, once it hangs under
    [parent]. *)
Definition empty_run (parent : parent_tag) : Run :=
  {| run_text := []; run_style := None; run_font := no_font;
     run_rFonts := None; run_parent := parent;
     has_fldChar := false; has_instrText := false |}.

(** The text that [run.text] reads once [run.text = t] has been done:
    the setter writes a line feed and a carriage return alike as a
    [w:br] element, which reads as a line feed; a tab comes back as a tab
    and the other characters as they are. *)
Definition line_feed (c : N) : N := if (c =? 13)%N then 10%N else c.
Definition as_written (t : str) : str := List.map line_feed t.

(** [run.text = t]: the content of the run (field characters and field
    instructions included) is removed and the text is written in its
    place; the run properties stay. *)
Definition set_text (t : str) (r : Run) : Run :=
  {| run_text := as_written t; run_style := run_style r;
     run_font := run_font r;
     run_rFonts := run_rFonts r; run_parent := run_parent r;
     has_fldChar := false; has_instrText := false |}.

Definition set_rFonts (f : option (gmap string str)) (r : Run) : Run :=
  {| run_text := run_text r; run_style := run_style r; run_font := run_font r;
     run_rFonts := f; run_parent := run_parent r;
     has_fldChar := has_fldChar r; has_instrText := has_instrText r |}.

(** [run.font.name]: the [w:ascii] attribute of [w:rFonts]. *)
Definition font_name (r : Run) : option str :=
  f ← run_rFonts r; f !! "w:ascii"%string.

(** [d_font.color.rgb = v] removes the colour element and makes a new
    one with that value.  [d_font.color.theme_color = v] sets one
    attribute of the element, which python-docx makes with the value
    000000 (black) when there is none. *)
Definition set_rgb (v : N) (c : ColorFormat) : ColorFormat :=
  Color (Some v) None.
Definition set_theme_color (v : N) (c : ColorFormat) : ColorFormat :=
  match c with
  | NoColor => Color (Some 0%N) (Some v)
  | Color val _ => Color val (Some v)
  end.

Definition copy_color (s d : ColorFormat) : ColorFormat :=
  let d1 := match rgb s with Some v => set_rgb v d | None => d end in
  match theme_color s with Some v => set_theme_color v d1 | None => d1 end.

Definition copy_rFonts (src_run dst_run : Run) : Run :=
  match run_rFonts src_run with
  | None => dst_run
  | Some src_rFonts => set_rFonts (Some src_rFonts) dst_run
  end.

Definition clone_run_style (src_run dst_run : Run) : Run :=
  let s_font := run_font src_run in
  let d_font := run_font dst_run in
  let dst :=
    {| run_text := run_text dst_run;
       run_style := run_style src_run;
       run_font :=
         {| bold := bold s_font; italic := italic s_font;
            underline := underline s_font; size := size s_font;
            all_caps := all_caps s_font; small_caps := small_caps s_font;
            color := copy_color (color s_font) (color d_font) |};
       run_rFonts := run_rFonts dst_run; run_parent := run_parent dst_run;
       has_fldChar := has_fldChar dst_run;
       has_instrText := has_instrText dst_run |} in
  copy_rFonts src_run dst.

Definition set_ascii_hAnsi (font_name : str) (run : Run) : Run :=
  let rFonts := default ∅ (run_rFonts run) in
  let rFonts := <["w:ascii"%string := font_name]> rFonts in
  let rFonts := <["w:hAnsi"%string := font_name]> rFonts in
  let rFonts := delete "w:asciiTheme"%string rFonts in
  let rFonts := delete "w:hAnsiTheme"%string rFonts in
  set_rFonts (Some rFonts) run.

Definition _is_run_in_hyperlink (run : Run) : bool :=
  match run_parent run with InHyperlink => true | _ => false end.

(** [r.xpath(expr, namespaces={...})] on the element of a run.  The
    [xpath] of python-docx elements takes the expression alone and adds
    the namespaces itself; called with the keyword [namespaces] it raises
    TypeError before it looks at the element.  [None] is that exception,
    [Some found] would be the list of matches seen as a truth value. *)
Definition xpath_namespaces (run : Run) (expr : string) : option bool := None.

(** The first statement of the [try] block raises, so the function
    leaves by [except Exception: return False] for every run. *)
Definition _is_run_field_code (run : Run) : bool :=
  match xpath_namespaces run ".//w:fldChar" with
  | None => false
  | Some found_fldChar =>
      if found_fldChar then true
      else
        match xpath_namespaces run ".//w:instrText" with
        | None => false
        | Some found_instrText =>
            if found_instrText then true
            else match run_parent run with InFldSimple => true | _ => false end
        end
  end.

(** [_insert_run_after]: the run that [add_run] appended is moved to the
    place right after the anchor, so it becomes a sibling of the anchor.
    The result is the paragraph and the position of the new run. *)
Definition _insert_run_after (paragraph : Paragraph) (anchor : nat)
    : Paragraph * nat :=
  let parent := from_option run_parent InParagraph (paragraph !! anchor) in
  (take (S anchor) paragraph ++ empty_run parent :: drop (S anchor) paragraph,
   S anchor).

(** [clone_run_style(run, new_run)] on two runs of one paragraph. *)
Definition clone_style_at (paragraph : Paragraph) (src dst : nat) : Paragraph :=
  match paragraph !! src with
  | Some src_run => alter (clone_run_style src_run) dst paragraph
  | None => paragraph
  end.

Definition Times_New_Roman : str := Eval cbv in of_string "Times New Roman".

(* ===================================================================== *)
(** ** Frequency mode: the run rewriter *)
(* ===================================================================== *)

Fixpoint foldM {A S : Type} (f : S -> A -> result S) (l : list A) (s : S)
    : result S :=
  match l with
  | [] => Ok s
  | a :: l' => s' ← f s a; foldM f l' s'
  end.

(** One turn of the loop over the chunks in [process_run].  [run] is the
    position of the run being rewritten; the state holds the paragraph, the
    anchor and the counter. *)
Definition process_chunk (zipf : oracle) (threshold : spec_float)
    (run : nat) (src_font_name : option str)
    (st : Paragraph * nat * nat) (chunk : str)
    : result (Paragraph * nat * nat) :=
  let '(paragraph, anchor, english_changed) := st in
  let is_en_like := EN_LIKE_WORD_RE_fullmatch chunk in
  make_tnr ← (if is_en_like
              then should_use_tnr zipf chunk threshold src_font_name
              else Ok false);
  let '(paragraph, new_run) := _insert_run_after paragraph anchor in
  let paragraph := alter (set_text chunk) new_run paragraph in
  let paragraph := clone_style_at paragraph run new_run in
  if make_tnr : bool then
    Ok (alter (set_ascii_hAnsi Times_New_Roman) new_run paragraph, new_run,
        S english_changed)
  else Ok (paragraph, new_run, english_changed).

(** [process_run]: the result is the paragraph after the call and the pair
    [(runs_scanned, english_tokens_changed)]. *)
Definition process_run (zipf : oracle) (paragraph : Paragraph) (run : nat)
    (threshold : spec_float) : result (Paragraph * (nat * nat)) :=
  match paragraph !! run with
  | None => Ok (paragraph, (0, 0))
  | Some r =>
      let text := sanitize_text (run_text r) in
      if negb (nonempty text) then Ok (paragraph, (0, 0))
      else if _is_run_in_hyperlink r then Ok (paragraph, (1, 0))
      else if _is_run_field_code r then Ok (paragraph, (1, 0))
      else
        let chunks := split_into_chunks text in
        match chunks with
        | [] => Ok (paragraph, (1, 0))
        | _ :: _ =>
            let src_font_name := Some (default [] (font_name r)) in
            '(paragraph, _, english_changed) ←
              foldM (process_chunk zipf threshold run src_font_name) chunks
                    (paragraph, run, 0);
            Ok (alter (set_text []) run paragraph, (1, english_changed))
        end
  end.

(** [process_paragraph]: the runs present at the start are rewritten in
    turn; the next one is found after the runs the call inserted. *)
Fixpoint process_runs (zipf : oracle) (threshold : spec_float)
    (todo : nat) (run : nat) (paragraph : Paragraph) (acc : nat * nat)
    : result (Paragraph * (nat * nat)) :=
  match todo with
  | O => Ok (paragraph, acc)
  | S todo' =>
      '(paragraph', (r_scanned, en_changed)) ←
        process_run zipf paragraph run threshold;
      process_runs zipf threshold todo'
        (S run + (length paragraph' - length paragraph)) paragraph'
        (fst acc + r_scanned, snd acc + en_changed)
  end.

Definition process_paragraph (zipf : oracle) (paragraph : Paragraph)
    (threshold : spec_float) : result (Paragraph * (nat * nat)) :=
  process_runs zipf threshold (length paragraph) 0 paragraph (0, 0).

(* ===================================================================== *)
(** ** Sentence mode *)
(* ===================================================================== *)

(** [build_paragraph_text_map]: the flattened text and, for each run, its
    position in the paragraph with the range it covers in that text. *)
Fixpoint text_map_from (runs : Paragraph) (index cursor : nat)
    : str * list (nat * nat * nat) :=
  match runs with
  | [] => ([], [])
  | r :: runs' =>
      let t := run_text r in
      let start := cursor in
      let end_ := cursor + length t in
      let '(full, mapping) := text_map_from runs' (S index) end_ in
      (t ++ full, (index, start, end_) :: mapping)
  end.

Definition build_paragraph_text_map (paragraph : Paragraph)
    : str * list (nat * nat * nat) :=
  text_map_from paragraph 0 0.

(** [text[a:b]] for [0 <= a] and [0 <= b]. *)
Definition slice (text : str) (a b : Z) : str :=
  drop (Z.to_nat a) (take (Z.to_nat b) text).

Definition split_run_apply_tnr (paragraph : Paragraph) (run : nat)
    (local_start local_end : Z) : Paragraph :=
  match paragraph !! run with
  | None => paragraph
  | Some r =>
      if _is_run_in_hyperlink r || _is_run_field_code r then paragraph
      else
        let text := run_text r in
        let len := Z.of_nat (length text) in
        let local_start := if (local_start <? 0)%Z then 0%Z else local_start in
        let local_end := if (local_end >? len)%Z then len else local_end in
        if (local_start >=? local_end)%Z then paragraph
        else
          let before := slice text 0 local_start in
          let target := slice text local_start local_end in
          let after := slice text local_end len in
          let anchor := run in
          let '(paragraph, anchor) :=
            if nonempty before then
              let '(paragraph, r_before) := _insert_run_after paragraph anchor in
              let paragraph := alter (set_text before) r_before paragraph in
              let paragraph := clone_style_at paragraph run r_before in
              (paragraph, r_before)
            else (paragraph, anchor) in
          let '(paragraph, r_target) := _insert_run_after paragraph anchor in
          let paragraph := alter (set_text target) r_target paragraph in
          let paragraph := clone_style_at paragraph run r_target in
          let paragraph :=
            alter (set_ascii_hAnsi Times_New_Roman) r_target paragraph in
          let anchor := r_target in
          let paragraph :=
            if nonempty after then
              let '(paragraph, r_after) := _insert_run_after paragraph anchor in
              let paragraph := alter (set_text after) r_after paragraph in
              clone_style_at paragraph run r_after
            else paragraph in
          alter (set_text []) run paragraph
  end.

(** [re.compile(re.escape(sentence)).search(full_text, pos)]: the leftmost
    occurrence of the literal at or after [pos]. *)
Fixpoint find_at (sub s : str) (i : nat) : option nat :=
  if is_prefix sub s then Some i
  else match s with
       | [] => None
       | _ :: s' => find_at sub s' (S i)
       end.

Definition search_literal (sub s : str) (pos : nat) : option (nat * nat) :=
  match find_at sub (drop pos s) pos with
  | Some g_start => Some (g_start, g_start + length sub)
  | None => None
  end.

(** The loop over [mapping] in [apply_sentence_to_paragraph].  A run of the
    mapping sits [shift] places further than when the mapping was built,
    by the runs inserted for the runs before it. *)
Fixpoint split_overlapping (paragraph : Paragraph)
    (mapping : list (nat * nat * nat)) (g_start g_end shift : nat)
    : Paragraph :=
  match mapping with
  | [] => paragraph
  | (run, r_start, r_end) :: mapping' =>
      let overlap_start := Nat.max g_start r_start in
      let overlap_end := Nat.min g_end r_end in
      if (overlap_start <? overlap_end)%nat then
        let local_start := (Z.of_nat overlap_start - Z.of_nat r_start)%Z in
        let local_end := (Z.of_nat overlap_end - Z.of_nat r_start)%Z in
        let paragraph' :=
          split_run_apply_tnr paragraph (run + shift) local_start local_end in
        split_overlapping paragraph' mapping' g_start g_end
          (shift + (length paragraph' - length paragraph))
      else split_overlapping paragraph mapping' g_start g_end shift
  end.

(** The state of the [while True] loop, with the spans of the matches
    converted so far (oldest first) kept as a log. *)
Record rescan_state : Type := {
  rs_paragraph : Paragraph;
  rs_search_from : nat;
  rs_converted : nat;
  rs_spans : list (nat * nat);
}.

(** One turn of the loop: [None] is [break]. *)
Definition rescan_step (sentence : str) (st : rescan_state)
    : option rescan_state :=
  let '(full_text, mapping) := build_paragraph_text_map (rs_paragraph st) in
  if negb (nonempty full_text) || (length full_text <=? rs_search_from st)%nat
  then None
  else
    match search_literal sentence full_text (rs_search_from st) with
    | None => None
    | Some (g_start, g_end) =>
        Some {| rs_paragraph :=
                  split_overlapping (rs_paragraph st) mapping g_start g_end 0;
                rs_search_from := g_end;
                rs_converted := S (rs_converted st);
                rs_spans := rs_spans st ++ [(g_start, g_end)] |}
    end.

(** The loop run for at most [fuel] turns: [None] when it is still running
    after them. *)
Fixpoint rescan (fuel : nat) (sentence : str) (st : rescan_state)
    : option rescan_state :=
  match fuel with
  | O => None
  | S fuel' =>
      match rescan_step sentence st with
      | None => Some st
      | Some st' => rescan fuel' sentence st'
      end
  end.

(** The number of turns given to the loop: one more than the length of the
    flattened text, which is shown below to be enough. *)
Definition rescan_fuel (paragraph : Paragraph) : nat :=
  S (length (fst (build_paragraph_text_map paragraph))).

Definition apply_sentence_to_paragraph (paragraph : Paragraph)
    (sentence : str) : Paragraph * nat :=
  if negb (nonempty sentence) then (paragraph, 0)
  else
    let st := {| rs_paragraph := paragraph; rs_search_from := 0;
                 rs_converted := 0; rs_spans := [] |} in
    match rescan (rescan_fuel paragraph) sentence st with
    | Some st' => (rs_paragraph st', rs_converted st')
    | None => (paragraph, 0)
    end.

(* ===================================================================== *)
(** ** Documents *)
(* ===================================================================== *)

Inductive Table : Type :=
  | MkTable (cells : list Cell) (rows : list (list nat))
with Cell : Type :=
  | MkCell (cell_paragraphs : list Paragraph) (cell_tables : list Table).

(** A table is its [w:tc] elements and, for each row of [table.rows], the
    cells that [row.cells] lists, each named by its position among the
    elements.  The library lists a cell merged across grid columns once
    for each column, and a cell merged down in each row it reaches, so a
    position may come more than once. *)
Definition table_cells (t : Table) : list Cell :=
  match t with MkTable cells _ => cells end.
Definition table_rows (t : Table) : list (list nat) :=
  match t with MkTable _ rows => rows end.
Definition cell_paragraphs (c : Cell) : list Paragraph :=
  match c with MkCell ps _ => ps end.
Definition cell_tables (c : Cell) : list Table :=
  match c with MkCell _ ts => ts end.

(** A header or a footer. *)
Record HeaderFooter : Type := {
  hf_paragraphs : list Paragraph;
  hf_tables : list Table;
}.

Record DocSection : Type := {
  header : option HeaderFooter;
  footer : option HeaderFooter;
}.

Record Document : Type := {
  paragraphs : list Paragraph;
  tables : list Table;
  sections : list DocSection;
}.

(** Counters [(paragraphs, runs_scanned, english_tokens_changed)]. *)
Abbreviation counts := (nat * nat * nat)%type.

Definition add_counts (a b : counts) : counts :=
  let '(p1, r1, e1) := a in
  let '(p2, r2, e2) := b in
  (p1 + p2, r1 + r2, e1 + e2).

(** A [for] loop that rewrites the elements of a list in place and sums
    the counters; an exception ends it. *)
Definition traverse {A : Type} (f : A -> result (A * counts))
    : list A -> result (list A * counts) :=
  fix go (l : list A) : result (list A * counts) :=
    match l with
    | [] => Ok ([], (0, 0, 0))
    | a :: l' =>
        '(a', c) ← f a;
        '(l'', c') ← go l';
        Ok (a' :: l'', add_counts c c')
    end.

(** The loops [for row in table.rows: for cell in row.cells: ...]: the
    body rewrites the listed cell in place, one listing after the other,
    so a cell listed again is rewritten again; an exception ends the
    loops. *)
Definition for_cells (body : Cell -> result (Cell * counts)) (t : Table)
    : result (Table * counts) :=
  '(cells, c) ←
    foldM (fun (st : list Cell * counts) (idx : nat) =>
             let '(cells, acc) := st in
             match cells !! idx with
             | None => Ok (cells, acc)
             | Some cell =>
                 '(cell', c) ← body cell;
                 Ok (<[idx := cell']> cells, add_counts acc c)
             end)
      (concat (table_rows t)) (table_cells t, (0, 0, 0));
  Ok (MkTable cells (table_rows t), c).

(** The body of the loops over paragraphs: one paragraph counted and its
    runs rewritten. *)
Definition count_paragraph (zipf : oracle) (threshold : spec_float)
    (p : Paragraph) : result (Paragraph * counts) :=
  '(p', (r_scanned, en_changed)) ← process_paragraph zipf p threshold;
  Ok (p', (1, r_scanned, en_changed)).

(** [process_table] calls itself for the tables nested in a cell; [depth]
    is the number of such calls one in the other that the interpreter
    still allows, and RecursionError is raised past it. *)
Fixpoint process_table (depth : nat) (zipf : oracle) (threshold : spec_float)
    (table : Table) : result (Table * counts) :=
  match depth with
  | O => Raise RecursionError
  | S depth' =>
      for_cells (fun cell =>
        '(ps', c1) ←
          traverse (count_paragraph zipf threshold) (cell_paragraphs cell);
        '(ts', c2) ←
          traverse (process_table depth' zipf threshold) (cell_tables cell);
        Ok (MkCell ps' ts', add_counts c1 c2)) table
  end.

Definition process_header_footer (depth : nat) (zipf : oracle)
    (threshold : spec_float) (hf : option HeaderFooter)
    : result (option HeaderFooter * counts) :=
  match hf with
  | None => Ok (None, (0, 0, 0))
  | Some h =>
      '(ps, c1) ← traverse (count_paragraph zipf threshold) (hf_paragraphs h);
      '(ts, c2) ← traverse (process_table depth zipf threshold) (hf_tables h);
      Ok (Some {| hf_paragraphs := ps; hf_tables := ts |}, add_counts c1 c2)
  end.

(** [process_headers_footers]: the sections with the counters of the
    headers and of the footers. *)
Fixpoint process_headers_footers (depth : nat) (zipf : oracle)
    (threshold : spec_float) (secs : list DocSection)
    : result (list DocSection * (counts * counts)) :=
  match secs with
  | [] => Ok ([], ((0, 0, 0), (0, 0, 0)))
  | sec :: secs' =>
      '(h, ch) ← process_header_footer depth zipf threshold (header sec);
      '(f, cf) ← process_header_footer depth zipf threshold (footer sec);
      '(secs'', (ch', cf')) ←
        process_headers_footers depth zipf threshold secs';
      Ok ({| header := h; footer := f |} :: secs'',
          (add_counts ch ch', add_counts cf cf'))
  end.

(** [process_paragraphs] of [apply_sentences_docx]: every sentence is
    applied to every paragraph. *)
Fixpoint apply_sentences_to_paragraph (p : Paragraph) (sentences : list str)
    : Paragraph * nat :=
  match sentences with
  | [] => (p, 0)
  | s :: sentences' =>
      let '(p1, n1) := apply_sentence_to_paragraph p s in
      let '(p2, n2) := apply_sentences_to_paragraph p1 sentences' in
      (p2, n1 + n2)
  end.

(** A [for] loop that rewrites the elements in place and sums the matches. *)
Fixpoint map_sum {A : Type} (f : A -> A * nat) (l : list A) : list A * nat :=
  match l with
  | [] => ([], 0)
  | a :: l' =>
      let '(a', n) := f a in
      let '(l'', n') := map_sum f l' in
      (a' :: l'', n + n')
  end.

Definition process_paragraphs (sentences : list str) (ps : list Paragraph)
    : list Paragraph * nat :=
  map_sum (fun p => apply_sentences_to_paragraph p sentences) ps.

(** The loops [for row in t.rows: for cell in row.cells: ...] of the
    sentence mode, where nothing raises. *)
Definition map_cells (body : Cell -> Cell * nat) (t : Table) : Table * nat :=
  let '(cells, n) :=
    fold_left (fun (st : list Cell * nat) (idx : nat) =>
                 let '(cells, n) := st in
                 match cells !! idx with
                 | None => (cells, n)
                 | Some cell =>
                     let '(cell', k) := body cell in
                     (<[idx := cell']> cells, n + k)
                 end)
      (concat (table_rows t)) (table_cells t, 0) in
  (MkTable cells (table_rows t), n).

(** The cells of a table whose own paragraphs only are visited. *)
Definition sentences_flat_table (sentences : list str) (t : Table)
    : Table * nat :=
  map_cells (fun cell =>
    let '(ps, n) := process_paragraphs sentences (cell_paragraphs cell) in
    (MkCell ps (cell_tables cell), n)) t.

(** The tables of the body: the paragraphs of a cell, then those of the
    cells of the tables nested in it, one level down. *)
Definition sentences_body_table (sentences : list str) (t : Table)
    : Table * nat :=
  map_cells (fun cell =>
    let '(ps, n1) := process_paragraphs sentences (cell_paragraphs cell) in
    let '(ts, n2) :=
      map_sum (sentences_flat_table sentences) (cell_tables cell) in
    (MkCell ps ts, n1 + n2)) t.

Definition sentences_header_footer (sentences : list str)
    (hf : option HeaderFooter) : option HeaderFooter * nat :=
  match hf with
  | None => (None, 0)
  | Some h =>
      let '(ps, n1) := process_paragraphs sentences (hf_paragraphs h) in
      let '(ts, n2) := map_sum (sentences_flat_table sentences) (hf_tables h) in
      (Some {| hf_paragraphs := ps; hf_tables := ts |}, n1 + n2)
  end.

Definition sentences_document (sentences : list str) (doc : Document)
    : Document * nat :=
  let '(ps, n1) := process_paragraphs sentences (paragraphs doc) in
  let '(ts, n2) := map_sum (sentences_body_table sentences) (tables doc) in
  let '(secs, n3) :=
    map_sum (fun sec =>
      let '(h, nh) := sentences_header_footer sentences (header sec) in
      let '(f, nf) := sentences_header_footer sentences (footer sec) in
      ({| header := h; footer := f |}, nh + nf)) (sections doc) in
  ({| paragraphs := ps; tables := ts; sections := secs |}, n1 + n2 + n3).

(* ===================================================================== *)
(** ** The file system and the output path *)
(* ===================================================================== *)

(** What the program sees of its environment. *)
Inductive save_failure : Type :=
  | SaveNotFound   (* FileNotFoundError, as for a directory that is missing *)
  | SaveOther.     (* any other exception *)

Record World : Type := {
  getcwd : str;                            (* os.getcwd() *)
  isfile : str -> bool;                    (* os.path.isfile *)
  open_document : str -> option Document;  (* Document(path); None: it raises *)
  save_document : str -> Document -> option save_failure;
                                           (* doc.save(path); None: saved *)
  read_text : str -> option str;           (* open(path).read(); None: it raises *)
  tk_available : bool;                     (* tkinter could be imported *)
  recursion_limit : nat;                   (* calls of process_table one in
                                              the other that are allowed *)
}.

(** The exception of [doc.save] as the callers see it. *)
Definition save_error (f : save_failure) : error :=
  match f with
  | SaveNotFound => FileNotFoundError
  | SaveOther => DocumentSaveFailure
  end.

Definition _fixed : str := Eval cbv in of_string "_fixed".
Definition dot_docx : str := Eval cbv in of_string ".docx".

(** [f"{base}_fixed{ext or '.docx'}"] for [base, ext = splitext(in_path)] *)
Definition fixed_path (in_path : str) : str :=
  let '(base, ext) := posixpath.splitext in_path in
  base ++ _fixed ++ (if nonempty ext then ext else dot_docx).

Definition truthy (o : option str) : bool :=
  match o with Some s => nonempty s | None => false end.

(** The path [convert_docx] and [apply_sentences_docx] save to. *)
Definition resolve_out_path (w : World) (in_path : str) (out_path : option str)
    : str :=
  let out_path :=
    if negb (truthy out_path) then fixed_path in_path
    else default [] out_path in
  if posixpath.str_eqb (posixpath.abspath (getcwd w) out_path)
                       (posixpath.abspath (getcwd w) in_path)
  then fixed_path in_path
  else out_path.

Definition convert_docx (w : World) (zipf : oracle) (in_path : str)
    (out_path : option str) (threshold : spec_float) (dry_run : bool)
    : result (option (str * Document)) :=
  if negb (isfile w in_path) then Raise FileNotFoundError
  else
    match open_document w in_path with
    | None => Raise DocumentOpenFailure
    | Some doc =>
        '(ps, c_body) ←
          traverse (count_paragraph zipf threshold) (paragraphs doc);
        '(ts, c_tables) ←
          traverse (process_table (recursion_limit w) zipf threshold)
            (tables doc);
        '(secs, _) ←
          process_headers_footers (recursion_limit w) zipf threshold
            (sections doc);
        let doc := {| paragraphs := ps; tables := ts; sections := secs |} in
        if dry_run then Ok None
        else
          let out_path := resolve_out_path w in_path out_path in
          match save_document w out_path doc with
          | None => Ok (Some (out_path, doc))
          | Some failure => Raise (save_error failure)
          end
    end.

(** [apply_sentences_docx]: the written path and document, and the number
    of matches. *)
Definition apply_sentences_docx (w : World) (in_path : str)
    (out_path : option str) (sentences : list str)
    : result (str * Document * nat) :=
  if negb (isfile w in_path) then Raise FileNotFoundError
  else
    match open_document w in_path with
    | None => Raise DocumentOpenFailure
    | Some doc =>
        let '(doc, total_converted) := sentences_document sentences doc in
        let out_path := resolve_out_path w in_path out_path in
        match save_document w out_path doc with
        | None => Ok (out_path, doc, total_converted)
        | Some failure => Raise (save_error failure)
        end
    end.

(* ===================================================================== *)
(** ** The command line *)
(* ===================================================================== *)

(** The first groups of the matches of [SENTENCE_SPLIT_RE.finditer]: the
    matching is the regular-expression engine's. *)
Variable SENTENCE_SPLIT_RE_groups : str -> list str.

(** Deduplication that keeps the first occurrences, for elements already
    stripped by [f]. *)
Definition dedupe_step (f : str -> str) (st : list str * gset str) (s : str)
    : list str * gset str :=
  let '(ordered, seen) := st in
  let s2 := f s in
  if nonempty s2 && negb (bool_decide (s2 ∈ seen))
  then (ordered ++ [s2], {[s2]} ∪ seen)
  else st.

Definition dedupe (f : str -> str) (l : list str) : list str :=
  fst (fold_left (dedupe_step f) l ([], ∅)).

Definition extract_sentences (text : str) : list str :=
  if negb (nonempty text) then []
  else dedupe id (List.map strip (SENTENCE_SPLIT_RE_groups text)).

(** The namespace made by [build_arg_parser().parse_args(argv)]. *)
Record Args : Type := {
  in_path : option str;
  out_path : option str;
  threshold : spec_float;
  dry_run : bool;
  verbose : bool;
  gui : bool;
  sentences : option str;
  sentences_file : option str;
}.

(** How [main] ends: the exit status of the process with the document it
    wrote, or the window of [launch_gui]. *)
Inductive outcome : Type :=
  | Exit (code : Z) (written : option (str * Document))
  | Gui.

Definition launch_gui (w : World) : outcome :=
  if negb (tk_available w) then Exit 3 None else Gui.

Definition comma : N := 44.

(** The items of [--sentences]: an item is replaced by the sentences
    extracted from it when there are any. *)
Definition sentences_of_items (raw_items : list str) : list str :=
  flat_map (fun item =>
    if nonempty item then
      let ext := extract_sentences item in
      if nonempty_list ext then ext else [item]
    else []) raw_items.

(** The body of [main] from the namespace that [parse_args] returned
    on. *)
Definition main (w : World) (zipf : oracle) (args : Args) : outcome :=
  if gui args then launch_gui w
  else if truthy (sentences args) || truthy (sentences_file args) then
    if negb (truthy (in_path args)) then Exit 2 None
    else
      let from_option_ :=
        if truthy (sentences args)
        then sentences_of_items
               (List.map strip (split_on comma (default [] (sentences args))))
        else [] in
      let from_file :=
        if truthy (sentences_file args) then
          match read_text w (default [] (sentences_file args)) with
          | Some content => Some (extract_sentences content)
          | None => None
          end
        else Some [] in
      match from_file with
      | None => Exit 2 None
      | Some from_file =>
          let ordered := dedupe strip (from_option_ ++ from_file) in
          if negb (nonempty_list ordered) then Exit 2 None
          else
            match apply_sentences_docx w (default [] (in_path args))
                    (out_path args) ordered with
            | Ok (out, doc, _) => Exit 0 (Some (out, doc))
            | Raise _ => Exit 1 None
            end
      end
  else if negb (truthy (in_path args)) then Exit 2 None
  else
    match zipf with
    | None => Exit 2 None
    | Some _ =>
        match convert_docx w zipf (default [] (in_path args)) (out_path args)
                (threshold args) (dry_run args) with
        | Ok written => Exit 0 written
        | Raise FileNotFoundError => Exit 2 None
        | Raise _ => Exit 1 None
        end
    end.

(** [build_arg_parser().parse_args(argv)]: the namespace, or the status
    with which argparse ends the program itself (0 after [-h], 2 for an
    option it does not know or a threshold that is no float). *)
Variable parse_args : list str -> Z + Args.

(** [main(argv)]: the command line is parsed, then the body runs. *)
Definition main_argv (w : World) (zipf : oracle) (argv : list str)
    : outcome :=
  match parse_args argv with
  | inl status => Exit status None
  | inr args => main w zipf args
  end.

(* ===================================================================== *)
(** ** Notions used in the statements *)
(* ===================================================================== *)

(** The run the rewriters make for a piece [t] of the text of [src]: a new
    run with that text and the style of [src]. *)
Definition styled_run (src : Run) (t : str) : Run :=
  clone_run_style src (set_text t (empty_run (run_parent src))).

(** The run emitted for a chunk, relabeled or not. *)
Definition emitted_run (src : Run) (chunk : str) (make_tnr : bool) : Run :=
  if make_tnr then set_ascii_hAnsi Times_New_Roman (styled_run src chunk)
  else styled_run src chunk.

(** [make_tnr] of [process_run] for one chunk. *)
Definition make_tnr_of (zipf : oracle) (threshold : spec_float)
    (src_font_name : option str) (chunk : str) : result bool :=
  if EN_LIKE_WORD_RE_fullmatch chunk
  then should_use_tnr zipf chunk threshold src_font_name
  else Ok false.

(** The runs emitted for a list of chunks, with the number of relabeled
    ones. *)
Fixpoint emitted_runs (zipf : oracle) (threshold : spec_float) (src : Run)
    (src_font_name : option str) (chunks : list str)
    : result (list Run * nat) :=
  match chunks with
  | [] => Ok ([], 0)
  | chunk :: chunks' =>
      b ← make_tnr_of zipf threshold src_font_name chunk;
      '(rs, n) ← emitted_runs zipf threshold src src_font_name chunks';
      Ok (emitted_run src chunk b :: rs, (if b : bool then 1 else 0) + n)
  end.

(** The font attributes of a new run once [clone_run_style] has copied
    those of a run with the font [f] to it: the colour is what
    [copy_color] makes on a run that has none. *)
Definition cloned_font (f : Font) : Font :=
  {| bold := bold f; italic := italic f; underline := underline f;
     size := size f; all_caps := all_caps f; small_caps := small_caps f;
     color := copy_color (color f) no_color |}.

(** What the docstring of [_is_run_field_code] means by a field-code run:
    a run with a field character or a field instruction, or a run of a
    simple field. *)
Definition field_code_run (r : Run) : bool :=
  has_fldChar r || has_instrText r
  || match run_parent r with InFldSimple => true | _ => false end.

(** An attribute of the [w:rFonts] element of a run. *)
Definition rFonts_attr (r : Run) (attr : string) : option str :=
  f ← run_rFonts r; f !! attr.

(** A run is structural when it sits in a hyperlink or a field code. *)
Definition structural (r : Run) : bool :=
  _is_run_in_hyperlink r || _is_run_field_code r.

(** The four attributes of [w:rFonts] that a relabeling writes. *)
Definition latin_slot (attr : string) : bool :=
  bool_decide (attr = "w:ascii" \/ attr = "w:hAnsi"
               \/ attr = "w:asciiTheme" \/ attr = "w:hAnsiTheme")%string.

(** A new run after [anchor], with text [t] and the style of the run at
    [run]: the three statements that [split_run_apply_tnr] and
    [process_run] repeat. *)
Definition emit_after (paragraph : Paragraph) (anchor run : nat) (t : str)
    : Paragraph * nat :=
  let '(paragraph, new_run) := _insert_run_after paragraph anchor in
  let paragraph := alter (set_text t) new_run paragraph in
  (clone_style_at paragraph run new_run, new_run).

(** The runs that replace the content of [r] in the sentence mode. *)
Definition split_parts (r : Run) (local_start local_end : Z) : list Run :=
  let text := run_text r in
  let len := Z.of_nat (length text) in
  let before := slice text 0 local_start in
  let target := slice text local_start local_end in
  let after := slice text local_end len in
  (if nonempty before then [styled_run r before] else [])
  ++ [set_ascii_hAnsi Times_New_Roman (styled_run r target)]
  ++ (if nonempty after then [styled_run r after] else []).

(** The text of a paragraph: the texts of its runs, in order. *)
Definition flat_text (paragraph : Paragraph) : str :=
  concat (List.map run_text paragraph).

(** The end of the last span of a log that starts at [lo]. *)
Fixpoint last_end (lo : nat) (spans : list (nat * nat)) : nat :=
  match spans with
  | [] => lo
  | (_, b) :: spans' => last_end b spans'
  end.

(** Each span starts at or after the end of the one before it. *)
Fixpoint chained (lo : nat) (spans : list (nat * nat)) : Prop :=
  match spans with
  | [] => True
  | (a, b) :: spans' => (lo <= a)%nat /\ (a <= b)%nat /\ chained b spans'
  end.

(** A span of the log: an occurrence of the sentence in the text, a
    carriage return being read as a line feed on both sides (the runs
    split for the matches before have theirs written as line feeds). *)
Definition occurrence (sentence full : str) (span : nat * nat) : Prop :=
  snd span = (fst span + length sentence)%nat
  /\ (snd span <= length full)%nat
  /\ as_written (take (length sentence) (drop (fst span) full))
     = as_written sentence.

(** What holds of the loop state at the head of every turn. *)
Definition rescan_inv (sentence full : str) (st : rescan_state) : Prop :=
  as_written (flat_text (rs_paragraph st)) = as_written full
  /\ (rs_search_from st <= length full)%nat
  /\ rs_converted st = length (rs_spans st)
  /\ (rs_converted st * length sentence <= rs_search_from st)%nat
  /\ chained 0 (rs_spans st)
  /\ last_end 0 (rs_spans st) = rs_search_from st
  /\ Forall (occurrence sentence full) (rs_spans st).

(** The state at the start of [apply_sentence_to_paragraph]. *)
Definition rescan_start (paragraph : Paragraph) : rescan_state :=
  {| rs_paragraph := paragraph; rs_search_from := 0;
     rs_converted := 0; rs_spans := [] |}.

(** The state of a deduplication loop: the strings seen are the strings
    kept. *)
Definition dedupe_inv (st : list str * gset str) : Prop :=
  forall s, s ∈ snd st <-> In s (fst st).

(** The characters that are no control characters to [sanitize_text]:
    those from the space on but DEL, and tab, line feed and carriage
    return. *)
Definition survives_sanitizing (c : N) : bool :=
  ((32 <=? c) && negb (c =? 127) || (c =? 9) || (c =? 10) || (c =? 13))%N.

(** The three kinds of chunk. *)
Definition chunk_kind_ok (chunk : str) : Prop :=
  EN_LIKE_WORD_RE_fullmatch chunk = true
  \/ forallb re_space chunk = true
  \/ forallb is_other_char chunk = true.

(** What [process_run] puts in the place of one run, with its counters:
    the run itself when it is skipped, else the emptied run followed by
    the runs emitted for its chunks. *)
Definition rewritten_run (zipf : oracle) (threshold : spec_float) (r : Run)
    : result (list Run * (nat * nat)) :=
  if negb (nonempty (sanitize_text (run_text r))) then Ok ([r], (0, 0))
  else if structural r then Ok ([r], (1, 0))
  else
    match split_into_chunks (sanitize_text (run_text r)) with
    | [] => Ok ([r], (1, 0))
    | chunks =>
        '(rs, k) ← emitted_runs zipf threshold r
                     (Some (default [] (font_name r))) chunks;
        Ok (set_text [] r :: rs, (1, k))
    end.

(** The same for the runs of a paragraph, one after the other. *)
Fixpoint rewritten_runs (zipf : oracle) (threshold : spec_float)
    (runs : list Run) : result (list Run * (nat * nat)) :=
  match runs with
  | [] => Ok ([], (0, 0))
  | r :: runs' =>
      '(new, (s1, e1)) ← rewritten_run zipf threshold r;
      '(rest, (s2, e2)) ← rewritten_runs zipf threshold runs';
      Ok (new ++ rest, (s1 + s2, e1 + e2))
  end.

(** The characters the frequency mode is bound to keep: neither Latin
    letters nor control characters. *)
Definition kept_char (c : N) : bool := negb (is_alpha c) && negb (is_ctrl_char c).












(** The occurrences of a literal [sub] that is not empty in [s], found in
    one pass from left to right, each search starting where the occurrence
    before ends: the spans [(start, end)] of [re.finditer(re.escape(sub),
    s)].  The first character of [s] is at position [pos], and [skip]
    characters are passed over first. *)
Fixpoint spans_from (sub s : str) (pos skip : nat) : list (nat * nat) :=
  match s with
  | [] => []
  | _ :: s' =>
      match skip with
      | S k => spans_from sub s' (S pos) k
      | O =>
          if is_prefix sub s
          then (pos, pos + length sub)%nat
               :: spans_from sub s' (S pos) (length sub - 1)
          else spans_from sub s' (S pos) 0
      end
  end.

Definition literal_matches (sub s : str) : list (nat * nat) :=
  spans_from sub s 0 0.


(** The tables nested in the cells of a table, cell by cell. *)
Definition nested_tables (t : Table) : list (list Table) :=
  List.map cell_tables (table_cells t).

(** The tables of a header or footer, none when there is no such part. *)
Definition tables_of (hf : option HeaderFooter) : list Table :=
  match hf with Some h => hf_tables h | None => [] end.

(** Whether [main] takes the sentence mode. *)
Definition sentence_mode (args : Args) : bool :=
  truthy (sentences args) || truthy (sentences_file args).

(* ===================================================================== *)
(** ** Tables and sample inputs *)
(* ===================================================================== *)

(** [str.isspace]: the code points Python takes for whitespace. *)
Definition python_isspace (c : N) : bool :=
  ((9 <=? c) && (c <=? 13) || (28 <=? c) && (c <=? 32) || (c =? 133)
   || (c =? 160) || (c =? 5760) || (8192 <=? c) && (c <=? 8202)
   || (c =? 8232) || (c =? 8233) || (c =? 8239) || (c =? 8287)
   || (c =? 12288))%N.

(** A lowering that leaves the code points above ASCII as they are. *)
Definition keep_code_point (c : N) : str := [c].

(** 3.0, 5.0 and 7.0 as binary64 values. *)
Definition float_3 : spec_float := S754_finite false 6755399441055744 (-51).
Definition float_5 : spec_float := S754_finite false 5629499534213120 (-50).
Definition float_7 : spec_float := S754_finite false 7881299347898368 (-50).

(** An oracle that gives every word the score 7.0, and one that gives 5.0. *)
Definition oracle_7 : str -> spec_float := fun _ => float_7.
Definition oracle_5 : str -> spec_float := fun _ => float_5.

(** A run of a paragraph with the given text and font mapping, and no
    other formatting. *)
Definition plain_run (t : str) (f : option (gmap string str)) : Run :=
  {| run_text := t; run_style := None; run_font := no_font;
     run_rFonts := f; run_parent := InParagraph;
     has_fldChar := false; has_instrText := false |}.

(** A run inside a hyperlink. *)
Definition link_run (t : str) : Run :=
  {| run_text := t; run_style := None; run_font := no_font;
     run_rFonts := None; run_parent := InHyperlink;
     has_fldChar := false; has_instrText := false |}.

(** A run that holds a field instruction beside its text, and a run of a
    simple field. *)
Definition instruction_run (t : str) : Run :=
  {| run_text := t; run_style := None; run_font := no_font;
     run_rFonts := None; run_parent := InParagraph;
     has_fldChar := false; has_instrText := true |}.

Definition simple_field_run (t : str) : Run :=
  {| run_text := t; run_style := None; run_font := no_font;
     run_rFonts := None; run_parent := InFldSimple;
     has_fldChar := false; has_instrText := false |}.

(** A run whose colour is a theme colour with the value "auto". *)
Definition theme_colour_run (t : str) : Run :=
  {| run_text := t; run_style := None;
     run_font :=
       {| bold := None; italic := None; underline := None; size := None;
          all_caps := None; small_caps := None;
          color := Color None (Some 5%N) |};
     run_rFonts := None; run_parent := InParagraph;
     has_fldChar := false; has_instrText := false |}.

(** The font mapping of a run set in SutonnyMJ with an east-Asian font, a
    complex-script font and theme references on the Latin slots. *)
Definition sutonny_rFonts : gmap string str :=
  <["w:ascii"%string := of_string "SutonnyMJ"]>
  (<["w:hAnsi"%string := of_string "SutonnyMJ"]>
  (<["w:eastAsia"%string := of_string "MS Mincho"]>
  (<["w:cs"%string := of_string "Vrinda"]>
  (<["w:hint"%string := of_string "cs"]>
  (<["w:asciiTheme"%string := of_string "minorHAnsi"]> ∅))))).

(** A world where no file exists. *)
Definition empty_world : World :=
  {| getcwd := of_string "/home/user";
     isfile := fun _ => false;
     open_document := fun _ => None;
     save_document := fun _ _ => Some SaveOther;
     read_text := fun _ => None;
     tk_available := false;
     recursion_limit := 1000 |}.

Definition empty_document : Document :=
  {| paragraphs := []; tables := []; sections := [] |}.

(** A world where every path is a file that opens as the empty document
    and every save succeeds. *)
Definition full_world : World :=
  {| getcwd := of_string "/home/user";
     isfile := fun _ => true;
     open_document := fun _ => Some empty_document;
     save_document := fun _ _ => None;
     read_text := fun _ => None;
     tk_available := false;
     recursion_limit := 1000 |}.

(** [--in missing.docx --sentences "Hello world."] *)
Definition missing_input_args : Args :=
  {| in_path := Some (of_string "missing.docx"); out_path := None;
     threshold := default_threshold; dry_run := false; verbose := false;
     gui := false; sentences := Some (of_string "Hello world.");
     sentences_file := None |}.

(* ===================================================================== *)
(** ** Facts about text and floats *)
(* ===================================================================== *)

Lemma bind_Ok {A B : Type} (a : A) (k : A -> result B) : (Ok a ≫= k) = k a.
Proof. reflexivity. Qed.

Lemma bind_Raise {A B : Type} (e : error) (k : A -> result B) :
  (Raise e ≫= k) = Raise e.
Proof. reflexivity. Qed.

Lemma span_app (cls : N -> bool) (s : str) :
  fst (span cls s) ++ snd (span cls s) = s.
Proof.
  induction s as [|c s IH]; simpl; [reflexivity|].
  destruct (cls c); [|reflexivity].
  destruct (span cls s) as [m r]; simpl in *. now rewrite IH.
Qed.

Lemma filter_idem {A : Type} (f : A -> bool) (l : list A) :
  List.filter f (List.filter f l) = List.filter f l.
Proof.
  induction l as [|a l IH]; simpl; [reflexivity|].
  destruct (f a) eqn:E; simpl; rewrite ?E, IH; reflexivity.
Qed.

Lemma nonempty_length (s : str) : nonempty s = true <-> (0 < length s)%nat.
Proof. destruct s; simpl; split; intros; try lia; congruence. Qed.

Lemma compare_cont_Eq (a b : positive) :
  Pos.compare_cont Eq a b = Pos.compare a b.
Proof. reflexivity. Qed.

(** [<=] on floats is transitive, NaNs included: a comparison that holds
    has no NaN on either side. *)
Lemma SFleb_trans (a b c : spec_float) :
  SFleb a b = true -> SFleb b c = true -> SFleb a c = true.
Proof.
  unfold SFleb, SFcompare.
  destruct a as [sa|sa| |sa ma ea], b as [sb|sb| |sb mb eb],
           c as [sc|sc| |sc mc ec];
    try (destruct sa); try (destruct sb); try (destruct sc);
    simpl; try congruence; intros Hab Hbc;
    rewrite ?compare_cont_Eq in *;
    destruct (Z.compare_spec ea eb), (Z.compare_spec eb ec),
             (Z.compare_spec ea ec); try congruence; try lia; subst;
    destruct (Pos.compare_spec ma mb), (Pos.compare_spec mb mc),
             (Pos.compare_spec ma mc); simpl in *; try congruence; try lia.
Qed.

(* ===================================================================== *)
(** ** The tokenizer *)
(* ===================================================================== *)

Lemma match_plus_app (cls : N -> bool) (s m r : str) :
  match_plus cls s = Some (m, r) -> m ++ r = s /\ m <> [].
Proof.
  unfold match_plus. pose proof (span_app cls s) as Happ.
  destruct (span cls s) as [[|c m'] r']; [discriminate|].
  intros H. injection H as <- <-. split; [exact Happ | discriminate].
Qed.

(** A match of the token pattern is a prefix of the text that is not
    empty. *)
Lemma TOKEN_SPLIT_RE_match_app (s m r : str) :
  TOKEN_SPLIT_RE_match s = Some (m, r) -> m ++ r = s /\ m <> [].
Proof.
  unfold TOKEN_SPLIT_RE_match, match_en_like_word.
  destruct s as [|c s].
  - simpl. discriminate.
  - destruct (is_alpha c).
    + destruct (match_plus is_word_char s) as [[m' r']|] eqn:Hw.
      * intros H. injection H as <- <-.
        apply match_plus_app in Hw as [<- _]. split; [reflexivity|discriminate].
      * destruct (match_plus re_space (c :: s)) as [[m' r']|] eqn:Hs.
        -- intros H. injection H as <- <-. now apply match_plus_app in Hs.
        -- apply match_plus_app.
    + destruct (match_plus re_space (c :: s)) as [[m' r']|] eqn:Hs.
      * intros H. injection H as <- <-. now apply match_plus_app in Hs.
      * apply match_plus_app.
Qed.

(** The pattern fails only at a Latin letter. *)
Lemma TOKEN_SPLIT_RE_match_none (c : N) (s : str) :
  TOKEN_SPLIT_RE_match (c :: s) = None -> is_alpha c = true.
Proof.
  unfold TOKEN_SPLIT_RE_match, match_en_like_word, match_plus, is_other_char.
  destruct (is_alpha c) eqn:Ha; [reflexivity|].
  simpl. destruct (re_space c) eqn:Hs.
  - destruct (span re_space s); discriminate.
  - rewrite Ha. simpl. destruct (span _ s); discriminate.
Qed.

(** What the scan keeps: no chunk is empty, the chunks in order are the
    text with some Latin letters left out, and nothing but Latin letters
    is left out. *)
Lemma findall_from_spec (fuel : nat) :
  forall s : str,
  (length s <= fuel)%nat ->
  Forall (fun chunk => chunk <> []) (findall_from fuel s)
  /\ concat (findall_from fuel s) `sublist_of` s
  /\ List.filter (fun c => negb (is_alpha c)) (concat (findall_from fuel s))
     = List.filter (fun c => negb (is_alpha c)) s.
Proof.
  induction fuel as [|fuel IH]; intros s Hlen.
  - destruct s; [|simpl in Hlen; lia]. simpl. auto.
  - destruct s as [|c s]; [simpl; auto|].
    change (findall_from (S fuel) (c :: s))
      with (match TOKEN_SPLIT_RE_match (c :: s) with
            | Some (m, rest) => m :: findall_from fuel rest
            | None => findall_from fuel s
            end).
    destruct (TOKEN_SPLIT_RE_match (c :: s)) as [[m rest]|] eqn:Hm.
    + apply TOKEN_SPLIT_RE_match_app in Hm as [Happ Hne].
      assert (Hrest : (length rest <= fuel)%nat).
      { apply (f_equal (@length N)) in Happ. rewrite length_app in Happ.
        destruct m; [congruence|]. simpl in *. lia. }
      destruct (IH rest Hrest) as (H1 & H2 & H3).
      rewrite <- Happ. simpl concat. split; [now constructor|].
      split; [now apply sublist_app|].
      now rewrite !List.filter_app, H3.
    + apply TOKEN_SPLIT_RE_match_none in Hm.
      destruct (IH s ltac:(simpl in Hlen; lia)) as (H1 & H2 & H3).
      split; [exact H1|]. split; [now apply sublist_cons|].
      simpl List.filter. now rewrite Hm.
Qed.

Lemma filter_nonempty_id (l : list str) :
  Forall (fun chunk => chunk <> []) l -> List.filter nonempty l = l.
Proof.
  induction l as [|x l IH]; intros H; [reflexivity|].
  apply Forall_cons in H as [Hx Hl]. simpl.
  destruct x; [congruence|]. simpl. now rewrite IH.
Qed.

(** The chunks of a text: none is empty; in order they make up the text
    with some Latin letters left out, and only Latin letters can be left
    out. *)
Lemma split_into_chunks_spec (text : str) :
  Forall (fun chunk => chunk <> []) (split_into_chunks text)
  /\ concat (split_into_chunks text) `sublist_of` text
  /\ List.filter (fun c => negb (is_alpha c)) (concat (split_into_chunks text))
     = List.filter (fun c => negb (is_alpha c)) text.
Proof.
  unfold split_into_chunks, TOKEN_SPLIT_RE_findall.
  destruct text as [|c text]; [simpl; auto|]. simpl nonempty. cbv iota.
  destruct (findall_from_spec (length (c :: text)) (c :: text) (le_n _))
    as (H1 & H2 & H3).
  rewrite (filter_nonempty_id _ H1). auto.
Qed.

(** A text without Latin letters is the concatenation of its chunks. *)
Lemma split_into_chunks_lossless_without_letters (text : str) :
  forallb (fun c => negb (is_alpha c)) text = true ->
  concat (split_into_chunks text) = text.
Proof.
  intros Hall.
  destruct (split_into_chunks_spec text) as (_ & Hsub & Hfilter).
  assert (Hid : forall l : str,
            forallb (fun c => negb (is_alpha c)) l = true ->
            List.filter (fun c => negb (is_alpha c)) l = l).
  { induction l as [|x l IH]; [reflexivity|]. simpl.
    intros H. apply andb_true_iff in H as [Hx Hl]. now rewrite Hx, IH. }
  rewrite (Hid text Hall) in Hfilter.
  transitivity (List.filter (fun c => negb (is_alpha c))
                  (concat (split_into_chunks text))); [|exact Hfilter].
  symmetry. apply Hid. apply forallb_forall. intros x Hx.
  rewrite forallb_forall in Hall. apply Hall.
  apply list_elem_of_In. eapply elem_of_sublist; [|exact Hsub].
  now apply list_elem_of_In.
Qed.

(* ===================================================================== *)
(** ** The classifier *)
(* ===================================================================== *)

Lemma keep_word_chars_idem (token : str) :
  keep_word_chars (keep_word_chars token) = keep_word_chars token.
Proof. apply filter_idem. Qed.

Lemma clean_token_keep (token : str) :
  _clean_token token = keep_word_chars token.
Proof. destruct token; reflexivity. Qed.

(** With an oracle at hand, a token of at least two kept characters is
    scored: the answer is the comparison of its score with the threshold. *)
Lemma is_english_word_scored (zipf : str -> spec_float) (token : str)
    (threshold : spec_float) :
  (2 <= length (keep_word_chars token))%nat ->
  is_english_word (Some zipf) token threshold
  = Ok (float_ge (zipf (lower (keep_word_chars token))) threshold).
Proof.
  intros Hlen. unfold is_english_word.
  destruct token as [|c token]; [simpl in Hlen; lia|]. simpl negb. cbv iota.
  destruct (Nat.ltb_spec (length (keep_word_chars (c :: token))) 2);
    [lia | reflexivity].
Qed.

(** Tokens of fewer than two kept characters are never English words,
    whatever the oracle. *)
Lemma is_english_word_short (zipf : oracle) (token : str)
    (threshold : spec_float) :
  (length (keep_word_chars token) < 2)%nat ->
  is_english_word zipf token threshold = Ok false.
Proof.
  intros Hlen. unfold is_english_word.
  destruct token as [|c token]; [reflexivity|]. simpl negb. cbv iota.
  destruct (Nat.ltb_spec (length (keep_word_chars (c :: token))) 2);
    [reflexivity | lia].
Qed.

(** C4.  Short-token guard: a token whose stripped form has two or three
    characters, in a run whose font name contains "sutonny" once lowered,
    is never relabeled, whatever the threshold and whatever score the
    oracle gives. *)
Theorem short_token_guard (zipf : str -> spec_float) (token : str)
    (threshold : spec_float) (src_font_name : str) :
  (2 <= length (_clean_token token) <= 3)%nat ->
  contains sutonny (lower src_font_name) = true ->
  should_use_tnr (Some zipf) token threshold (Some src_font_name) = Ok false.
Proof.
  intros [Hlo Hhi] Hfont. unfold should_use_tnr.
  destruct (Nat.ltb_spec (length (_clean_token token)) 2); [lia|].
  rewrite is_english_word_scored
    by (rewrite clean_token_keep, keep_word_chars_idem,
          <- clean_token_keep; exact Hlo).
  simpl. destruct (float_ge _ threshold); simpl; [|reflexivity].
  rewrite Hfont. simpl.
  destruct (Nat.leb_spec (length (_clean_token token)) 3); [reflexivity | lia].
Qed.

(** C5, as amended.  Classifier monotonicity: for a token whose stripped
    form has at least two characters, if the score of the lowered stripped
    form reaches [threshold1] and [threshold2 <= threshold1], the token is
    an English word at [threshold2]. *)
Theorem classifier_monotone (zipf : str -> spec_float) (token : str)
    (threshold1 threshold2 : spec_float) :
  (2 <= length (keep_word_chars token))%nat ->
  float_ge (zipf (lower (keep_word_chars token))) threshold1 = true ->
  float_le threshold2 threshold1 = true ->
  is_english_word (Some zipf) token threshold2 = Ok true.
Proof.
  intros Hlen Hscore Hle.
  rewrite is_english_word_scored by exact Hlen. f_equal.
  unfold float_ge, float_le in *. eapply SFleb_trans; eassumption.
Qed.

(** The same fact read on the answers: lowering the threshold never turns
    a yes into a no. *)
Lemma is_english_word_antitone (zipf : oracle) (token : str)
    (threshold1 threshold2 : spec_float) :
  is_english_word zipf token threshold1 = Ok true ->
  float_le threshold2 threshold1 = true ->
  is_english_word zipf token threshold2 = Ok true.
Proof.
  intros H1 Hle.
  destruct (Nat.ltb_spec (length (keep_word_chars token)) 2) as [Hs|Hl].
  - rewrite is_english_word_short in H1 by exact Hs. discriminate.
  - destruct zipf as [zipf|].
    + rewrite is_english_word_scored in H1 |- * by exact Hl.
      injection H1 as H1. f_equal. unfold float_ge, float_le in *.
      eapply SFleb_trans; eassumption.
    + unfold is_english_word in H1.
      destruct token; [discriminate|]. simpl negb in H1. cbv iota in H1.
      destruct (Nat.ltb_spec (length (keep_word_chars (n :: token))) 2);
        [lia | discriminate].
Qed.

(* ===================================================================== *)
(** ** Structural protection *)
(* ===================================================================== *)



(** The half of the structural protection that holds: a run inside a
    hyperlink goes through [process_run] and [split_run_apply_tnr] with
    the whole paragraph left as it was, for every text, threshold, oracle
    and range. *)
Lemma hyperlink_protection (zipf : oracle) (paragraph : Paragraph)
    (run : nat) (r : Run) (threshold : spec_float)
    (local_start local_end : Z) :
  paragraph !! run = Some r ->
  _is_run_in_hyperlink r = true ->
  (exists scanned, process_run zipf paragraph run threshold
                   = Ok (paragraph, (scanned, 0%nat)))
  /\ split_run_apply_tnr paragraph run local_start local_end = paragraph.
Proof.
  intros Hrun H. split.
  - unfold process_run. rewrite Hrun.
    destruct (nonempty (sanitize_text (run_text r))); simpl;
      [|eexists; reflexivity].
    rewrite H. eexists. reflexivity.
  - unfold split_run_apply_tnr. rewrite Hrun, H. reflexivity.
Qed.

(* ===================================================================== *)
(** ** Emitted runs *)
(* ===================================================================== *)

(** Reading a carriage return as a line feed. *)
Lemma as_written_app (s t : str) :
  as_written (s ++ t) = as_written s ++ as_written t.
Proof. apply List.map_app. Qed.

Lemma as_written_length (t : str) : length (as_written t) = length t.
Proof. apply length_map. Qed.

Lemma line_feed_idem (c : N) : line_feed (line_feed c) = line_feed c.
Proof.
  unfold line_feed. destruct (N.eqb_spec c 13) as [->|Hc]; [reflexivity|].
  destruct (N.eqb_spec c 13); [contradiction | reflexivity].
Qed.

Lemma as_written_idem (t : str) : as_written (as_written t) = as_written t.
Proof.
  unfold as_written. rewrite List.map_map. apply map_ext, line_feed_idem.
Qed.

(** A text without carriage return is written as it is. *)
Lemma as_written_id (t : str) :
  forallb (fun c => negb (c =? 13)%N) t = true -> as_written t = t.
Proof.
  induction t as [|c t IH]; [reflexivity|]. simpl. intros H.
  apply andb_true_iff in H as [Hc Ht]. rewrite (IH Ht). f_equal.
  unfold line_feed. apply negb_true_iff in Hc. now rewrite Hc.
Qed.

Lemma word_char_line_feed (c : N) : is_word_char c = true -> line_feed c = c.
Proof.
  unfold is_word_char, is_alpha, line_feed. intros H.
  destruct (N.eqb_spec c 13) as [->|_]; [discriminate | reflexivity].
Qed.

Lemma span_word_chars_as_written (s : str) :
  as_written (fst (span is_word_char s)) = fst (span is_word_char s).
Proof.
  induction s as [|c s IH]; [reflexivity|]. simpl.
  destruct (is_word_char c) eqn:Hc; [|reflexivity].
  destruct (span is_word_char s) as [m r]. simpl in *.
  now rewrite IH, (word_char_line_feed c Hc).
Qed.

(** A word-like token has no carriage return. *)
Lemma en_like_word_as_written (chunk : str) :
  EN_LIKE_WORD_RE_fullmatch chunk = true -> as_written chunk = chunk.
Proof.
  unfold EN_LIKE_WORD_RE_fullmatch, match_en_like_word, match_plus.
  destruct chunk as [|c s]; [discriminate|].
  destruct (is_alpha c) eqn:Ha; [|discriminate].
  pose proof (span_word_chars_as_written s) as Hw.
  pose proof (span_app is_word_char s) as Happ.
  destruct (span is_word_char s) as [m r]. simpl in Hw, Happ.
  destruct m as [|x m]; [discriminate|].
  destruct r as [|y r]; [|discriminate]. intros _.
  rewrite app_nil_r in Happ. subst s.
  change (as_written (c :: x :: m)) with (line_feed c :: as_written (x :: m)).
  rewrite Hw. f_equal.
  apply word_char_line_feed. unfold is_word_char. now rewrite Ha.
Qed.

Lemma as_written_take (n : nat) (t : str) :
  as_written (take n t) = take n (as_written t).
Proof. unfold as_written. symmetry. apply firstn_map. Qed.

Lemma as_written_drop (n : nat) (t : str) :
  as_written (drop n t) = drop n (as_written t).
Proof. unfold as_written. symmetry. apply skipn_map. Qed.

(** What [copy_color] makes of a colour on a run that has none: the
    colour value and the theme colour read as on the source, but for a
    source with a theme colour and no colour value, whose copy reads
    black. *)
Lemma copy_color_fresh (c : ColorFormat) :
  theme_color (copy_color c no_color) = theme_color c
  /\ rgb (copy_color c no_color)
     = match rgb c, theme_color c with
       | None, Some _ => Some 0%N
       | v, _ => v
       end.
Proof. destruct c as [|[v|] [t|]]; split; reflexivity. Qed.

Lemma cloned_font_idem (f : Font) : cloned_font (cloned_font f) = cloned_font f.
Proof.
  unfold cloned_font. simpl. f_equal.
  destruct (color f) as [|[v|] [t|]]; reflexivity.
Qed.

(** A font whose colour has a value, or no theme colour and no "auto", is
    cloned as it is. *)
Lemma cloned_font_id (f : Font) :
  match color f with
  | NoColor => True
  | Color (Some _) _ => True
  | Color None _ => False
  end ->
  cloned_font f = f.
Proof.
  destruct f as [b i u sz ac sc c]. unfold cloned_font. simpl.
  destruct c as [|[v|] [t|]]; intros H; try destruct H; reflexivity.
Qed.

Lemma styled_run_text (src : Run) (t : str) :
  run_text (styled_run src t) = as_written t.
Proof. unfold styled_run, clone_run_style, copy_rFonts.
  destruct (run_rFonts src); reflexivity. Qed.

Lemma styled_run_style (src : Run) (t : str) :
  run_style (styled_run src t) = run_style src.
Proof. unfold styled_run, clone_run_style, copy_rFonts.
  destruct (run_rFonts src); reflexivity. Qed.

Lemma styled_run_font (src : Run) (t : str) :
  run_font (styled_run src t) = cloned_font (run_font src).
Proof.
  unfold styled_run, clone_run_style, copy_rFonts.
  destruct (run_rFonts src); reflexivity.
Qed.

Lemma styled_run_rFonts (src : Run) (t : str) :
  run_rFonts (styled_run src t) = run_rFonts src.
Proof. unfold styled_run, clone_run_style, copy_rFonts.
  destruct (run_rFonts src) eqn:E; simpl; congruence. Qed.

Lemma styled_run_parent (src : Run) (t : str) :
  run_parent (styled_run src t) = run_parent src.
Proof. unfold styled_run, clone_run_style, copy_rFonts.
  destruct (run_rFonts src); reflexivity. Qed.

Lemma set_ascii_hAnsi_text (name : str) (r : Run) :
  run_text (set_ascii_hAnsi name r) = run_text r.
Proof. reflexivity. Qed.

Lemma set_ascii_hAnsi_parent (name : str) (r : Run) :
  run_parent (set_ascii_hAnsi name r) = run_parent r.
Proof. reflexivity. Qed.

Lemma emitted_run_text (src : Run) (chunk : str) (b : bool) :
  run_text (emitted_run src chunk b) = as_written chunk.
Proof. destruct b; simpl; rewrite ?set_ascii_hAnsi_text; apply styled_run_text. Qed.

Lemma emitted_run_parent (src : Run) (chunk : str) (b : bool) :
  run_parent (emitted_run src chunk b) = run_parent src.
Proof. destruct b; simpl; rewrite ?set_ascii_hAnsi_parent;
  apply styled_run_parent. Qed.

(** What [set_ascii_hAnsi] does to each attribute of [w:rFonts]. *)
Lemma set_ascii_hAnsi_attr (name : str) (r : Run) (attr : string) :
  rFonts_attr (set_ascii_hAnsi name r) attr
  = if bool_decide (attr = "w:asciiTheme" \/ attr = "w:hAnsiTheme")%string
    then None
    else if bool_decide (attr = "w:ascii" \/ attr = "w:hAnsi")%string
         then Some name
         else rFonts_attr r attr.
Proof.
  unfold rFonts_attr, set_ascii_hAnsi. simpl.
  repeat case_bool_decide.
  - destruct H as [->| ->]; [now rewrite lookup_delete_ne, lookup_delete_eq
                            | now rewrite lookup_delete_eq].
  - rewrite !lookup_delete_ne by (intros <-; hide_tables; tauto).
    destruct H0 as [->| ->];
      [now rewrite lookup_insert_ne, lookup_insert_eq
      | now rewrite lookup_insert_eq].
  - rewrite !lookup_delete_ne, !lookup_insert_ne by (intros <-; hide_tables; tauto).
    destruct (run_rFonts r); [reflexivity | apply lookup_empty].
Qed.

Lemma alter_middle {A : Type} (f : A -> A) (l1 : list A) (x : A) (l2 : list A) :
  alter f (length l1) (l1 ++ x :: l2) = l1 ++ f x :: l2.
Proof.
  rewrite alter_app_r_alt by lia. now rewrite Nat.sub_diag.
Qed.

Lemma insert_run_after_middle (l1 : Paragraph) (a : Run) (l2 : Paragraph) :
  _insert_run_after (l1 ++ a :: l2) (length l1)
  = (l1 ++ a :: empty_run (run_parent a) :: l2, S (length l1)).
Proof.
  unfold _insert_run_after. rewrite list_lookup_middle by reflexivity.
  simpl from_option. f_equal.
  change (l1 ++ a :: l2) with (l1 ++ [a] ++ l2).
  rewrite (app_assoc l1 [a] l2).
  rewrite take_app_length', drop_app_length'
    by (rewrite length_app; simpl; lia).
  now rewrite <- app_assoc.
Qed.

Lemma alter_after_middle {A : Type} (f : A -> A) (l1 : list A) (a x : A)
    (l2 : list A) :
  alter f (S (length l1)) (l1 ++ a :: x :: l2) = l1 ++ a :: f x :: l2.
Proof.
  change (l1 ++ a :: x :: l2) with (l1 ++ [a] ++ x :: l2).
  rewrite (app_assoc l1 [a]).
  replace (S (length l1)) with (length (l1 ++ [a]))
    by (rewrite length_app; simpl; lia).
  rewrite alter_middle. now rewrite <- app_assoc.
Qed.

Lemma lookup_before_middle {A : Type} (l1 : list A) (a x : A) (l2 : list A)
    (i : nat) :
  (i <= length l1)%nat ->
  (l1 ++ a :: x :: l2) !! i = (l1 ++ a :: l2) !! i.
Proof.
  intros Hi.
  change (l1 ++ a :: x :: l2) with (l1 ++ [a] ++ x :: l2).
  change (l1 ++ a :: l2) with (l1 ++ [a] ++ l2).
  rewrite !(app_assoc l1 [a]).
  rewrite (lookup_app_l (l1 ++ [a]) ([x] ++ l2)),
          (lookup_app_l (l1 ++ [a]) l2)
    by (rewrite length_app; simpl; lia).
  reflexivity.
Qed.

(** The new run made after the anchor [a] is given a text and the style of
    the run at [run], which sits at or before the anchor. *)
Lemma style_new_run (l1 : Paragraph) (a : Run) (l2 : Paragraph)
    (run : nat) (src : Run) (t : str) :
  (l1 ++ a :: l2) !! run = Some src ->
  (run <= length l1)%nat ->
  run_parent a = run_parent src ->
  clone_style_at
    (alter (set_text t) (S (length l1))
       (l1 ++ a :: empty_run (run_parent a) :: l2))
    run (S (length l1))
  = l1 ++ a :: styled_run src t :: l2.
Proof.
  intros Hsrc Hle Hpar. rewrite alter_after_middle.
  unfold clone_style_at.
  rewrite lookup_before_middle, Hsrc by exact Hle.
  rewrite alter_after_middle. unfold styled_run. now rewrite Hpar.
Qed.

Lemma process_chunk_spec (zipf : oracle) (threshold : spec_float)
    (l1 : Paragraph) (a : Run) (l2 : Paragraph) (run : nat) (src : Run)
    (font : option str) (n : nat) (chunk : str) :
  (l1 ++ a :: l2) !! run = Some src ->
  (run <= length l1)%nat ->
  run_parent a = run_parent src ->
  process_chunk zipf threshold run font (l1 ++ a :: l2, length l1, n) chunk
  = (b ← make_tnr_of zipf threshold font chunk;
     Ok (l1 ++ a :: emitted_run src chunk b :: l2, S (length l1),
         ((if b : bool then 1 else 0) + n)%nat)).
Proof.
  intros Hsrc Hle Hpar. unfold process_chunk, make_tnr_of.
  destruct (if EN_LIKE_WORD_RE_fullmatch chunk
            then should_use_tnr zipf chunk threshold font
            else Ok false) as [b|e]; [|reflexivity].
  rewrite !bind_Ok. rewrite insert_run_after_middle.
  rewrite (style_new_run l1 a l2 run src chunk Hsrc Hle Hpar).
  destruct b; [|reflexivity].
  now rewrite alter_after_middle.
Qed.

Lemma foldM_process_chunk (zipf : oracle) (threshold : spec_float)
    (run : nat) (src : Run) (font : option str) (chunks : list str) :
  forall (l1 : Paragraph) (a : Run) (l2 : Paragraph) (n : nat),
  (l1 ++ a :: l2) !! run = Some src ->
  (run <= length l1)%nat ->
  run_parent a = run_parent src ->
  foldM (process_chunk zipf threshold run font) chunks
        (l1 ++ a :: l2, length l1, n)
  = ('(rs, k) ← emitted_runs zipf threshold src font chunks;
     Ok (l1 ++ a :: rs ++ l2, (length l1 + length chunks)%nat, (k + n)%nat)).
Proof.
  induction chunks as [|chunk chunks IH]; intros l1 a l2 n Hsrc Hle Hpar.
  - simpl. now rewrite Nat.add_0_r.
  - change (foldM ?f (chunk :: chunks) ?s) with (s' ← f s chunk; foldM f chunks s').
    rewrite (process_chunk_spec _ _ _ _ _ _ src) by assumption.
    change (emitted_runs zipf threshold src font (chunk :: chunks))
      with (b ← make_tnr_of zipf threshold font chunk;
            '(rs, n) ← emitted_runs zipf threshold src font chunks;
            Ok (emitted_run src chunk b :: rs,
                ((if b : bool then 1 else 0) + n)%nat)).
    destruct (make_tnr_of zipf threshold font chunk) as [b|e]; [|reflexivity].
    rewrite !bind_Ok.
    assert (Hlen : S (length l1) = length (l1 ++ [a]))
      by (rewrite length_app; simpl; lia).
    assert (Hre : forall l, l1 ++ a :: l = (l1 ++ [a]) ++ l)
      by (intros; now rewrite <- app_assoc).
    rewrite Hre, Hlen, IH.
    + destruct (emitted_runs zipf threshold src font chunks) as [[rs k]|e];
        [|reflexivity].
      rewrite !bind_Ok. rewrite <- Hre, <- Hlen. simpl length.
      do 2 f_equal; [f_equal|]; lia.
    + rewrite <- Hre, lookup_before_middle by exact Hle. exact Hsrc.
    + rewrite <- Hlen. lia.
    + apply emitted_run_parent.
Qed.

(** What [process_run] does to a run that is not structural and whose
    sanitized text yields chunks: the run is emptied and followed by the
    runs emitted for the chunks, in order; the rest of the paragraph
    stays. *)
Lemma process_run_middle (zipf : oracle) (l1 : Paragraph) (r : Run)
    (l2 : Paragraph) (threshold : spec_float) :
  structural r = false ->
  split_into_chunks (sanitize_text (run_text r)) <> [] ->
  process_run zipf (l1 ++ r :: l2) (length l1) threshold
  = ('(rs, k) ← emitted_runs zipf threshold r (Some (default [] (font_name r)))
                 (split_into_chunks (sanitize_text (run_text r)));
     Ok (l1 ++ set_text [] r :: rs ++ l2, (1%nat, k))).
Proof.
  intros Hstruct Hchunks. unfold process_run.
  rewrite list_lookup_middle by reflexivity.
  apply orb_false_elim in Hstruct as [Hh Hf].
  destruct (nonempty (sanitize_text (run_text r))) eqn:Hne.
  2:{ exfalso. apply Hchunks. unfold split_into_chunks. now rewrite Hne. }
  simpl negb. cbv iota. rewrite Hh, Hf.
  destruct (split_into_chunks (sanitize_text (run_text r)))
    as [|chunk chunks] eqn:Hc; [congruence|].
  rewrite (foldM_process_chunk _ _ _ r);
    [| now rewrite list_lookup_middle | lia | reflexivity].
  destruct (emitted_runs zipf threshold r _ (chunk :: chunks))
    as [[rs k]|e]; [|reflexivity].
  rewrite !bind_Ok. rewrite alter_middle. now rewrite Nat.add_0_r.
Qed.

Lemma process_run_spec (zipf : oracle) (paragraph : Paragraph) (run : nat)
    (r : Run) (threshold : spec_float) :
  paragraph !! run = Some r ->
  structural r = false ->
  split_into_chunks (sanitize_text (run_text r)) <> [] ->
  process_run zipf paragraph run threshold
  = ('(rs, k) ← emitted_runs zipf threshold r (Some (default [] (font_name r)))
                 (split_into_chunks (sanitize_text (run_text r)));
     Ok (take run paragraph ++ set_text [] r :: rs ++ drop (S run) paragraph,
         (1%nat, k))).
Proof.
  intros Hrun Hstruct Hchunks.
  pose proof (take_drop_middle paragraph run r Hrun) as Hmid.
  assert (Hlen : length (take run paragraph) = run).
  { apply length_take_le. apply lookup_lt_Some in Hrun. lia. }
  rewrite <- (process_run_middle zipf _ r _ threshold Hstruct Hchunks).
  now rewrite Hmid, Hlen.
Qed.

Lemma emitted_runs_cons (zipf : oracle) (threshold : spec_float) (src : Run)
    (font : option str) (chunk : str) (chunks : list str) :
  emitted_runs zipf threshold src font (chunk :: chunks)
  = (b ← make_tnr_of zipf threshold font chunk;
     '(rs, n) ← emitted_runs zipf threshold src font chunks;
     Ok (emitted_run src chunk b :: rs, ((if b : bool then 1 else 0) + n)%nat)).
Proof. reflexivity. Qed.

(** The run emitted for the chunk at position [k]. *)
Lemma emitted_runs_lookup (zipf : oracle) (threshold : spec_float) (src : Run)
    (font : option str) (chunks : list str) :
  forall (rs : list Run) (n k : nat) (chunk : str),
  emitted_runs zipf threshold src font chunks = Ok (rs, n) ->
  chunks !! k = Some chunk ->
  exists b, make_tnr_of zipf threshold font chunk = Ok b
            /\ rs !! k = Some (emitted_run src chunk b).
Proof.
  induction chunks as [|c chunks IH]; intros rs n k chunk Hem Hk.
  - destruct k; discriminate.
  - rewrite emitted_runs_cons in Hem.
    destruct (make_tnr_of zipf threshold font c) as [b|e] eqn:Hb;
      [|discriminate].
    rewrite bind_Ok in Hem.
    destruct (emitted_runs zipf threshold src font chunks) as [[rs' n']|e]
      eqn:Hrs; [|discriminate].
    rewrite bind_Ok in Hem. injection Hem as <- <-.
    destruct k as [|k].
    + injection Hk as <-. exists b. split; [exact Hb | reflexivity].
    + apply (IH rs' n' k chunk eq_refl Hk).
Qed.

(** The emitted runs carry the chunks, in order, as [run.text] writes
    them. *)
Lemma emitted_runs_texts (zipf : oracle) (threshold : spec_float) (src : Run)
    (font : option str) (chunks : list str) :
  forall (rs : list Run) (n : nat),
  emitted_runs zipf threshold src font chunks = Ok (rs, n) ->
  List.map run_text rs = List.map as_written chunks.
Proof.
  induction chunks as [|c chunks IH]; intros rs n Hem.
  - injection Hem as <- <-. reflexivity.
  - rewrite emitted_runs_cons in Hem.
    destruct (make_tnr_of zipf threshold font c) as [b|e]; [|discriminate].
    rewrite bind_Ok in Hem.
    destruct (emitted_runs zipf threshold src font chunks) as [[rs' n']|e]
      eqn:Hrs; [|discriminate].
    rewrite bind_Ok in Hem. injection Hem as <- <-.
    simpl. rewrite emitted_run_text. f_equal. apply (IH rs' n' eq_refl).
Qed.

(* ===================================================================== *)
(** ** Font slots *)
(* ===================================================================== *)

(** The font slots of a relabeled run against those of its source. *)
Lemma relabeled_run_slots (src : Run) (chunk : str) :
  let e := emitted_run src chunk true in
  rFonts_attr e "w:ascii" = Some Times_New_Roman
  /\ rFonts_attr e "w:hAnsi" = Some Times_New_Roman
  /\ rFonts_attr e "w:asciiTheme" = None
  /\ rFonts_attr e "w:hAnsiTheme" = None
  /\ rFonts_attr e "w:eastAsia" = rFonts_attr src "w:eastAsia"
  /\ rFonts_attr e "w:cs" = rFonts_attr src "w:cs"
  /\ rFonts_attr e "w:hint" = rFonts_attr src "w:hint"
  /\ (forall attr, latin_slot attr = false ->
        rFonts_attr e attr = rFonts_attr src attr).
Proof.
  assert (Hsrc : forall attr,
            rFonts_attr (styled_run src chunk) attr = rFonts_attr src attr)
    by (intros; unfold rFonts_attr; now rewrite styled_run_rFonts).
  cbv zeta. unfold emitted_run.
  repeat split; try (rewrite set_ascii_hAnsi_attr, ?Hsrc; reflexivity).
  intros attr Hattr. rewrite set_ascii_hAnsi_attr, Hsrc.
  unfold latin_slot in Hattr. apply bool_decide_eq_false in Hattr.
  repeat case_bool_decide; hide_tables; tauto.
Qed.

(** C3.  Font-slot frame condition: the run emitted by [process_run] for a
    chunk that is relabeled has "Times New Roman" in its ascii and
    high-ANSI slots and no theme reference on them; its east-Asian and
    complex-script slots, its hint and every other attribute of the font
    mapping are those of the source run, and so is its style; its other
    font attributes are those of the source run as [clone_run_style]
    copies them. *)
Theorem font_slot_frame (zipf : oracle) (paragraph paragraph' : Paragraph)
    (run : nat) (r : Run) (threshold : spec_float) (counts : nat * nat)
    (k : nat) (chunk : str) :
  paragraph !! run = Some r ->
  structural r = false ->
  process_run zipf paragraph run threshold = Ok (paragraph', counts) ->
  split_into_chunks (sanitize_text (run_text r)) !! k = Some chunk ->
  make_tnr_of zipf threshold (Some (default [] (font_name r))) chunk = Ok true ->
  exists e : Run,
    paragraph' !! (S run + k)%nat = Some e
    /\ run_text e = chunk
    /\ rFonts_attr e "w:ascii" = Some Times_New_Roman
    /\ rFonts_attr e "w:hAnsi" = Some Times_New_Roman
    /\ rFonts_attr e "w:asciiTheme" = None
    /\ rFonts_attr e "w:hAnsiTheme" = None
    /\ rFonts_attr e "w:eastAsia" = rFonts_attr r "w:eastAsia"
    /\ rFonts_attr e "w:cs" = rFonts_attr r "w:cs"
    /\ rFonts_attr e "w:hint" = rFonts_attr r "w:hint"
    /\ (forall attr, latin_slot attr = false ->
          rFonts_attr e attr = rFonts_attr r attr)
    /\ run_style e = run_style r
    /\ run_font e = cloned_font (run_font r).
Proof.
  intros Hrun Hstruct Hproc Hk Htnr.
  assert (Hword : as_written chunk = chunk).
  { unfold make_tnr_of in Htnr.
    destruct (EN_LIKE_WORD_RE_fullmatch chunk) eqn:Hf; [|discriminate].
    now apply en_like_word_as_written. }
  assert (Hchunks : split_into_chunks (sanitize_text (run_text r)) <> [])
    by (intros E; rewrite E in Hk; destruct k; discriminate).
  rewrite (process_run_spec zipf paragraph run r threshold Hrun Hstruct Hchunks)
    in Hproc.
  destruct (emitted_runs zipf threshold r _ _) as [[rs n]|err] eqn:Hem;
    [|discriminate].
  rewrite bind_Ok in Hproc. injection Hproc as <- <-.
  destruct (emitted_runs_lookup _ _ _ _ _ _ _ _ _ Hem Hk) as (b & Hb & Hrs).
  rewrite Htnr in Hb. injection Hb as <-.
  exists (emitted_run r chunk true).
  split.
  { assert (Hlen : length (take run paragraph) = run).
    { apply length_take_le. apply lookup_lt_Some in Hrun. lia. }
    rewrite lookup_app_r by lia. rewrite Hlen.
    replace (S run + k - run)%nat with (S k) by lia.
    change ((rs ++ drop (S run) paragraph) !! k
            = Some (emitted_run r chunk true)).
    now apply lookup_app_l_Some. }
  split; [now rewrite emitted_run_text|].
  pose proof (relabeled_run_slots r chunk) as Hslots. cbv zeta in Hslots.
  destruct Hslots as (H1 & H2 & H3 & H4 & H5 & H6 & H7 & H8).
  repeat (split; [assumption|]).
  split; [apply styled_run_style | apply styled_run_font].
Qed.

(* ===================================================================== *)
(** ** Sentence mode: the three-part split *)
(* ===================================================================== *)

Lemma emit_after_middle (l1 : Paragraph) (a : Run) (l2 : Paragraph)
    (run : nat) (src : Run) (t : str) :
  (l1 ++ a :: l2) !! run = Some src ->
  (run <= length l1)%nat ->
  run_parent a = run_parent src ->
  emit_after (l1 ++ a :: l2) (length l1) run t
  = (l1 ++ a :: styled_run src t :: l2, S (length l1)).
Proof.
  intros Hsrc Hle Hpar. unfold emit_after.
  rewrite insert_run_after_middle.
  now rewrite (style_new_run l1 a l2 run src t Hsrc Hle Hpar).
Qed.

(** [split_run_apply_tnr] written with [emit_after]. *)
Lemma split_run_apply_tnr_unfold (paragraph : Paragraph) (run : nat)
    (local_start local_end : Z) :
  split_run_apply_tnr paragraph run local_start local_end
  = match paragraph !! run with
    | None => paragraph
    | Some r =>
        if structural r then paragraph
        else
          let text := run_text r in
          let len := Z.of_nat (length text) in
          let local_start := Z.max 0 local_start in
          let local_end := Z.min local_end len in
          if (local_start >=? local_end)%Z then paragraph
          else
            let before := slice text 0 local_start in
            let target := slice text local_start local_end in
            let after := slice text local_end len in
            let '(p1, anchor) :=
              if nonempty before then emit_after paragraph run run before
              else (paragraph, run) in
            let '(p2, r_target) := emit_after p1 anchor run target in
            let p3 := alter (set_ascii_hAnsi Times_New_Roman) r_target p2 in
            let p4 :=
              if nonempty after then fst (emit_after p3 r_target run after)
              else p3 in
            alter (set_text []) run p4
    end.
Proof.
  unfold split_run_apply_tnr, structural.
  destruct (paragraph !! run) as [r|]; [|reflexivity].
  destruct (_is_run_in_hyperlink r || _is_run_field_code r); [reflexivity|].
  assert (Hs : (if (local_start <? 0)%Z then 0%Z else local_start)
               = Z.max 0 local_start)
    by (destruct (Z.ltb_spec local_start 0); lia).
  assert (He : (if (local_end >? Z.of_nat (length (run_text r)))%Z
                then Z.of_nat (length (run_text r)) else local_end)
               = Z.min local_end (Z.of_nat (length (run_text r))))
    by (rewrite Z.gtb_ltb;
        destruct (Z.ltb_spec (Z.of_nat (length (run_text r))) local_end); lia).
  cbv zeta. rewrite Hs, He.
  destruct (_ >=? _)%Z; [reflexivity|].
  destruct (nonempty (slice (run_text r) 0 (Z.max 0 local_start)));
    destruct (nonempty (slice (run_text r) _ (Z.of_nat (length (run_text r)))));
    reflexivity.
Qed.

(** The pieces of a text cut at [a <= b]. *)
Lemma slice_partition (text : str) (a b : Z) :
  (0 <= a <= b)%Z -> (b <= Z.of_nat (length text))%Z ->
  slice text 0 a ++ slice text a b ++ slice text b (Z.of_nat (length text))
  = text.
Proof.
  intros Hab Hb. unfold slice. rewrite Nat2Z.id. simpl drop.
  rewrite firstn_all.
  rewrite <- (take_drop (Z.to_nat b) text) at 4.
  rewrite app_assoc. f_equal.
  rewrite <- (take_drop (Z.to_nat a) (take (Z.to_nat b) text)) at 2.
  f_equal. rewrite take_take. change (Z.to_nat 0) with 0%nat.
  rewrite drop_0. f_equal. lia.
Qed.

Lemma slice_nonempty (text : str) (a b : Z) :
  (0 <= a < b)%Z -> (b <= Z.of_nat (length text))%Z ->
  slice text a b <> [].
Proof.
  intros Hab Hb E. apply (f_equal (@length N)) in E. unfold slice in E.
  rewrite length_drop, length_take in E. simpl in E. lia.
Qed.

Lemma split_run_apply_tnr_middle (l1 : Paragraph) (r : Run) (l2 : Paragraph)
    (local_start local_end : Z) :
  structural r = false ->
  (Z.max 0 local_start < Z.min local_end (Z.of_nat (length (run_text r))))%Z ->
  split_run_apply_tnr (l1 ++ r :: l2) (length l1) local_start local_end
  = l1 ++ set_text [] r
       :: split_parts r (Z.max 0 local_start)
            (Z.min local_end (Z.of_nat (length (run_text r))))
       ++ l2.
Proof.
  intros Hstruct Hlt. rewrite split_run_apply_tnr_unfold.
  rewrite list_lookup_middle by reflexivity. rewrite Hstruct. cbv zeta.
  destruct (Z.geb_spec (Z.max 0 local_start)
              (Z.min local_end (Z.of_nat (length (run_text r))))); [lia|].
  unfold split_parts.
  set (before := slice (run_text r) 0 _).
  set (target := slice (run_text r) (Z.max 0 local_start) _).
  set (after := slice (run_text r) _ (Z.of_nat (length (run_text r)))).
  assert (Hmid : forall l, (l1 ++ r :: l) !! length l1 = Some r)
    by (intros; now apply list_lookup_middle).
  assert (Hre : forall x l, l1 ++ r :: x :: l = (l1 ++ [r]) ++ x :: l)
    by (intros; now rewrite <- app_assoc).
  assert (Hlen : S (length l1) = length (l1 ++ [r]))
    by (rewrite length_app; simpl; lia).
  assert (Hmid' : forall x l, ((l1 ++ [r]) ++ x :: l) !! length l1 = Some r)
    by (intros; rewrite <- Hre; apply Hmid).
  destruct (nonempty before).
  - rewrite (emit_after_middle l1 r l2 _ r before) by (auto; lia).
    rewrite Hre, Hlen.
    rewrite (emit_after_middle _ _ l2 _ r target);
      [| apply Hmid' | rewrite <- Hlen; lia | apply styled_run_parent].
    rewrite alter_after_middle.
    destruct (nonempty after).
    + rewrite <- Hlen, <- Hre.
      assert (Hre2 : forall x y l,
                l1 ++ r :: x :: y :: l = (l1 ++ [r; x]) ++ y :: l)
        by (intros; now rewrite <- app_assoc).
      assert (Hlen2 : forall x : Run, S (S (length l1)) = length (l1 ++ [r; x]))
        by (intros; rewrite length_app; simpl; lia).
      rewrite Hre2, (Hlen2 (styled_run r before)).
      rewrite (emit_after_middle _ _ l2 _ r after);
        [| rewrite <- Hre2; apply Hmid | rewrite <- Hlen2; lia
         | rewrite set_ascii_hAnsi_parent; apply styled_run_parent].
      simpl fst. rewrite <- !app_assoc. simpl app. now rewrite alter_middle.
    + rewrite <- !app_assoc. simpl app. now rewrite alter_middle.
  - rewrite (emit_after_middle l1 r l2 _ r target) by (auto; lia).
    rewrite alter_after_middle.
    destruct (nonempty after).
    + rewrite Hre, Hlen.
      rewrite (emit_after_middle _ _ l2 _ r after);
        [| apply Hmid' | rewrite <- Hlen; lia
         | rewrite set_ascii_hAnsi_parent; apply styled_run_parent].
      simpl fst. rewrite <- !app_assoc. simpl app. now rewrite alter_middle.
    + simpl app. now rewrite alter_middle.
Qed.

Lemma split_run_apply_tnr_spec (paragraph : Paragraph) (run : nat) (r : Run)
    (local_start local_end : Z) :
  paragraph !! run = Some r ->
  structural r = false ->
  (Z.max 0 local_start < Z.min local_end (Z.of_nat (length (run_text r))))%Z ->
  split_run_apply_tnr paragraph run local_start local_end
  = take run paragraph
    ++ set_text [] r
       :: split_parts r (Z.max 0 local_start)
            (Z.min local_end (Z.of_nat (length (run_text r))))
       ++ drop (S run) paragraph.
Proof.
  intros Hrun Hstruct Hlt.
  pose proof (take_drop_middle paragraph run r Hrun) as Hmid.
  assert (Hlen : length (take run paragraph) = run).
  { apply length_take_le. apply lookup_lt_Some in Hrun. lia. }
  rewrite <- (split_run_apply_tnr_middle (take run paragraph) r
                (drop (S run) paragraph)) by assumption.
  now rewrite Hlen, Hmid.
Qed.

(** The three-part split of the sentence mode: for a run outside a
    hyperlink and a range that is not empty once clamped to the text of
    the run, [split_run_apply_tnr] empties the run and puts after it, in
    order, a run for the text before the range (only if there is some), a
    run for the text of the range whose ascii and high-ANSI slots hold
    "Times New Roman", and a run for the text after the range (only if
    there is some).  Each new run holds its piece as [run.text] writes it,
    with the style of the run and its font attributes as
    [clone_run_style] copies them; the runs before and after have the font
    mapping of the run.  The three pieces make up the text of the run. *)
Lemma split_run_apply_tnr_three_parts (paragraph : Paragraph) (run : nat)
    (r : Run) (local_start local_end : Z) :
  paragraph !! run = Some r ->
  structural r = false ->
  let text := run_text r in
  let len := Z.of_nat (length text) in
  let lo := Z.max 0 local_start in
  let hi := Z.min local_end len in
  (lo < hi)%Z ->
  let before := slice text 0 lo in
  let target := slice text lo hi in
  let after := slice text hi len in
  let r_target := set_ascii_hAnsi Times_New_Roman (styled_run r target) in
  split_run_apply_tnr paragraph run local_start local_end
  = take run paragraph
    ++ set_text [] r
       :: (if nonempty before then [styled_run r before] else [])
       ++ [r_target]
       ++ (if nonempty after then [styled_run r after] else [])
       ++ drop (S run) paragraph
  /\ before ++ target ++ after = text
  /\ target <> []
  /\ run_text (set_text [] r) = []
  /\ run_text r_target = as_written target
  /\ rFonts_attr r_target "w:ascii" = Some Times_New_Roman
  /\ rFonts_attr r_target "w:hAnsi" = Some Times_New_Roman
  /\ run_style r_target = run_style r
  /\ run_font r_target = cloned_font (run_font r)
  /\ (forall t, run_text (styled_run r t) = as_written t
                /\ run_style (styled_run r t) = run_style r
                /\ run_font (styled_run r t) = cloned_font (run_font r)
                /\ run_rFonts (styled_run r t) = run_rFonts r).
Proof.
  intros Hrun Hstruct text len lo hi Hlt before target after r_target.
  split; [|split; [|split; [|split; [|split; [|split; [|split; [|split;
    [|split]]]]]]]].
  - rewrite (split_run_apply_tnr_spec paragraph run r) by assumption.
    unfold split_parts. fold text len lo hi before target after r_target.
    now rewrite <- !app_assoc.
  - apply slice_partition; unfold lo, hi, len in *; lia.
  - apply slice_nonempty; unfold lo, hi, len in *; lia.
  - reflexivity.
  - unfold r_target. rewrite set_ascii_hAnsi_text. apply styled_run_text.
  - unfold r_target. now rewrite set_ascii_hAnsi_attr.
  - unfold r_target. now rewrite set_ascii_hAnsi_attr.
  - apply styled_run_style.
  - apply styled_run_font.
  - intros t. split; [apply styled_run_text|].
    split; [apply styled_run_style|].
    split; [apply styled_run_font | apply styled_run_rFonts].
Qed.

(* ===================================================================== *)
(** ** Sentence mode: the flattened text *)
(* ===================================================================== *)

Lemma text_map_from_fst (runs : Paragraph) (index cursor : nat) :
  fst (text_map_from runs index cursor) = flat_text runs.
Proof.
  revert index cursor. induction runs as [|r runs IH]; intros index cursor.
  - reflexivity.
  - simpl. specialize (IH (S index) (cursor + length (run_text r))%nat).
    destruct (text_map_from runs _ _) as [full mapping]. simpl in *.
    unfold flat_text. simpl. now rewrite IH.
Qed.

Lemma build_paragraph_text_map_fst (paragraph : Paragraph) :
  fst (build_paragraph_text_map paragraph) = flat_text paragraph.
Proof. apply text_map_from_fst. Qed.

Lemma flat_text_app (p q : Paragraph) :
  flat_text (p ++ q) = flat_text p ++ flat_text q.
Proof. unfold flat_text. now rewrite map_app, concat_app. Qed.

Lemma flat_text_split_parts (r : Run) (lo hi : Z) :
  (0 <= lo <= hi)%Z -> (hi <= Z.of_nat (length (run_text r)))%Z ->
  flat_text (split_parts r lo hi) = as_written (run_text r).
Proof.
  intros Hlo Hhi. unfold split_parts.
  rewrite !flat_text_app.
  assert (Hopt : forall t, flat_text (if nonempty t then [styled_run r t] else [])
                           = as_written t).
  { intros [|c t]; [reflexivity|]. unfold flat_text.
    cbv beta iota delta [nonempty]. simpl List.map. simpl concat.
    now rewrite styled_run_text, app_nil_r. }
  rewrite !Hopt. unfold flat_text at 1. simpl List.map. simpl concat.
  rewrite ?set_ascii_hAnsi_text, styled_run_text, app_nil_r.
  rewrite <- !as_written_app. now rewrite slice_partition.
Qed.

(** Splitting a run keeps the text of the paragraph but for the carriage
    returns of the run, which are written as line feeds, whatever the run
    and the range. *)
Lemma split_run_apply_tnr_flat_text (paragraph : Paragraph) (run : nat)
    (local_start local_end : Z) :
  as_written
    (flat_text (split_run_apply_tnr paragraph run local_start local_end))
  = as_written (flat_text paragraph).
Proof.
  destruct (paragraph !! run) as [r|] eqn:Hrun.
  2:{ unfold split_run_apply_tnr. now rewrite Hrun. }
  destruct (structural r) eqn:Hstruct.
  { rewrite split_run_apply_tnr_unfold, Hrun, Hstruct. reflexivity. }
  destruct (Z.ltb_spec (Z.max 0 local_start)
              (Z.min local_end (Z.of_nat (length (run_text r))))) as [Hlt|Hge].
  2:{ rewrite split_run_apply_tnr_unfold, Hrun, Hstruct. cbv zeta.
      destruct (Z.geb_spec (Z.max 0 local_start)
                  (Z.min local_end (Z.of_nat (length (run_text r)))));
        [reflexivity | lia]. }
  rewrite (split_run_apply_tnr_spec paragraph run r) by assumption.
  rewrite <- (take_drop_middle paragraph run r Hrun) at 3.
  rewrite !flat_text_app.
  change (flat_text (set_text [] r :: ?l))
    with (flat_text ([set_text [] r] ++ l)).
  change (flat_text (r :: ?l)) with (flat_text ([r] ++ l)).
  rewrite !flat_text_app, flat_text_split_parts by lia.
  assert (H1 : flat_text [set_text [] r] = []) by reflexivity.
  assert (H2 : flat_text [r] = run_text r)
    by (unfold flat_text; simpl; apply app_nil_r).
  rewrite H1, H2. simpl app.
  now rewrite !as_written_app, as_written_idem.
Qed.

Lemma split_overlapping_flat_text (mapping : list (nat * nat * nat))
    (g_start g_end : nat) :
  forall (paragraph : Paragraph) (shift : nat),
  as_written
    (flat_text (split_overlapping paragraph mapping g_start g_end shift))
  = as_written (flat_text paragraph).
Proof.
  induction mapping as [|[[run r_start] r_end] mapping IH];
    intros paragraph shift; [reflexivity|].
  simpl. destruct (_ <? _)%nat; [|apply IH].
  rewrite IH. apply split_run_apply_tnr_flat_text.
Qed.

(** Texts that agree once written have one length. *)
Lemma as_written_eq_length (s t : str) :
  as_written s = as_written t -> length s = length t.
Proof.
  intros H. apply (f_equal (@length N)) in H.
  now rewrite !as_written_length in H.
Qed.

(* ===================================================================== *)
(** ** Sentence mode: the literal search *)
(* ===================================================================== *)

Lemma is_prefix_take (p s : str) :
  is_prefix p s = true -> take (length p) s = p.
Proof.
  revert s. induction p as [|a p IH]; intros [|b s] H; simpl in *;
    try reflexivity; try discriminate.
  apply andb_true_iff in H as [Hab Hps].
  apply N.eqb_eq in Hab. subst b. f_equal. now apply IH.
Qed.

Lemma is_prefix_length (p s : str) :
  is_prefix p s = true -> (length p <= length s)%nat.
Proof.
  intros H. apply is_prefix_take in H.
  apply (f_equal (@length N)) in H. rewrite length_take in H. lia.
Qed.

(** A position found by [find_at] is at or after the start, and the
    literal is there. *)
Lemma find_at_spec (sub : str) :
  forall (s : str) (i j : nat),
  find_at sub s i = Some j ->
  (i <= j)%nat
  /\ is_prefix sub (drop (j - i) s) = true
  /\ (j - i + length sub <= length s)%nat.
Proof.
  induction s as [|c s IH]; intros i j H; simpl in H.
  - destruct (is_prefix sub []) eqn:E; [|discriminate].
    injection H as <-. rewrite Nat.sub_diag. simpl.
    split; [lia|]. split; [exact E|].
    apply is_prefix_length in E. simpl in *. lia.
  - destruct (is_prefix sub (c :: s)) eqn:E.
    + injection H as <-. rewrite Nat.sub_diag. simpl.
      split; [lia|]. split; [exact E|].
      apply is_prefix_length in E. simpl in *. lia.
    + apply IH in H as (Hij & Hp & Hlen).
      split; [lia|].
      replace (j - i)%nat with (S (j - S i)) by lia.
      simpl. split; [exact Hp | lia].
Qed.

(** A match found from [pos] starts at or after [pos], spans the length of
    the literal, lies within the text and reads as the literal. *)
Lemma search_literal_spec (sub s : str) (pos a b : nat) :
  (pos <= length s)%nat ->
  search_literal sub s pos = Some (a, b) ->
  (pos <= a)%nat
  /\ b = (a + length sub)%nat
  /\ (b <= length s)%nat
  /\ take (length sub) (drop a s) = sub.
Proof.
  intros Hpos H. unfold search_literal in H.
  destruct (find_at sub (drop pos s) pos) as [j|] eqn:Hf; [|discriminate].
  injection H as <- <-.
  apply find_at_spec in Hf as (Hij & Hp & Hlen).
  rewrite drop_drop in Hp. rewrite length_drop in Hlen.
  replace (pos + (j - pos))%nat with j in Hp by lia.
  split; [exact Hij|]. split; [reflexivity|]. split; [lia|].
  now apply is_prefix_take.
Qed.

(* ===================================================================== *)
(** ** Sentence mode: the rescan loop *)
(* ===================================================================== *)

Lemma last_end_snoc (spans : list (nat * nat)) :
  forall lo a b, last_end lo (spans ++ [(a, b)]) = b.
Proof.
  induction spans as [|[c d] spans IH]; intros lo a b; simpl;
    [reflexivity | apply IH].
Qed.

Lemma chained_snoc (spans : list (nat * nat)) :
  forall lo a b,
  chained lo spans -> (last_end lo spans <= a)%nat -> (a <= b)%nat ->
  chained lo (spans ++ [(a, b)]).
Proof.
  induction spans as [|[c d] spans IH]; intros lo a b Hc Hl Hab; simpl in *.
  - auto.
  - destruct Hc as (H1 & H2 & H3). auto.
Qed.

Lemma chained_lower (spans : list (nat * nat)) :
  forall lo j c d,
  chained lo spans -> spans !! j = Some (c, d) -> (lo <= c)%nat.
Proof.
  induction spans as [|[a b] spans IH]; intros lo j c d Hc Hj.
  - destruct j; discriminate.
  - destruct Hc as (H1 & H2 & H3). destruct j as [|j].
    + injection Hj as <- <-. exact H1.
    + specialize (IH b j c d H3 Hj). lia.
Qed.

(** Spans chained in this way do not overlap. *)
Lemma chained_disjoint (spans : list (nat * nat)) :
  forall lo i j a b c d,
  chained lo spans -> (i < j)%nat ->
  spans !! i = Some (a, b) -> spans !! j = Some (c, d) -> (b <= c)%nat.
Proof.
  induction spans as [|[x y] spans IH]; intros lo i j a b c d Hc Hij Hi Hj.
  - destruct i; discriminate.
  - destruct Hc as (H1 & H2 & H3).
    destruct j as [|j]; [lia|]. destruct i as [|i].
    + injection Hi as <- <-. apply (chained_lower spans y j c d H3 Hj).
    + apply (IH y i j a b c d H3); [lia | exact Hi | exact Hj].
Qed.

Lemma rescan_inv_start (sentence : str) (paragraph : Paragraph) :
  rescan_inv sentence (flat_text paragraph) (rescan_start paragraph).
Proof. unfold rescan_inv. simpl. repeat split; auto; lia. Qed.

(** A turn that converts a match moves the resume position on by at least
    the length of the sentence and keeps the text of the paragraph, carriage
    returns being read as line feeds, and so its length. *)
Lemma rescan_step_advances (sentence : str) (st st' : rescan_state) :
  rescan_step sentence st = Some st' ->
  (rs_search_from st + length sentence <= rs_search_from st')%nat
  /\ (rs_search_from st' <= length (flat_text (rs_paragraph st)))%nat
  /\ as_written (flat_text (rs_paragraph st'))
     = as_written (flat_text (rs_paragraph st))
  /\ rs_converted st' = S (rs_converted st).
Proof.
  unfold rescan_step. intros H.
  pose proof (build_paragraph_text_map_fst (rs_paragraph st)) as Hfull.
  destruct (build_paragraph_text_map (rs_paragraph st)) as [full mapping].
  simpl in Hfull. subst full.
  destruct (negb _ || _) eqn:Hguard; [discriminate|].
  apply orb_false_elim in Hguard as [_ Hlen].
  apply Nat.leb_gt in Hlen.
  destruct (search_literal sentence _ _) as [[g_start g_end]|] eqn:Hs;
    [|discriminate].
  injection H as <-. simpl.
  apply search_literal_spec in Hs as (H1 & H2 & H3 & H4); [|lia].
  rewrite split_overlapping_flat_text. repeat split; auto; lia.
Qed.

Lemma rescan_step_inv (sentence full : str) (st st' : rescan_state) :
  rescan_inv sentence full st ->
  rescan_step sentence st = Some st' ->
  rescan_inv sentence full st'.
Proof.
  intros (Hflat & Hsf & Hconv & Hmul & Hch & Hlast & Hocc) H.
  pose proof (rescan_step_advances sentence st st' H) as (Ha & Hb & Hc & Hd).
  pose proof (as_written_eq_length _ _ Hflat) as Hlen.
  unfold rescan_step in H.
  pose proof (build_paragraph_text_map_fst (rs_paragraph st)) as Hfull.
  destruct (build_paragraph_text_map (rs_paragraph st)) as [full' mapping].
  simpl in Hfull. subst full'.
  destruct (negb _ || _); [discriminate|].
  destruct (search_literal sentence (flat_text (rs_paragraph st))
              (rs_search_from st))
    as [[g_start g_end]|] eqn:Hs; [|discriminate].
  apply search_literal_spec in Hs as (H1 & H2 & H3 & H4); [|lia].
  injection H as <-. unfold rescan_inv. simpl in *.
  rewrite length_app, last_end_snoc. simpl.
  repeat split; try lia.
  - now rewrite split_overlapping_flat_text.
  - apply chained_snoc; [exact Hch | lia | lia].
  - apply Forall_app. split; [exact Hocc|].
    constructor; [|constructor]. unfold occurrence. simpl.
    split; [exact H2|]. split; [lia|].
    rewrite as_written_take, as_written_drop, <- Hflat,
      <- as_written_drop, <- as_written_take.
    now rewrite H4.
Qed.

(** More turns than needed change nothing. *)
Lemma rescan_more_fuel (sentence : str) (fuel : nat) :
  forall (fuel' : nat) (st st' : rescan_state),
  rescan fuel sentence st = Some st' -> (fuel <= fuel')%nat ->
  rescan fuel' sentence st = Some st'.
Proof.
  induction fuel as [|fuel IH]; intros fuel' st st' H Hle; [discriminate|].
  destruct fuel' as [|fuel']; [lia|]. simpl in *.
  destruct (rescan_step sentence st) as [st1|]; [|exact H].
  apply IH; [exact H | lia].
Qed.

(** The loop ends: with the text left to search below [fuel] sentence
    lengths, [fuel] turns reach the [break], and the invariant holds
    there. *)
Lemma rescan_ends (sentence full : str) (fuel : nat) :
  forall st : rescan_state,
  rescan_inv sentence full st ->
  (length full - rs_search_from st < fuel * length sentence)%nat ->
  exists st', rescan fuel sentence st = Some st'
              /\ rescan_step sentence st' = None
              /\ rescan_inv sentence full st'.
Proof.
  induction fuel as [|fuel IH]; intros st Hinv Hfuel; [lia|].
  simpl. destruct (rescan_step sentence st) as [st1|] eqn:Hstep.
  - pose proof (rescan_step_advances sentence st st1 Hstep) as (Ha & Hb & _).
    pose proof (rescan_step_inv sentence full st st1 Hinv Hstep) as Hinv1.
    destruct Hinv as (Hflat & _).
    rewrite (as_written_eq_length _ _ Hflat) in Hb.
    apply IH; [exact Hinv1 | lia].
  - exists st. auto.
Qed.

(** C10.  Termination of the rescan loop: for a sentence that is not
    empty, every turn that converts a match moves the resume position on by
    at least the length of the sentence and keeps the length of the
    flattened text of the paragraph (the text itself but for carriage
    returns written as line feeds); so the loop reaches its [break] after
    at most [length text / length sentence] converting turns, whatever
    number of turns above that bound it is given, and
    [apply_sentence_to_paragraph] returns the state reached there.  The
    matches counted are as long as the sentence, lie in the text and read
    as the sentence there (a carriage return read as a line feed), and
    none starts before the one counted before it ends. *)
Theorem rescan_loop_terminates (paragraph : Paragraph) (sentence : str) :
  sentence <> [] ->
  let full := flat_text paragraph in
  let bound := (length full / length sentence)%nat in
  (forall st st',
     rescan_step sentence st = Some st' ->
     (rs_search_from st + length sentence <= rs_search_from st')%nat
     /\ length (flat_text (rs_paragraph st'))
        = length (flat_text (rs_paragraph st))
     /\ as_written (flat_text (rs_paragraph st'))
        = as_written (flat_text (rs_paragraph st)))
  /\ exists st',
       (forall fuel, (bound < fuel)%nat ->
          rescan fuel sentence (rescan_start paragraph) = Some st')
       /\ rescan_step sentence st' = None
       /\ apply_sentence_to_paragraph paragraph sentence
          = (rs_paragraph st', rs_converted st')
       /\ (rs_converted st' <= bound)%nat
       /\ rs_converted st' = length (rs_spans st')
       /\ length (flat_text (rs_paragraph st')) = length full
       /\ as_written (flat_text (rs_paragraph st')) = as_written full
       /\ Forall (occurrence sentence full) (rs_spans st')
       /\ (forall i j a b c d,
             (i < j)%nat ->
             rs_spans st' !! i = Some (a, b) ->
             rs_spans st' !! j = Some (c, d) ->
             (b <= c)%nat).
Proof.
  intros Hne full bound.
  assert (Hlen : (0 < length sentence)%nat)
    by (destruct sentence; [congruence | simpl; lia]).
  assert (Hdiv : (length full < S bound * length sentence)%nat).
  { unfold bound.
    pose proof (Nat.div_mod_eq (length full) (length sentence)).
    pose proof (Nat.mod_upper_bound (length full) (length sentence)). nia. }
  assert (Hbound : (bound <= length full)%nat).
  { unfold bound.
    pose proof (Nat.div_mod_eq (length full) (length sentence)). nia. }
  split.
  { intros st st' Hstep.
    destruct (rescan_step_advances sentence st st' Hstep) as (H1 & _ & H3 & _).
    split; [exact H1|]. split; [now apply as_written_eq_length | exact H3]. }
  destruct (rescan_ends sentence full (S bound) (rescan_start paragraph)
              (rescan_inv_start sentence paragraph))
    as (st' & Hrun & Hstop & Hinv); [simpl; lia|].
  destruct Hinv as (Hflat & Hsf & Hconv & Hmul & Hch & Hlast & Hocc).
  exists st'.
  split; [intros fuel Hfuel; apply (rescan_more_fuel sentence (S bound));
          [exact Hrun | lia]|].
  split; [exact Hstop|].
  split.
  { unfold apply_sentence_to_paragraph.
    destruct sentence as [|c sentence]; [congruence|]. simpl negb. cbv iota.
    fold (rescan_start paragraph).
    rewrite (rescan_more_fuel _ (S bound) (rescan_fuel paragraph)
               (rescan_start paragraph) st' Hrun); [reflexivity|].
    unfold rescan_fuel. rewrite build_paragraph_text_map_fst.
    fold full. lia. }
  split.
  { unfold bound. apply Nat.div_le_lower_bound; lia. }
  split; [exact Hconv|].
  split; [now apply as_written_eq_length|].
  split; [exact Hflat|]. split; [exact Hocc|].
  intros i j a b c d Hij Hi Hj.
  apply (chained_disjoint (rs_spans st') 0 i j a b c d Hch Hij Hi Hj).
Qed.

(* ===================================================================== *)
(** ** Stripping and deduplication *)
(* ===================================================================== *)

Lemma span_snd_head (cls : N -> bool) (s : str) :
  match snd (span cls s) with
  | [] => True
  | c :: _ => cls c = false
  end.
Proof.
  induction s as [|c s IH]; simpl; [exact I|].
  destruct (cls c) eqn:E.
  - destruct (span cls s) as [m r]. exact IH.
  - simpl. exact E.
Qed.

Lemma span_head_out (cls : N -> bool) (c : N) (s : str) :
  cls c = false -> span cls (c :: s) = ([], c :: s).
Proof. intros E. simpl. now rewrite E. Qed.

(** Stripping twice is stripping once. *)
Lemma strip_idem (s : str) : strip (strip s) = strip s.
Proof.
  unfold strip.
  set (a := snd (span py_isspace s)).
  pose proof (span_snd_head py_isspace s) as Ha. fold a in Ha.
  pose proof (span_app py_isspace (rev a)) as Hsplit.
  pose proof (span_snd_head py_isspace (rev a)) as Hb.
  destruct (span py_isspace (rev a)) as [m b]. simpl in *.
  destruct b as [|c b]; [reflexivity|].
  assert (Ea : a = rev (c :: b) ++ rev m).
  { rewrite <- (rev_involutive a), <- Hsplit. now rewrite rev_app_distr. }
  destruct (rev (c :: b)) as [|x t] eqn:Et.
  { apply (f_equal (@length N)) in Et. rewrite length_rev in Et.
    discriminate. }
  rewrite Ea in Ha. simpl in Ha.
  rewrite (span_head_out py_isspace x t Ha). simpl snd.
  assert (Er : rev (x :: t) = c :: b) by (now rewrite <- Et, rev_involutive).
  change (rev (snd (span py_isspace (rev (x :: t)))) = x :: t).
  rewrite Er, (span_head_out py_isspace c b Hb). exact Et.
Qed.

Lemma dedupe_step_inv (f : str -> str) (st : list str * gset str) (s : str) :
  dedupe_inv st -> dedupe_inv (dedupe_step f st s).
Proof.
  destruct st as [ordered seen]. unfold dedupe_inv, dedupe_step. simpl.
  intros Hinv. destruct (nonempty (f s) && negb (bool_decide (f s ∈ seen)));
    [|exact Hinv].
  intros x. simpl. rewrite in_app_iff, elem_of_union, elem_of_singleton.
  rewrite Hinv. simpl. hide_tables. intuition.
Qed.

Lemma dedupe_fold_inv (f : str -> str) (l : list str) :
  forall st, dedupe_inv st -> dedupe_inv (fold_left (dedupe_step f) l st).
Proof.
  induction l as [|s l IH]; intros st Hinv; [exact Hinv|].
  simpl. apply IH. now apply dedupe_step_inv.
Qed.

(** What is kept stays kept. *)
Lemma dedupe_step_keeps (f : str -> str) (st : list str * gset str) (s x : str) :
  In x (fst st) -> In x (fst (dedupe_step f st s)).
Proof.
  destruct st as [ordered seen]. unfold dedupe_step. simpl. intros H.
  destruct (_ && _); simpl; [apply in_app_iff; now left | exact H].
Qed.

Lemma dedupe_fold_keeps (f : str -> str) (l : list str) :
  forall st x, In x (fst st) -> In x (fst (fold_left (dedupe_step f) l st)).
Proof.
  induction l as [|s l IH]; intros st x H; [exact H|].
  simpl. apply IH. now apply dedupe_step_keeps.
Qed.

(** A string with a non-empty image ends up kept, as that image. *)
Lemma dedupe_fold_In (f : str -> str) (l : list str) :
  forall st y,
  dedupe_inv st -> In y l -> f y <> [] ->
  In (f y) (fst (fold_left (dedupe_step f) l st)).
Proof.
  induction l as [|s l IH]; intros st y Hinv Hy Hne; [destruct Hy|].
  simpl. destruct Hy as [->|Hy].
  - apply dedupe_fold_keeps.
    destruct st as [ordered seen]. unfold dedupe_step. simpl.
    destruct (f y) as [|c t] eqn:E; [congruence|]. simpl.
    case_bool_decide as Hseen; simpl.
    + apply (Hinv (c :: t)). exact Hseen.
    + apply in_app_iff. right. now left.
  - apply IH; [now apply dedupe_step_inv | exact Hy | exact Hne].
Qed.

Lemma dedupe_In (f : str -> str) (l : list str) (y : str) :
  In y l -> f y <> [] -> In (f y) (dedupe f l).
Proof.
  intros Hy Hne. unfold dedupe. apply dedupe_fold_In; auto.
  intros s. simpl. rewrite elem_of_empty. hide_tables. tauto.
Qed.

(** What is kept is the non-empty image of a string of the list. *)
Lemma dedupe_fold_from (f : str -> str) (l : list str) :
  forall st x,
  In x (fst (fold_left (dedupe_step f) l st)) ->
  In x (fst st) \/ (exists y, In y l /\ x = f y /\ x <> []).
Proof.
  induction l as [|s l IH]; intros st x H; [now left|].
  simpl in H. apply IH in H as [H|(y & Hy & Hx & Hne)].
  - destruct st as [ordered seen]. unfold dedupe_step in H. simpl in H.
    destruct (nonempty (f s)) eqn:Hfs; simpl in H; [|now left].
    destruct (negb _); simpl in H; [|now left].
    apply in_app_iff in H as [H|[<-|[]]]; [now left|].
    right. exists s. split; [now left|]. split; [reflexivity|].
    intros E. rewrite E in Hfs. discriminate.
  - right. exists y. split; [now right | auto].
Qed.

Lemma dedupe_from (f : str -> str) (l : list str) (x : str) :
  In x (dedupe f l) -> exists y, In y l /\ x = f y /\ x <> [].
Proof.
  intros H. apply dedupe_fold_from in H as [[]|H]. exact H.
Qed.

(** An extracted sentence is not empty and is already stripped. *)
Lemma extract_sentences_stripped (text x : str) :
  In x (extract_sentences text) -> x <> [] /\ strip x = x.
Proof.
  unfold extract_sentences. destruct (negb (nonempty text)); [intros []|].
  intros H. apply dedupe_from in H as (y & Hy & -> & Hne).
  split; [exact Hne|]. unfold id.
  apply in_map_iff in Hy as (g & <- & _). apply strip_idem.
Qed.

(** The sentences taken from one item of [--sentences] that is not empty
    once stripped leave a list that is not empty after the final
    deduplication. *)
Lemma sentences_of_item_kept (item : str) (rest : list str) :
  item <> [] -> strip item = item ->
  dedupe strip (sentences_of_items [item] ++ rest) <> [].
Proof.
  intros Hne Hstrip. unfold sentences_of_items. simpl flat_map.
  destruct item as [|c item]; [congruence|]. simpl nonempty. cbv iota.
  rewrite app_nil_r.
  destruct (extract_sentences (c :: item)) as [|e ext] eqn:Hext; simpl nonempty_list;
    cbv iota.
  - intros E.
    assert (H : In (strip (c :: item)) (dedupe strip ([c :: item] ++ rest))).
    { apply dedupe_In; [now left | now rewrite Hstrip]. }
    rewrite E in H. destruct H.
  - intros E.
    assert (He : e <> [] /\ strip e = e).
    { apply (extract_sentences_stripped (c :: item)). rewrite Hext. now left. }
    destruct He as [He1 He2].
    assert (H : In (strip e) (dedupe strip ((e :: ext) ++ rest))).
    { apply dedupe_In; [now left | now rewrite He2]. }
    rewrite E in H. destruct H.
Qed.

(* ===================================================================== *)
(** ** The oracle and the modes *)
(* ===================================================================== *)

(** C6.  Oracle absence: without the oracle, [is_english_word] raises
    [ClassifierUnavailable] on every token it would score, that is every
    token with at least two stripped characters; [apply_sentences_docx]
    never raises it, and the sentence mode of [main] ends the same way
    with and without the oracle. *)
Theorem oracle_absence_confined :
  (forall (token : str) (threshold : spec_float),
     (2 <= length (keep_word_chars token))%nat ->
     is_english_word None token threshold = Raise ClassifierUnavailable)
  /\ (forall (w : World) (in_path : str) (out_path : option str)
             (sentences : list str),
        apply_sentences_docx w in_path out_path sentences
        <> Raise ClassifierUnavailable)
  /\ (forall (w : World) (zipf : oracle) (args : Args),
        truthy (sentences args) || truthy (sentences_file args) = true ->
        main w zipf args = main w None args).
Proof.
  split; [|split].
  - intros token threshold Hlen. unfold is_english_word.
    destruct token as [|c token]; [simpl in Hlen; lia|]. simpl negb. cbv iota.
    destruct (Nat.ltb_spec (length (keep_word_chars (c :: token))) 2);
      [lia | reflexivity].
  - intros w in_path out_path sentences. unfold apply_sentences_docx.
    destruct (negb (isfile w in_path)); [discriminate|].
    destruct (open_document w in_path) as [doc|]; [|discriminate].
    destruct (sentences_document sentences doc) as [doc' total].
    destruct (save_document w _ doc') as [[]|]; discriminate.
  - intros w zipf args Hmode. unfold main. rewrite Hmode. reflexivity.
Qed.

(** In the frequency mode a missing input file ends [main] with status 2,
    with or without the oracle. *)
Lemma main_frequency_missing_input (w : World) (zipf : oracle) (args : Args) :
  gui args = false ->
  truthy (sentences args) || truthy (sentences_file args) = false ->
  truthy (in_path args) = true ->
  isfile w (default [] (in_path args)) = false ->
  main w zipf args = Exit 2 None.
Proof.
  intros Hgui Hmode Hin Hfile. unfold main. rewrite Hgui, Hmode, Hin.
  simpl negb. cbv iota. destruct zipf as [z|]; [|reflexivity].
  unfold convert_docx. rewrite Hfile. reflexivity.
Qed.

(** In the sentence mode a missing input file makes
    [apply_sentences_docx] raise, and [main] turns every exception of that
    call into status 1. *)
Lemma main_sentence_missing_input (w : World) (zipf : oracle) (args : Args)
    (path : str) (item : str) :
  gui args = false ->
  in_path args = Some path -> path <> [] ->
  isfile w path = false ->
  truthy (sentences args) = true ->
  sentences_file args = None ->
  List.map strip (split_on comma (default [] (sentences args))) = [item] ->
  item <> [] ->
  main w zipf args = Exit 1 None.
Proof.
  intros Hgui Hin Hpath Hfile Hs Hsf Hitems Hitem. unfold main.
  rewrite Hgui, Hs, Hsf, Hin, Hitems.
  destruct path as [|c path]; [congruence|].
  cbv beta iota zeta delta [truthy nonempty negb orb].
  assert (Hstrip : strip item = item).
  { assert (H : In item (List.map strip
                (split_on comma (default [] (sentences args)))))
      by (rewrite Hitems; now left).
    apply in_map_iff in H as (x & <- & _). apply strip_idem. }
  pose proof (sentences_of_item_kept item [] Hitem Hstrip) as Hkept.
  destruct (dedupe strip (sentences_of_items [item] ++ [])) as [|s ss];
    [congruence|].
  cbv beta iota delta [nonempty_list negb].
  unfold apply_sentences_docx. simpl default. rewrite Hfile. reflexivity.
Qed.

(* ===================================================================== *)
(** ** Paths: the last component *)
(* ===================================================================== *)

Lemma rfind_from_app (c : N) (p q : str) :
  forall (i last : Z),
  posixpath.rfind_from c (p ++ q) i last
  = posixpath.rfind_from c q (i + Z.of_nat (length p))
      (posixpath.rfind_from c p i last).
Proof.
  induction p as [|x p IH]; intros i last; simpl.
  - now rewrite Z.add_0_r.
  - rewrite IH. f_equal. lia.
Qed.

(** A path cut after its last [c]: what follows has no [c]. *)
Lemma rfind_split (c : N) (p : str) :
  exists D name : str,
    p = D ++ name
    /\ Z.of_nat (length D) = (posixpath.rfind c p + 1)%Z
    /\ ~ In c name
    /\ (D = [] \/ exists D', D = D' ++ [c]).
Proof.
  induction p as [|x p IH] using rev_ind.
  - exists [], []. repeat split; auto.
  - destruct IH as (D & name & Hp & Hlen & Hfree & Hend).
    unfold posixpath.rfind in *. rewrite rfind_from_app. simpl.
    destruct (N.eqb_spec x c) as [->|Hxc].
    + exists (p ++ [c]), []. rewrite app_nil_r.
      repeat split; auto; [rewrite length_app; simpl; lia | eauto].
    + exists D, (name ++ [x]). rewrite app_assoc, <- Hp.
      repeat split; auto.
      intros Hin. apply in_app_iff in Hin as [Hin|[Hin|[]]]; [hide_tables; tauto|congruence].
Qed.

(** [splitext] cuts inside the last component. *)
Lemma splitext_decomp (p : str) :
  exists X stem ext : str,
    p = X ++ stem ++ ext
    /\ posixpath.splitext p = (X ++ stem, ext)
    /\ ~ In posixpath.sep (stem ++ ext)
    /\ (X = [] \/ exists X', X = X' ++ [posixpath.sep]).
Proof.
  destruct (rfind_split posixpath.sep p) as (D & name & Hp & Hlen & Hfree & Hend).
  unfold posixpath.splitext.
  set (dotIndex := posixpath.rfind posixpath.extsep p).
  destruct (Z.gtb_spec dotIndex (posixpath.rfind posixpath.sep p)) as [Hgt|Hle].
  2:{ exists D, name, []. rewrite app_nil_r. repeat split; auto. congruence. }
  destruct (posixpath.skip_leading_dots p _ _).
  2:{ exists D, name, []. rewrite app_nil_r. repeat split; auto. congruence. }
  set (k := (Z.to_nat dotIndex - length D)%nat).
  exists D, (take k name), (drop k name).
  rewrite take_drop. repeat split; auto.
  subst p. rewrite take_app, drop_app. fold k.
  rewrite take_ge, drop_ge by lia. reflexivity.
Qed.

Lemma not_in_app {A : Type} (x : A) (l1 l2 : list A) :
  ~ In x l1 -> ~ In x l2 -> ~ In x (l1 ++ l2).
Proof. intros H1 H2 H. apply in_app_iff in H. hide_tables. tauto. Qed.

(** The input path and the path with the [_fixed] suffix differ in their
    last component only, and the second one is longer by six characters
    or more. *)
Lemma fixed_path_decomp (p : str) :
  exists X name name' : str,
    p = X ++ name
    /\ fixed_path p = X ++ name'
    /\ ~ In posixpath.sep name
    /\ ~ In posixpath.sep name'
    /\ (length name + 6 <= length name')%nat
    /\ (X = [] \/ exists X', X = X' ++ [posixpath.sep]).
Proof.
  destruct (splitext_decomp p) as (X & stem & ext & Hp & Hsplit & Hfree & Hend).
  unfold fixed_path. rewrite Hsplit.
  exists X, (stem ++ ext),
    (stem ++ _fixed ++ (if nonempty ext then ext else dot_docx)).
  split; [exact Hp|]. split; [now rewrite <- app_assoc|].
  split; [exact Hfree|].
  assert (Hstem : ~ In posixpath.sep stem)
    by (intros H; apply Hfree, in_app_iff; now left).
  assert (Hext : ~ In posixpath.sep ext)
    by (intros H; apply Hfree, in_app_iff; now right).
  assert (Hfixed : ~ In posixpath.sep _fixed)
    by (unfold _fixed, posixpath.sep; simpl; hide_tables; intuition discriminate).
  assert (Hdocx : ~ In posixpath.sep dot_docx)
    by (unfold dot_docx, posixpath.sep; simpl; hide_tables; intuition discriminate).
  split.
  { repeat apply not_in_app; auto. destruct (nonempty ext); auto. }
  split; [|exact Hend].
  rewrite !length_app. destruct ext; simpl; lia.
Qed.

(* ===================================================================== *)
(** ** Paths: normalisation *)
(* ===================================================================== *)

(** A pattern made of separators is matched inside [Y], never by what
    follows when that has no separator. *)
Lemma is_prefix_seps (pat : str) :
  forall (Y n : str),
  Forall (fun c => c = posixpath.sep) pat -> pat <> [] ->
  ~ In posixpath.sep n ->
  is_prefix pat (Y ++ n) = is_prefix pat Y.
Proof.
  induction pat as [|a pat IH]; intros Y n Hpat Hne Hfree; [congruence|].
  apply Forall_cons in Hpat as [-> Hpat].
  assert (Hcons : forall (a b : N) (p s : str),
            is_prefix (a :: p) (b :: s) = ((a =? b)%N && is_prefix p s))
    by reflexivity.
  destruct Y as [|y Y].
  - rewrite app_nil_l. destruct n as [|b n]; [reflexivity|].
    rewrite Hcons.
    destruct (N.eqb_spec posixpath.sep b) as [<-|_]; [|reflexivity].
    exfalso. apply Hfree. now left.
  - rewrite <- app_comm_cons, !Hcons.
    destruct pat as [|a' pat]; [reflexivity|].
    f_equal. apply IH; [exact Hpat | discriminate | exact Hfree].
Qed.

Lemma initial_slashes_of_app (Y n : str) :
  ~ In posixpath.sep n ->
  posixpath.initial_slashes_of (Y ++ n) = posixpath.initial_slashes_of Y.
Proof.
  intros Hfree. unfold posixpath.initial_slashes_of, posixpath.startswith.
  rewrite !is_prefix_seps; auto; try discriminate; repeat constructor.
Qed.

Lemma endswith_sep (a : str) :
  posixpath.endswith [posixpath.sep] a = true ->
  exists a', a = a' ++ [posixpath.sep].
Proof.
  unfold posixpath.endswith. change (rev [posixpath.sep]) with [posixpath.sep].
  intros H. destruct (rev a) as [|c t] eqn:E; [discriminate|].
  change (((posixpath.sep =? c)%N && is_prefix [] t) = true) in H.
  apply andb_true_iff in H as [H _]. apply N.eqb_eq in H. subst c.
  exists (rev t). rewrite <- (rev_involutive a), E. reflexivity.
Qed.

(** The path handed to [normpath] by [abspath]: a prefix that depends on
    the directory part only, then the last component. *)
Lemma abspath_prefix (cwd X : str) :
  (X = [] \/ exists X', X = X' ++ [posixpath.sep]) ->
  exists Y : str,
    (Y = [] \/ exists Y', Y = Y' ++ [posixpath.sep])
    /\ forall n : str,
         ~ In posixpath.sep n ->
         posixpath.abspath cwd (X ++ n) = posixpath.normpath (Y ++ n).
Proof.
  intros HX. unfold posixpath.abspath, posixpath.isabs, posixpath.join2,
    posixpath.startswith.
  destruct (is_prefix [posixpath.sep] X) eqn:Habs.
  - exists X. split; [exact HX|]. intros n Hfree.
    rewrite is_prefix_seps, Habs; auto; try discriminate; repeat constructor.
  - destruct (negb (nonempty cwd) || posixpath.endswith [posixpath.sep] cwd)
      eqn:Hcwd.
    + exists (cwd ++ X). split.
      * destruct HX as [->|(X' & ->)].
        -- rewrite app_nil_r. apply orb_true_iff in Hcwd as [Hcwd|Hcwd].
           ++ left. destruct cwd; [reflexivity | discriminate].
           ++ right. now apply endswith_sep.
        -- right. exists (cwd ++ X'). now rewrite app_assoc.
      * intros n Hfree.
        rewrite is_prefix_seps, Habs; auto; try discriminate;
          repeat constructor.
        simpl negb. cbv iota. now rewrite app_assoc.
    + exists (cwd ++ [posixpath.sep] ++ X). split.
      * right. destruct HX as [->|(X' & ->)].
        -- exists cwd. now rewrite app_nil_r.
        -- exists (cwd ++ [posixpath.sep] ++ X'). now rewrite <- !app_assoc.
      * intros n Hfree.
        rewrite is_prefix_seps, Habs; auto; try discriminate;
          repeat constructor.
        simpl negb. cbv iota. now rewrite <- !app_assoc.
Qed.

Lemma split_on_nonempty (c : N) (s : str) : split_on c s <> [].
Proof.
  induction s as [|x s IH]; simpl; [discriminate|].
  destruct (x =? c)%N; [discriminate|].
  destruct (split_on c s); [congruence | discriminate].
Qed.

Lemma split_on_free (c : N) (n : str) : ~ In c n -> split_on c n = [n].
Proof.
  induction n as [|x n IH]; intros Hfree; [reflexivity|]. simpl.
  destruct (N.eqb_spec x c) as [->|_]; [exfalso; apply Hfree; now left|].
  rewrite IH; [reflexivity|]. intros H. apply Hfree. now right.
Qed.

Lemma split_on_app_sep (c : N) (a b : str) :
  split_on c (a ++ c :: b) = split_on c a ++ split_on c b.
Proof.
  induction a as [|x a IH]; simpl.
  - now rewrite N.eqb_refl.
  - destruct (x =? c)%N; [now rewrite IH|].
    rewrite IH. pose proof (split_on_nonempty c a) as Hne.
    destruct (split_on c a) as [|h t]; [congruence | reflexivity].
Qed.

(** The components of a prefix followed by a last component. *)
Lemma split_on_last (Y : str) :
  (Y = [] \/ exists Y', Y = Y' ++ [posixpath.sep]) ->
  exists C : list str,
    forall n : str, ~ In posixpath.sep n ->
      split_on posixpath.sep (Y ++ n) = C ++ [n].
Proof.
  intros [->|(Y' & ->)].
  - exists []. intros n Hfree. now apply split_on_free.
  - exists (split_on posixpath.sep Y'). intros n Hfree.
    rewrite <- app_assoc. simpl app.
    now rewrite split_on_app_sep, (split_on_free _ n Hfree).
Qed.

Lemma join_snoc_length (l : list str) (x : str) :
  length (join [posixpath.sep] (l ++ [x]))
  = match l with
    | [] => length x
    | _ => (length (join [posixpath.sep] l) + 1 + length x)%nat
    end.
Proof.
  induction l as [|a l IH]; [reflexivity|].
  destruct l as [|b l].
  - simpl. rewrite length_app. simpl. lia.
  - change (join [posixpath.sep] ((a :: b :: l) ++ [x]))
      with (a ++ [posixpath.sep] ++ join [posixpath.sep] ((b :: l) ++ [x])).
    change (join [posixpath.sep] (a :: b :: l))
      with (a ++ [posixpath.sep] ++ join [posixpath.sep] (b :: l)).
    rewrite !length_app, IH. simpl length. lia.
Qed.

Lemma join_removelast_length (l : list str) :
  (length (join [posixpath.sep] (removelast l))
   <= length (join [posixpath.sep] l))%nat.
Proof.
  destruct l as [|a l] using rev_ind; [simpl; lia|].
  rewrite removelast_last, join_snoc_length. destruct l; simpl; lia.
Qed.

(** A turn of the loop of [normpath] adds at most a separator and the
    component. *)
Lemma normpath_step_length (k : nat) (acc : list str) (n : str) :
  (length (join [posixpath.sep] (posixpath.normpath_step k acc n))
   <= length (join [posixpath.sep] acc) + 1 + length n)%nat.
Proof.
  unfold posixpath.normpath_step.
  destruct (_ || _); [lia|].
  destruct (_ || _).
  - rewrite join_snoc_length. destruct acc; lia.
  - destruct (nonempty_list acc); [|lia].
    pose proof (join_removelast_length acc). lia.
Qed.

(** A component of six characters or more is kept as it is. *)
Lemma normpath_step_regular (k : nat) (acc : list str) (n : str) :
  (6 <= length n)%nat ->
  posixpath.normpath_step k acc n = acc ++ [n].
Proof.
  intros Hlen. unfold posixpath.normpath_step, posixpath.str_eqb.
  assert (H1 : n <> []) by (intros ->; simpl in Hlen; lia).
  assert (H2 : n <> posixpath.curdir) by (intros ->; simpl in Hlen; lia).
  assert (H3 : n <> posixpath.pardir) by (intros ->; simpl in Hlen; lia).
  rewrite !bool_decide_eq_false_2 by assumption. reflexivity.
Qed.

(** Of two paths that differ in their last component only, the one whose
    last component is longer by six characters or more has the longer
    normal form. *)
Lemma normpath_length_lt (Y n n' : str) :
  (Y = [] \/ exists Y', Y = Y' ++ [posixpath.sep]) ->
  ~ In posixpath.sep n -> ~ In posixpath.sep n' ->
  (length n + 6 <= length n')%nat ->
  (length (posixpath.normpath (Y ++ n))
   < length (posixpath.normpath (Y ++ n')))%nat.
Proof.
  intros HY Hn Hn' Hlen.
  destruct (split_on_last Y HY) as (C & HC).
  unfold posixpath.normpath.
  rewrite !initial_slashes_of_app by assumption.
  rewrite (HC n Hn), (HC n' Hn'), !fold_left_app. simpl fold_left.
  generalize (posixpath.initial_slashes_of Y). intros k.
  generalize (fold_left (posixpath.normpath_step k) C []). intros acc.
  rewrite (normpath_step_regular k acc n') by lia.
  assert (Hbig : (k + length (join [posixpath.sep] acc) + length n'
                  <= length (repeat posixpath.sep k
                             ++ join [posixpath.sep] (acc ++ [n'])))%nat).
  { rewrite length_app, repeat_length, join_snoc_length.
    destruct acc; simpl; lia. }
  assert (Hne' : nonempty (Y ++ n') = true).
  { destruct n'; [simpl in Hlen; lia|]. now destruct Y. }
  rewrite Hne'. simpl negb. cbv iota.
  pose proof (normpath_step_length k acc n) as Hsmall.
  assert (Hcur : length posixpath.curdir = 1%nat) by reflexivity.
  destruct (nonempty (repeat posixpath.sep k
                      ++ join [posixpath.sep] (acc ++ [n']))) eqn:Hp'.
  2:{ destruct (repeat posixpath.sep k ++ join [posixpath.sep] (acc ++ [n']));
        [simpl in Hbig; lia | discriminate]. }
  destruct (negb (nonempty (Y ++ n))); [lia|].
  destruct (nonempty (repeat posixpath.sep k
              ++ join [posixpath.sep] (posixpath.normpath_step k acc n)));
    [|lia].
  rewrite length_app, repeat_length. lia.
Qed.

(** The path with the [_fixed] suffix never names the input file. *)
Lemma fixed_path_abspath_ne (cwd in_path : str) :
  posixpath.abspath cwd (fixed_path in_path) <> posixpath.abspath cwd in_path.
Proof.
  destruct (fixed_path_decomp in_path)
    as (X & name & name' & Hp & Hfix & Hn & Hn' & Hlen & HX).
  destruct (abspath_prefix cwd X HX) as (Y & HY & Habs).
  rewrite Hfix. subst in_path.
  rewrite (Habs name Hn), (Habs name' Hn').
  intros E. pose proof (normpath_length_lt Y name name' HY Hn Hn' Hlen) as Hlt.
  rewrite E in Hlt. lia.
Qed.

(* ===================================================================== *)
(** ** The output path *)
(* ===================================================================== *)

(** C8, as amended.  The input file is never overwritten: the path that
    [convert_docx] (when it writes) and [apply_sentences_docx] save to
    never has the absolute path of the input.  Without an output path it
    is the stem of the input path, then "_fixed", then the extension of
    the input path, or ".docx" when the input path has no extension; with
    an output path whose absolute path is that of the input, the same
    "_fixed" path is taken; any other output path is used as given. *)
Theorem input_never_overwritten :
  (forall (w : World) (in_path : str) (out_path : option str),
     posixpath.abspath (getcwd w) (resolve_out_path w in_path out_path)
     <> posixpath.abspath (getcwd w) in_path)
  /\ (forall (w : World) (zipf : oracle) (in_path : str)
             (out_path : option str) (threshold : spec_float)
             (dry_run : bool) (saved : str) (doc : Document),
        convert_docx w zipf in_path out_path threshold dry_run
        = Ok (Some (saved, doc)) ->
        saved = resolve_out_path w in_path out_path
        /\ posixpath.abspath (getcwd w) saved
           <> posixpath.abspath (getcwd w) in_path)
  /\ (forall (w : World) (in_path : str) (out_path : option str)
             (sentences : list str) (saved : str) (doc : Document) (n : nat),
        apply_sentences_docx w in_path out_path sentences
        = Ok (saved, doc, n) ->
        saved = resolve_out_path w in_path out_path
        /\ posixpath.abspath (getcwd w) saved
           <> posixpath.abspath (getcwd w) in_path)
  /\ (forall (w : World) (in_path : str) (out_path : option str),
        truthy out_path = false ->
        resolve_out_path w in_path out_path
        = fst (posixpath.splitext in_path) ++ _fixed
          ++ (if nonempty (snd (posixpath.splitext in_path))
              then snd (posixpath.splitext in_path) else dot_docx))
  /\ (forall (w : World) (in_path out : str),
        out <> [] ->
        posixpath.abspath (getcwd w) out = posixpath.abspath (getcwd w) in_path ->
        resolve_out_path w in_path (Some out) = fixed_path in_path)
  /\ (forall (w : World) (in_path out : str),
        out <> [] ->
        posixpath.abspath (getcwd w) out <> posixpath.abspath (getcwd w) in_path ->
        resolve_out_path w in_path (Some out) = out).
Proof.
  assert (Hne : forall (w : World) (in_path : str) (out_path : option str),
            posixpath.abspath (getcwd w) (resolve_out_path w in_path out_path)
            <> posixpath.abspath (getcwd w) in_path).
  { intros w in_path out_path. unfold resolve_out_path, posixpath.str_eqb.
    case_bool_decide as Heq; [apply fixed_path_abspath_ne | exact Heq]. }
  split; [exact Hne|]. split; [|split; [|split; [|split]]].
  - intros w zipf in_path out_path threshold dry_run saved doc H.
    unfold convert_docx in H.
    destruct (negb (isfile w in_path)); [discriminate|].
    destruct (open_document w in_path) as [d|]; [|discriminate].
    destruct (traverse _ (paragraphs d)) as [[ps c1]|e]; [|discriminate].
    rewrite bind_Ok in H.
    destruct (traverse _ (tables d)) as [[ts c2]|e]; [|discriminate].
    rewrite bind_Ok in H.
    destruct (process_headers_footers _ _ _ (sections d)) as [[secs c3]|e];
      [|discriminate].
    rewrite bind_Ok in H. destruct dry_run; [discriminate|].
    destruct (save_document w _ _) as [failure|]; [discriminate|].
    injection H as <- _. split; [reflexivity | apply Hne].
  - intros w in_path out_path sentences saved doc n H.
    unfold apply_sentences_docx in H.
    destruct (negb (isfile w in_path)); [discriminate|].
    destruct (open_document w in_path) as [d|]; [|discriminate].
    destruct (sentences_document sentences d) as [d' total].
    destruct (save_document w _ _) as [failure|]; [discriminate|].
    injection H as <- _ _. split; [reflexivity | apply Hne].
  - intros w in_path out_path Hout. unfold resolve_out_path.
    rewrite Hout. simpl negb. cbv iota. unfold posixpath.str_eqb.
    rewrite bool_decide_eq_false_2 by apply fixed_path_abspath_ne.
    unfold fixed_path. now destruct (posixpath.splitext in_path).
  - intros w in_path out Hout Heq. unfold resolve_out_path.
    destruct out as [|c out]; [congruence|].
    cbv beta iota zeta delta [truthy nonempty negb default from_option].
    unfold posixpath.str_eqb. now rewrite bool_decide_eq_true_2.
  - intros w in_path out Hout Hneq. unfold resolve_out_path.
    destruct out as [|c out]; [congruence|].
    cbv beta iota zeta delta [truthy nonempty negb default from_option].
    unfold posixpath.str_eqb. now rewrite bool_decide_eq_false_2.
Qed.

(* ===================================================================== *)
(** ** The rewriter and the chunks *)
(* ===================================================================== *)

(** With the oracle at hand the decision for a chunk never raises. *)
Lemma make_tnr_of_total (zipf : str -> spec_float) (threshold : spec_float)
    (font : option str) (chunk : str) :
  exists b, make_tnr_of (Some zipf) threshold font chunk = Ok b.
Proof.
  unfold make_tnr_of, should_use_tnr.
  destruct (EN_LIKE_WORD_RE_fullmatch chunk); [|eauto].
  destruct (Nat.ltb_spec (length (_clean_token chunk)) 2) as [|Hlen]; [eauto|].
  rewrite is_english_word_scored
    by (rewrite clean_token_keep, keep_word_chars_idem,
          <- clean_token_keep; exact Hlen).
  rewrite bind_Ok. destruct (negb _); [eauto|]. destruct (_ && _); eauto.
Qed.

Lemma emitted_runs_total (zipf : str -> spec_float) (threshold : spec_float)
    (src : Run) (font : option str) (chunks : list str) :
  exists rs n, emitted_runs (Some zipf) threshold src font chunks = Ok (rs, n).
Proof.
  induction chunks as [|chunk chunks (rs & n & IH)]; [simpl; eauto|].
  rewrite emitted_runs_cons.
  destruct (make_tnr_of_total zipf threshold font chunk) as (b & ->).
  rewrite bind_Ok, IH, bind_Ok. eauto.
Qed.

(** With the oracle at hand, [process_run] on a run that is not structural
    and yields chunks empties the run and emits after it runs whose texts
    are the chunks, in order, as [run.text] writes them. *)
Lemma process_run_emits_chunks (zipf : str -> spec_float)
    (paragraph : Paragraph) (run : nat) (r : Run) (threshold : spec_float) :
  paragraph !! run = Some r ->
  structural r = false ->
  split_into_chunks (sanitize_text (run_text r)) <> [] ->
  exists (rs : list Run) (k : nat),
    process_run (Some zipf) paragraph run threshold
    = Ok (take run paragraph ++ set_text [] r :: rs ++ drop (S run) paragraph,
          (1%nat, k))
    /\ List.map run_text rs
       = List.map as_written
           (split_into_chunks (sanitize_text (run_text r))).
Proof.
  intros Hrun Hstruct Hchunks.
  rewrite (process_run_spec _ paragraph run r threshold Hrun Hstruct Hchunks).
  destruct (emitted_runs_total zipf threshold r
              (Some (default [] (font_name r)))
              (split_into_chunks (sanitize_text (run_text r))))
    as (rs & k & Hem).
  rewrite Hem, bind_Ok. exists rs, k. split; [reflexivity|].
  apply (emitted_runs_texts _ _ _ _ _ _ _ Hem).
Qed.

(* ===================================================================== *)
(** ** More on the classifier and the tokenizer *)
(* ===================================================================== *)

(** [is_english_word] in one expression. *)
Lemma is_english_word_unfold (zipf : oracle) (token : str)
    (threshold : spec_float) :
  is_english_word zipf token threshold
  = if (length (keep_word_chars token) <? 2)%nat then Ok false
    else match zipf with
         | None => Raise ClassifierUnavailable
         | Some zipf_frequency =>
             Ok (float_ge (zipf_frequency (lower (keep_word_chars token)))
                   threshold)
         end.
Proof.
  unfold is_english_word. destruct token as [|c token]; reflexivity.
Qed.

(** X1.  The decision of [should_use_tnr] with the oracle at hand: a token
    is relabeled exactly when its stripped form has at least two
    characters, the score of the lowered stripped form reaches the
    threshold, and it is not the case that the font name contains
    "sutonny" and the stripped form has at most three characters. *)
Theorem should_use_tnr_decision (zipf : str -> spec_float) (token : str)
    (threshold : spec_float) (src_font_name : option str) :
  should_use_tnr (Some zipf) token threshold src_font_name
  = Ok ((2 <=? length (keep_word_chars token))%nat
        && float_ge (zipf (lower (keep_word_chars token))) threshold
        && negb (contains sutonny (lower (default [] src_font_name))
                 && (length (keep_word_chars token) <=? 3)%nat)).
Proof.
  unfold should_use_tnr. rewrite clean_token_keep.
  rewrite is_english_word_unfold, keep_word_chars_idem.
  destruct (Nat.ltb_spec (length (keep_word_chars token)) 2) as [Hlt|Hge].
  - destruct (Nat.leb_spec 2 (length (keep_word_chars token))); [lia|].
    reflexivity.
  - destruct (Nat.leb_spec 2 (length (keep_word_chars token))); [|lia].
    rewrite bind_Ok. simpl andb.
    destruct (float_ge _ threshold); [|reflexivity]. simpl negb. cbv iota.
    destruct (contains sutonny _ && _); reflexivity.
Qed.

Lemma is_word_char_ascii (c : N) : is_word_char c = true -> (c < 128)%N.
Proof.
  unfold is_word_char, is_alpha. intros H.
  repeat (apply orb_true_iff in H as [H|H]);
    try (apply andb_true_iff in H as [_ H]); try apply N.leb_le in H;
    try apply N.eqb_eq in H; lia.
Qed.

(** Lowering keeps the length of a string of kept characters. *)
Lemma lower_keep_length (token : str) :
  length (lower (keep_word_chars token)) = length (keep_word_chars token).
Proof.
  unfold keep_word_chars, lower.
  induction token as [|c token IH]; [reflexivity|]. simpl List.filter.
  destruct (is_word_char c) eqn:Hc; [|exact IH].
  simpl flat_map. rewrite length_app, IH.
  apply is_word_char_ascii in Hc. apply N.ltb_lt in Hc. rewrite Hc.
  destruct (is_ascii_upper c); reflexivity.
Qed.

(** X2.  [is_english_word] sees a token through its lowered stripped form
    only: two tokens that agree once the characters outside [[A-Za-z'-]]
    are dropped and the case is lowered get the same answer, or the same
    exception. *)
Theorem is_english_word_ignores_case_and_foreign (zipf : oracle)
    (token1 token2 : str) (threshold : spec_float) :
  lower (keep_word_chars token1) = lower (keep_word_chars token2) ->
  is_english_word zipf token1 threshold = is_english_word zipf token2 threshold.
Proof.
  intros Heq. rewrite !is_english_word_unfold.
  rewrite <- (lower_keep_length token1), <- (lower_keep_length token2), Heq.
  reflexivity.
Qed.

(** A character is a control character of [CTRL_CHARS_RE] exactly when it
    is below the space and no tab, line feed or carriage return, or is
    DEL. *)
Lemma survives_sanitizing_spec (c : N) :
  negb (is_ctrl_char c) = survives_sanitizing c.
Proof.
  unfold is_ctrl_char, survives_sanitizing.
  destruct (N.leb_spec c 8), (N.eqb_spec c 11), (N.eqb_spec c 12),
           (N.leb_spec 14 c), (N.leb_spec c 31), (N.eqb_spec c 127),
           (N.leb_spec 32 c), (N.eqb_spec c 9), (N.eqb_spec c 10),
           (N.eqb_spec c 13);
    simpl; first [reflexivity | exfalso; lia].
Qed.

(** X3.  [sanitize_text] removes exactly the ASCII control characters
    other than tab, line feed and carriage return, that is the code points
    below 32 but 9, 10 and 13, and 127: the result is the text with these
    occurrences taken out and every other occurrence kept, in order.  So a
    character is in the result exactly when it is in the text and no such
    control character, the result is a subsequence of the text, a text
    without such characters comes back as it is, and a second pass changes
    nothing. *)
Theorem sanitize_text_removes_controls (text : str) :
  sanitize_text text = List.filter survives_sanitizing text
  /\ (forall c : N,
        In c (sanitize_text text)
        <-> In c text
            /\ ((32 <= c)%N /\ c <> 127%N
                \/ c = 9%N \/ c = 10%N \/ c = 13%N))
  /\ sanitize_text text `sublist_of` text
  /\ (forallb survives_sanitizing text = true -> sanitize_text text = text)
  /\ sanitize_text (sanitize_text text) = sanitize_text text.
Proof.
  assert (Hs : sanitize_text text
               = List.filter (fun c => negb (is_ctrl_char c)) text)
    by (destruct text; reflexivity).
  assert (Hf : List.filter (fun c => negb (is_ctrl_char c)) text
               = List.filter survives_sanitizing text)
    by (apply filter_ext; intros c; apply survives_sanitizing_spec).
  assert (Hs2 : sanitize_text (sanitize_text text)
                = List.filter (fun c => negb (is_ctrl_char c))
                    (sanitize_text text))
    by (destruct (sanitize_text text); reflexivity).
  split; [now rewrite Hs|]. split; [|split; [|split]].
  - intros c. rewrite Hs, filter_In.
    assert (Hc : negb (is_ctrl_char c) = true
                 <-> ((32 <= c)%N /\ c <> 127%N
                      \/ c = 9%N \/ c = 10%N \/ c = 13%N)).
    { unfold is_ctrl_char.
      destruct (N.leb_spec c 8), (N.eqb_spec c 11), (N.eqb_spec c 12),
               (N.leb_spec 14 c), (N.leb_spec c 31), (N.eqb_spec c 127);
        simpl; split; intros Hgoal;
        first [reflexivity | discriminate | lia | exfalso; lia]. }
    now rewrite Hc.
  - rewrite Hs. clear. induction text as [|c text IH]; [constructor|].
    simpl. destruct (negb (is_ctrl_char c)); now constructor.
  - intros Hall. rewrite Hs, Hf. clear Hs Hf Hs2.
    induction text as [|c text IH]; [reflexivity|]. simpl in *.
    apply andb_true_iff in Hall as [Hc Ht]. rewrite Hc. f_equal.
    now apply IH.
  - rewrite Hs2, Hs. apply filter_idem.
Qed.

Lemma span_forallb (cls : N -> bool) (s : str) :
  forallb cls (fst (span cls s)) = true.
Proof.
  induction s as [|c s IH]; [reflexivity|]. simpl.
  destruct (cls c) eqn:Hc; [|reflexivity].
  destruct (span cls s) as [m r]. simpl in *. now rewrite Hc.
Qed.

Lemma span_all (cls : N -> bool) (s : str) :
  forallb cls s = true -> span cls s = (s, []).
Proof.
  induction s as [|c s IH]; [reflexivity|]. simpl. intros H.
  apply andb_true_iff in H as [Hc Hs]. now rewrite Hc, (IH Hs).
Qed.

Lemma match_plus_forallb (cls : N -> bool) (s m r : str) :
  match_plus cls s = Some (m, r) -> forallb cls m = true.
Proof.
  unfold match_plus. pose proof (span_forallb cls s) as H.
  destruct (span cls s) as [[|c m'] r']; [discriminate|].
  intros E. injection E as <- <-. exact H.
Qed.

Lemma match_en_like_word_fullmatch (s m r : str) :
  match_en_like_word s = Some (m, r) ->
  EN_LIKE_WORD_RE_fullmatch m = true /\ (2 <= length m)%nat.
Proof.
  unfold match_en_like_word. destruct s as [|c s]; [discriminate|].
  destruct (is_alpha c) eqn:Ha; [|discriminate].
  destruct (match_plus is_word_char s) as [[w r']|] eqn:Hw; [|discriminate].
  intros E. injection E as <- <-.
  pose proof (match_plus_forallb _ _ _ _ Hw) as Hall.
  apply match_plus_app in Hw as [_ Hne].
  split; [|destruct w; [congruence | simpl; lia]].
  unfold EN_LIKE_WORD_RE_fullmatch, match_en_like_word, match_plus.
  rewrite Ha, (span_all _ _ Hall). destruct w; [congruence | reflexivity].
Qed.

(** A match of the token pattern is of one of the three kinds. *)
Lemma TOKEN_SPLIT_RE_match_kind (s m r : str) :
  TOKEN_SPLIT_RE_match s = Some (m, r) -> chunk_kind_ok m.
Proof.
  unfold TOKEN_SPLIT_RE_match, chunk_kind_ok.
  destruct (match_en_like_word s) as [[m1 r1]|] eqn:H1.
  - intros E. injection E as <- <-. left.
    now apply match_en_like_word_fullmatch in H1.
  - destruct (match_plus re_space s) as [[m2 r2]|] eqn:H2.
    + intros E. injection E as <- <-. right. left.
      now apply match_plus_forallb in H2.
    + intros H3. right. right. now apply match_plus_forallb in H3.
Qed.

Lemma findall_from_kinds (fuel : nat) :
  forall s : str, Forall chunk_kind_ok (findall_from fuel s).
Proof.
  induction fuel as [|fuel IH]; intros s; [constructor|].
  destruct s as [|c s]; [constructor|].
  change (findall_from (S fuel) (c :: s))
    with (match TOKEN_SPLIT_RE_match (c :: s) with
          | Some (m, rest) => m :: findall_from fuel rest
          | None => findall_from fuel s
          end).
  destruct (TOKEN_SPLIT_RE_match (c :: s)) as [[m rest]|] eqn:Hm; [|apply IH].
  constructor; [now apply TOKEN_SPLIT_RE_match_kind in Hm | apply IH].
Qed.

(** X4.  Every chunk of [split_into_chunks] is non-empty and of one kind:
    a word-like token that [EN_LIKE_WORD_RE] matches in full (so of two
    characters or more), a run of whitespace, or a run of characters
    that are neither Latin letters nor whitespace. *)
Theorem chunks_are_of_one_kind (text : str) :
  Forall (fun chunk =>
            chunk <> []
            /\ (EN_LIKE_WORD_RE_fullmatch chunk = true /\ (2 <= length chunk)%nat
                \/ forallb re_space chunk = true
                \/ forallb is_other_char chunk = true))
         (split_into_chunks text).
Proof.
  destruct (split_into_chunks_spec text) as (Hne & _).
  assert (Hk : Forall chunk_kind_ok (split_into_chunks text)).
  { unfold split_into_chunks. destruct (nonempty text); [|constructor].
    apply Forall_forall. intros x Hx. apply list_elem_of_In in Hx.
    apply filter_In in Hx as [Hx _].
    pose proof (findall_from_kinds (length text) text) as Hall.
    rewrite Forall_forall in Hall. apply Hall. now apply list_elem_of_In. }
  rewrite Forall_forall in *. intros chunk Hin.
  split; [now apply Hne|].
  destruct (Hk chunk Hin) as [Hw|[Hs|Ho]]; [left | right; now left | right; now right].
  split; [exact Hw|].
  unfold EN_LIKE_WORD_RE_fullmatch in Hw.
  destruct (match_en_like_word chunk) as [[m r]|] eqn:Hm; [|discriminate].
  destruct r; [|discriminate].
  pose proof (match_en_like_word_fullmatch _ _ _ Hm) as [_ Hlen].
  assert (Happ : m ++ [] = chunk).
  { unfold match_en_like_word in Hm. destruct chunk as [|c chunk]; [discriminate|].
    destruct (is_alpha c); [|discriminate].
    destruct (match_plus is_word_char chunk) as [[w r']|] eqn:Hw'; [|discriminate].
    injection Hm as <- <-. apply match_plus_app in Hw' as [<- _]. reflexivity. }
  rewrite app_nil_r in Happ. now subst m.
Qed.

(** X5.  The chunks against the text: in order they are the text with
    some Latin letters left out, every character that is not a Latin
    letter is kept, and a text without Latin letters is the concatenation
    of its chunks. *)
Theorem chunks_lose_only_latin_letters (text : str) :
  concat (split_into_chunks text) `sublist_of` text
  /\ List.filter (fun c => negb (is_alpha c)) (concat (split_into_chunks text))
     = List.filter (fun c => negb (is_alpha c)) text
  /\ (forallb (fun c => negb (is_alpha c)) text = true ->
      concat (split_into_chunks text) = text).
Proof.
  destruct (split_into_chunks_spec text) as (_ & Hsub & Hfilter).
  split; [exact Hsub|]. split; [exact Hfilter|].
  apply split_into_chunks_lossless_without_letters.
Qed.

(* ===================================================================== *)
(** ** Frequency mode: the paragraph *)
(* ===================================================================== *)

(** [process_run] on the run in the middle of a paragraph: the run is
    replaced by what [rewritten_run] gives, nothing else moves. *)
Lemma process_run_at (zipf : oracle) (l1 : Paragraph) (r : Run)
    (l2 : Paragraph) (threshold : spec_float) :
  process_run zipf (l1 ++ r :: l2) (length l1) threshold
  = ('(new, c) ← rewritten_run zipf threshold r; Ok (l1 ++ new ++ l2, c)).
Proof.
  unfold rewritten_run.
  destruct (nonempty (sanitize_text (run_text r))) eqn:Hne.
  2:{ unfold process_run. rewrite list_lookup_middle by reflexivity.
      now rewrite Hne. }
  destruct (structural r) eqn:Hst.
  { unfold process_run. rewrite list_lookup_middle by reflexivity.
    rewrite Hne. unfold structural in Hst.
    destruct (_is_run_in_hyperlink r); [reflexivity|].
    simpl in Hst. now rewrite Hst. }
  destruct (split_into_chunks (sanitize_text (run_text r))) as [|chunk chunks]
    eqn:Hc.
  { unfold process_run. rewrite list_lookup_middle by reflexivity.
    rewrite Hne. apply orb_false_elim in Hst as [-> ->]. now rewrite Hc. }
  rewrite (process_run_middle zipf l1 r l2 threshold Hst)
    by (rewrite Hc; discriminate).
  rewrite Hc. cbv iota beta.
  destruct (emitted_runs zipf threshold r _ (chunk :: chunks)) as [[rs k]|e];
    reflexivity.
Qed.

Lemma rewritten_run_nonempty (zipf : oracle) (threshold : spec_float)
    (r : Run) (new : list Run) (c : nat * nat) :
  rewritten_run zipf threshold r = Ok (new, c) -> (1 <= length new)%nat.
Proof.
  unfold rewritten_run.
  destruct (negb _); [intros E; injection E as <- _; simpl; lia|].
  destruct (structural r); [intros E; injection E as <- _; simpl; lia|].
  destruct (split_into_chunks _); [intros E; injection E as <- _; simpl; lia|].
  destruct (emitted_runs _ _ _ _ _) as [[rs k]|e]; [|discriminate].
  intros E. injection E as <- _. simpl. lia.
Qed.

(** The loop of [process_paragraph]: with [done] already rewritten and
    [rest] still to do, the runs of [rest] are rewritten one after the
    other, each found right after what was put in place of the one
    before. *)
Lemma process_runs_spec (zipf : oracle) (threshold : spec_float)
    (rest : list Run) :
  forall (done : list Run) (acc : nat * nat),
  process_runs zipf threshold (length rest) (length done) (done ++ rest) acc
  = ('(rs, (s, e)) ← rewritten_runs zipf threshold rest;
     Ok (done ++ rs, (fst acc + s, snd acc + e)%nat)).
Proof.
  induction rest as [|r rest IH]; intros done acc.
  - simpl. rewrite !Nat.add_0_r. now destruct acc.
  - change (process_runs zipf threshold (length (r :: rest)) (length done)
              (done ++ r :: rest) acc)
      with ('(paragraph', (r_scanned, en_changed)) ←
              process_run zipf (done ++ r :: rest) (length done) threshold;
            process_runs zipf threshold (length rest)
              (S (length done)
               + (length paragraph' - length (done ++ r :: rest)))
              paragraph' (fst acc + r_scanned, snd acc + en_changed)%nat).
    rewrite process_run_at.
    change (rewritten_runs zipf threshold (r :: rest))
      with ('(new, (s1, e1)) ← rewritten_run zipf threshold r;
            '(rest', (s2, e2)) ← rewritten_runs zipf threshold rest;
            Ok (new ++ rest', (s1 + s2, e1 + e2)%nat)).
    destruct (rewritten_run zipf threshold r) as [[new [s1 e1]]|err] eqn:Hr;
      [|reflexivity].
    rewrite !bind_Ok.
    pose proof (rewritten_run_nonempty _ _ _ _ _ Hr) as Hlen.
    replace (S (length done)
             + (length (done ++ new ++ rest) - length (done ++ r :: rest)))%nat
      with (length (done ++ new))
      by (rewrite !length_app; simpl; lia).
    rewrite (app_assoc done new rest), IH.
    destruct (rewritten_runs zipf threshold rest) as [[rs [s2 e2]]|err];
      [|reflexivity].
    rewrite !bind_Ok. simpl fst. simpl snd.
    rewrite <- app_assoc. do 3 f_equal; lia.
Qed.

(** X6.  [process_paragraph] rewrites each run present at the start once,
    in order, and never the runs it inserts: the paragraph it leaves is
    the concatenation of what [process_run] makes of each of these runs,
    and its counters are the sums of theirs; an exception of one run is
    the exception of the paragraph. *)
Theorem process_paragraph_runs_once (zipf : oracle) (paragraph : Paragraph)
    (threshold : spec_float) :
  process_paragraph zipf paragraph threshold
  = rewritten_runs zipf threshold paragraph.
Proof.
  unfold process_paragraph.
  etransitivity;
    [exact (process_runs_spec zipf threshold paragraph [] (0, 0)%nat)|].
  destruct (rewritten_runs zipf threshold paragraph) as [[rs [s e]]|err];
    reflexivity.
Qed.

Lemma emitted_run_style (src : Run) (chunk : str) (b : bool) :
  run_style (emitted_run src chunk b) = run_style src
  /\ run_font (emitted_run src chunk b) = cloned_font (run_font src).
Proof.
  destruct b; (split; [apply styled_run_style | apply styled_run_font]).
Qed.

Lemma emitted_runs_styles (zipf : oracle) (threshold : spec_float) (src : Run)
    (font : option str) (chunks : list str) :
  forall (rs : list Run) (n : nat),
  emitted_runs zipf threshold src font chunks = Ok (rs, n) ->
  Forall (fun e => run_style e = run_style src
                   /\ run_font e = cloned_font (run_font src)
                   /\ run_parent e = run_parent src) rs
  /\ (n <= length chunks)%nat.
Proof.
  induction chunks as [|c chunks IH]; intros rs n Hem.
  - injection Hem as <- <-. split; [constructor | simpl; lia].
  - rewrite emitted_runs_cons in Hem.
    destruct (make_tnr_of zipf threshold font c) as [b|e]; [|discriminate].
    rewrite bind_Ok in Hem.
    destruct (emitted_runs zipf threshold src font chunks) as [[rs' n']|e]
      eqn:Hrs; [|discriminate].
    rewrite bind_Ok in Hem. injection Hem as <- <-.
    destruct (IH rs' n' eq_refl) as [Hall Hn]. split.
    + constructor; [|exact Hall].
      destruct (emitted_run_style src c b) as [H1 H2].
      split; [exact H1|]. split; [exact H2 | apply emitted_run_parent].
    + destruct b; simpl; lia.
Qed.

(** X7.  [process_run] touches nothing but the run it is given, whatever
    the oracle: when it returns, either the paragraph is as it was, or the
    run has lost its content and nothing else and is followed by one new
    run for each chunk of its sanitized text.  A new run holds the chunk as
    [run.text] writes it (a carriage return comes back as a line feed) and
    has the style and the parent of the run, and its font attributes as
    [clone_run_style] copies them (they are those of the run, but that a
    colour with a theme colour and no value of its own gets the value
    black).  The runs before and after are the same, in the same order,
    and the number of relabeled chunks counted is at most the number of
    chunks. *)
Theorem process_run_frame (zipf : oracle) (paragraph paragraph' : Paragraph)
    (run : nat) (r : Run) (threshold : spec_float) (counts : nat * nat) :
  paragraph !! run = Some r ->
  process_run zipf paragraph run threshold = Ok (paragraph', counts) ->
  (paragraph' = paragraph /\ snd counts = 0%nat)
  \/ exists rs : list Run,
       paragraph'
       = take run paragraph ++ set_text [] r :: rs ++ drop (S run) paragraph
       /\ List.map run_text rs
          = List.map as_written
              (split_into_chunks (sanitize_text (run_text r)))
       /\ Forall (fun e => run_style e = run_style r
                           /\ run_font e = cloned_font (run_font r)
                           /\ run_parent e = run_parent r) rs
       /\ counts.1 = 1%nat
       /\ (counts.2 <= length rs)%nat.
Proof.
  intros Hrun Hproc.
  pose proof (take_drop_middle paragraph run r Hrun) as Hmid.
  assert (Hlen : length (take run paragraph) = run).
  { apply length_take_le. apply lookup_lt_Some in Hrun. lia. }
  pose proof (process_run_at zipf (take run paragraph) r
                (drop (S run) paragraph) threshold) as Hat.
  rewrite Hlen, Hmid in Hat. rewrite Hat in Hproc. clear Hat.
  unfold rewritten_run in Hproc.
  destruct (negb (nonempty (sanitize_text (run_text r)))).
  { rewrite bind_Ok in Hproc. injection Hproc as <- <-. left.
    simpl app. now rewrite Hmid. }
  destruct (structural r).
  { rewrite bind_Ok in Hproc. injection Hproc as <- <-. left.
    simpl app. now rewrite Hmid. }
  destruct (split_into_chunks (sanitize_text (run_text r))) as [|chunk chunks]
    eqn:Hc.
  { rewrite bind_Ok in Hproc. injection Hproc as <- <-. left.
    simpl app. now rewrite Hmid. }
  destruct (emitted_runs zipf threshold r _ (chunk :: chunks)) as [[rs k]|e]
    eqn:Hem; [|discriminate].
  rewrite !bind_Ok in Hproc. injection Hproc as <- <-. right.
  exists rs. split; [reflexivity|].
  pose proof (emitted_runs_texts _ _ _ _ _ _ _ Hem) as Htexts.
  destruct (emitted_runs_styles _ _ _ _ _ _ _ Hem) as [Hstyles Hk].
  split; [exact Htexts|]. split; [exact Hstyles|]. split; [reflexivity|].
  simpl. rewrite <- (length_map run_text rs), Htexts, length_map. exact Hk.
Qed.

Lemma sanitize_text_filter (text : str) :
  sanitize_text text = List.filter (fun c => negb (is_ctrl_char c)) text.
Proof. destruct text; reflexivity. Qed.

Lemma filter_sublist {A : Type} (f : A -> bool) (l : list A) :
  List.filter f l `sublist_of` l.
Proof.
  induction l as [|x l IH]; [constructor|]. simpl.
  destruct (f x); now constructor.
Qed.

Lemma kept_char_filter (l : str) :
  List.filter kept_char l
  = List.filter (fun c => negb (is_ctrl_char c))
      (List.filter (fun c => negb (is_alpha c)) l).
Proof.
  induction l as [|x l IH]; [reflexivity|]. unfold kept_char in *. simpl.
  destruct (negb (is_alpha x)); simpl; [|exact IH].
  destruct (negb (is_ctrl_char x)); now rewrite IH.
Qed.

Lemma kept_char_sanitize (text : str) :
  List.filter kept_char (sanitize_text text) = List.filter kept_char text.
Proof.
  rewrite sanitize_text_filter.
  induction text as [|x l IH]; [reflexivity|]. unfold kept_char in *. simpl.
  destruct (negb (is_ctrl_char x)) eqn:Hc; simpl; rewrite ?Hc, ?andb_false_r, IH;
    reflexivity.
Qed.

Lemma as_written_sublist (s t : str) :
  s `sublist_of` t -> as_written s `sublist_of` as_written t.
Proof. induction 1; simpl; now constructor. Qed.

Lemma as_written_concat (l : list str) :
  as_written (concat l) = concat (List.map as_written l).
Proof. apply concat_map. Qed.

(** A carriage return and a line feed are kept alike. *)
Lemma kept_char_line_feed (c : N) : kept_char (line_feed c) = kept_char c.
Proof.
  unfold line_feed. destruct (N.eqb_spec c 13) as [->|_]; reflexivity.
Qed.

Lemma kept_char_as_written (t : str) :
  List.filter kept_char (as_written t) = as_written (List.filter kept_char t).
Proof.
  induction t as [|c t IH]; [reflexivity|]. simpl.
  rewrite kept_char_line_feed. destruct (kept_char c); simpl; now rewrite IH.
Qed.

Lemma forallb_sublist {A : Type} (f : A -> bool) (s t : list A) :
  s `sublist_of` t -> forallb f t = true -> forallb f s = true.
Proof.
  induction 1 as [|x s t _ IH|x s t _ IH]; simpl; intros H;
    [reflexivity | |];
    apply andb_true_iff in H as [Hx Ht]; rewrite ?Hx; auto.
Qed.

(** With the oracle at hand, what is put in the place of a run reads as
    the text of the run with control characters and Latin letters left
    out, and with nothing else left out; carriage returns are written as
    line feeds. *)
Lemma rewritten_run_text (zipf : str -> spec_float) (threshold : spec_float)
    (r : Run) :
  exists (new : list Run) (e : nat),
    rewritten_run (Some zipf) threshold r
    = Ok (new, ((if nonempty (sanitize_text (run_text r)) then 1 else 0)%nat, e))
    /\ as_written (flat_text new) `sublist_of` as_written (run_text r)
    /\ List.filter kept_char (as_written (flat_text new))
       = List.filter kept_char (as_written (run_text r))
    /\ (forallb (fun c => negb (c =? 13)%N) (run_text r) = true ->
        flat_text new `sublist_of` run_text r
        /\ List.filter kept_char (flat_text new)
           = List.filter kept_char (run_text r)
        /\ forallb (fun c => negb (c =? 13)%N) (flat_text new) = true).
Proof.
  assert (Hself : flat_text [r] = run_text r)
    by (unfold flat_text; simpl; apply app_nil_r).
  assert (Hsame : exists (new : list Run) (e : nat),
            Ok ([r], ((if nonempty (sanitize_text (run_text r))
                       then 1 else 0)%nat, 0%nat))
            = Ok (new, ((if nonempty (sanitize_text (run_text r))
                         then 1 else 0)%nat, e))
            /\ as_written (flat_text new) `sublist_of` as_written (run_text r)
            /\ List.filter kept_char (as_written (flat_text new))
               = List.filter kept_char (as_written (run_text r))
            /\ (forallb (fun c => negb (c =? 13)%N) (run_text r) = true ->
                flat_text new `sublist_of` run_text r
                /\ List.filter kept_char (flat_text new)
                   = List.filter kept_char (run_text r)
                /\ forallb (fun c => negb (c =? 13)%N) (flat_text new) = true)).
  { exists [r], 0%nat. rewrite Hself.
    split; [reflexivity|]. split; [reflexivity|]. split; [reflexivity|].
    intros H. split; [reflexivity|]. split; [reflexivity | exact H]. }
  unfold rewritten_run.
  destruct (nonempty (sanitize_text (run_text r))); simpl negb; cbv iota;
    [|exact Hsame].
  destruct (structural r); [exact Hsame|].
  destruct (split_into_chunks (sanitize_text (run_text r))) as [|chunk chunks]
    eqn:Hc; [exact Hsame|]. clear Hsame.
  destruct (emitted_runs_total zipf threshold r
              (Some (default [] (font_name r))) (chunk :: chunks))
    as (rs & k & Hem).
  rewrite Hem, bind_Ok. exists (set_text [] r :: rs), k.
  split; [reflexivity|].
  assert (Hflat : flat_text (set_text [] r :: rs)
                  = as_written
                      (concat (split_into_chunks (sanitize_text (run_text r))))).
  { unfold flat_text. simpl List.map. simpl concat. rewrite Hc.
    now rewrite (emitted_runs_texts _ _ _ _ _ _ _ Hem), as_written_concat. }
  rewrite Hflat, as_written_idem.
  destruct (split_into_chunks_spec (sanitize_text (run_text r)))
    as (_ & Hsub & Hfilter).
  assert (Hsub' : concat (split_into_chunks (sanitize_text (run_text r)))
                  `sublist_of` run_text r).
  { etransitivity; [exact Hsub|]. rewrite sanitize_text_filter.
    apply filter_sublist. }
  assert (Hkept : List.filter kept_char
                    (concat (split_into_chunks (sanitize_text (run_text r))))
                  = List.filter kept_char (run_text r)).
  { rewrite kept_char_filter, Hfilter, <- kept_char_filter.
    apply kept_char_sanitize. }
  split; [now apply as_written_sublist|].
  split; [now rewrite !kept_char_as_written, Hkept|].
  intros Hcr.
  pose proof (forallb_sublist _ _ _ Hsub' Hcr) as Hcr'.
  rewrite (as_written_id _ Hcr'). auto.
Qed.

Lemma rewritten_runs_text (zipf : str -> spec_float) (threshold : spec_float)
    (runs : list Run) :
  exists (new : list Run) (e : nat),
    rewritten_runs (Some zipf) threshold runs
    = Ok (new,
          (length (List.filter
                     (fun r => nonempty (sanitize_text (run_text r))) runs), e))
    /\ as_written (flat_text new) `sublist_of` as_written (flat_text runs)
    /\ List.filter kept_char (as_written (flat_text new))
       = List.filter kept_char (as_written (flat_text runs))
    /\ (forallb (fun c => negb (c =? 13)%N) (flat_text runs) = true ->
        flat_text new `sublist_of` flat_text runs
        /\ List.filter kept_char (flat_text new)
           = List.filter kept_char (flat_text runs)
        /\ forallb (fun c => negb (c =? 13)%N) (flat_text new) = true)
    /\ (length runs <= length new)%nat.
Proof.
  induction runs
    as [|r runs (rest & e2 & Hrest & Hsub2 & Hkeep2 & Hcr2 & Hlen2)].
  - exists [], 0%nat. simpl. repeat split; auto.
  - destruct (rewritten_run_text zipf threshold r)
      as (new & e1 & Hnew & Hsub1 & Hkeep1 & Hcr1).
    pose proof (rewritten_run_nonempty _ _ _ _ _ Hnew) as Hlen1.
    exists (new ++ rest), (e1 + e2)%nat.
    change (rewritten_runs (Some zipf) threshold (r :: runs))
      with ('(new, (s1, e1)) ← rewritten_run (Some zipf) threshold r;
            '(rest', (s2, e2)) ← rewritten_runs (Some zipf) threshold runs;
            Ok (new ++ rest', (s1 + s2, e1 + e2)%nat)).
    rewrite Hnew, bind_Ok, Hrest, bind_Ok.
    change (r :: runs) with ([r] ++ runs).
    rewrite !flat_text_app, !as_written_app, !List.filter_app, !length_app.
    assert (Hself : flat_text [r] = run_text r)
      by (unfold flat_text; simpl; apply app_nil_r).
    rewrite Hself. split; [|split; [|split; [|split]]].
    + do 3 f_equal. simpl.
      destruct (nonempty (sanitize_text (run_text r))); reflexivity.
    + now apply sublist_app.
    + now rewrite Hkeep1, Hkeep2.
    + intros Hcr. rewrite forallb_app in Hcr.
      apply andb_true_iff in Hcr as [Ha Hb].
      destruct (Hcr1 Ha) as (A1 & A2 & A3).
      destruct (Hcr2 Hb) as (B1 & B2 & B3).
      rewrite forallb_app, A2, B2, A3, B3.
      split; [now apply sublist_app | auto].
    + simpl length at 1. lia.
Qed.

(** X8.  With the oracle at hand [process_paragraph] never raises, and the
    text of the paragraph it leaves is the text it found with some
    control characters and Latin letters left out, a carriage return
    counting as the line feed it is written as: read in that way, the
    characters stay in order, and every character that is neither a Latin
    letter nor a control character is kept.  For a text without carriage
    return this holds of the texts as they are.  No run is removed, and
    [runs_scanned] is the number of runs whose sanitized text is not
    empty. *)
Theorem process_paragraph_keeps_text (zipf : str -> spec_float)
    (paragraph : Paragraph) (threshold : spec_float) :
  exists (paragraph' : Paragraph) (english_changed : nat),
    process_paragraph (Some zipf) paragraph threshold
    = Ok (paragraph',
          (length (List.filter
                     (fun r => nonempty (sanitize_text (run_text r)))
                     paragraph),
           english_changed))
    /\ as_written (flat_text paragraph')
       `sublist_of` as_written (flat_text paragraph)
    /\ List.filter kept_char (as_written (flat_text paragraph'))
       = List.filter kept_char (as_written (flat_text paragraph))
    /\ (forallb (fun c => negb (c =? 13)%N) (flat_text paragraph) = true ->
        flat_text paragraph' `sublist_of` flat_text paragraph
        /\ List.filter kept_char (flat_text paragraph')
           = List.filter kept_char (flat_text paragraph))
    /\ (length paragraph <= length paragraph')%nat.
Proof.
  destruct (rewritten_runs_text zipf threshold paragraph)
    as (new & e & Hnew & Hsub & Hkeep & Hcr & Hlen).
  exists new, e. split.
  { unfold process_paragraph.
    etransitivity;
      [exact (process_runs_spec (Some zipf) threshold paragraph []
                (0, 0)%nat)|].
    now rewrite Hnew. }
  split; [exact Hsub|]. split; [exact Hkeep|]. split; [|exact Hlen].
  intros H. destruct (Hcr H) as (H1 & H2 & _). auto.
Qed.

(* ===================================================================== *)
(** ** Sentence mode: the text map *)
(* ===================================================================== *)

Lemma text_map_from_lookup (runs : Paragraph) :
  forall (index cursor i : nat) (r : Run),
  runs !! i = Some r ->
  snd (text_map_from runs index cursor) !! i
  = Some ((index + i)%nat,
          (cursor + length (flat_text (take i runs)))%nat,
          (cursor + length (flat_text (take i runs))
           + length (run_text r))%nat).
Proof.
  induction runs as [|r0 runs IH]; intros index cursor i r Hi.
  - destruct i; discriminate.
  - simpl text_map_from.
    specialize (IH (S index) (cursor + length (run_text r0))%nat).
    destruct (text_map_from runs (S index) (cursor + length (run_text r0)))
      as [full mapping].
    destruct i as [|i].
    + injection Hi as <-. simpl. unfold flat_text. simpl.
      now rewrite !Nat.add_0_r.
    + simpl in *. rewrite (IH i r Hi).
      change (flat_text (r0 :: take i runs))
        with (flat_text ([r0] ++ take i runs)).
      rewrite flat_text_app, length_app.
      assert (Hself : flat_text [r0] = run_text r0)
        by (unfold flat_text; simpl; apply app_nil_r).
      rewrite Hself. do 2 f_equal; [f_equal|]; lia.
Qed.

Lemma text_map_from_length (runs : Paragraph) :
  forall index cursor,
  length (snd (text_map_from runs index cursor)) = length runs.
Proof.
  induction runs as [|r runs IH]; intros index cursor; [reflexivity|].
  simpl. specialize (IH (S index) (cursor + length (run_text r))%nat).
  destruct (text_map_from runs _ _). simpl in *. now rewrite IH.
Qed.

(** X9.  [build_paragraph_text_map] returns the texts of the runs joined
    in order and one entry for each run, in order: the entry of the run at
    position [i] names that run, starts where the texts of the runs
    before it end, is as long as the text of the run, and the flattened
    text between its bounds is the text of the run. *)
Theorem text_map_is_consistent (paragraph : Paragraph) :
  let '(full_text, mapping) := build_paragraph_text_map paragraph in
  full_text = flat_text paragraph
  /\ length mapping = length paragraph
  /\ forall (i : nat) (r : Run),
       paragraph !! i = Some r ->
       exists start : nat,
         mapping !! i = Some (i, start, (start + length (run_text r))%nat)
         /\ start = length (flat_text (take i paragraph))
         /\ (start + length (run_text r) <= length full_text)%nat
         /\ take (length (run_text r)) (drop start full_text) = run_text r.
Proof.
  pose proof (build_paragraph_text_map_fst paragraph) as Hfst.
  pose proof (text_map_from_length paragraph 0 0) as Hlen.
  pose proof (text_map_from_lookup paragraph 0 0) as Hlook.
  unfold build_paragraph_text_map in *.
  destruct (text_map_from paragraph 0 0) as [full mapping]. simpl in *.
  subst full. split; [reflexivity|]. split; [exact Hlen|].
  intros i r Hi. exists (length (flat_text (take i paragraph))).
  split; [apply (Hlook i r Hi)|]. split; [reflexivity|].
  rewrite <- (take_drop_middle paragraph i r Hi) at 2 4.
  change (r :: drop (S i) paragraph) with ([r] ++ drop (S i) paragraph).
  rewrite !flat_text_app.
  assert (Hself : flat_text [r] = run_text r)
    by (unfold flat_text; simpl; apply app_nil_r).
  rewrite Hself. split.
  - rewrite !length_app. lia.
  - rewrite drop_app_length. now rewrite take_app_length.
Qed.

(* ===================================================================== *)
(** ** Sentence mode: one match *)
(* ===================================================================== *)

Lemma split_parts_nonempty (r : Run) (lo hi : Z) :
  (1 <= length (split_parts r lo hi))%nat.
Proof.
  unfold split_parts. rewrite !length_app. simpl. lia.
Qed.




























(* ===================================================================== *)
(** ** Sentence mode: the loop against one pass over the text *)
(* ===================================================================== *)









Lemma contains_find_at (sub : str) (s : str) :
  forall i : nat, contains sub s = false -> find_at sub s i = None.
Proof.
  induction s as [|c s IH]; intros i H; simpl in *.
  - apply orb_false_elim in H as [-> _]. reflexivity.
  - apply orb_false_elim in H as [-> H]. now apply IH.
Qed.

(** X12.  A sentence that does not occur in the text of a paragraph leaves
    the paragraph as it is, run for run (no run inserted or emptied, no
    formatting touched), and counts nothing. *)
Theorem absent_sentence_changes_nothing (paragraph : Paragraph)
    (sentence : str) :
  contains sentence (flat_text paragraph) = false ->
  apply_sentence_to_paragraph paragraph sentence = (paragraph, 0%nat).
Proof.
  intros H. unfold apply_sentence_to_paragraph.
  destruct (negb (nonempty sentence)); [reflexivity|].
  unfold rescan_fuel. simpl rescan.
  assert (Hstep : rescan_step sentence
                    {| rs_paragraph := paragraph; rs_search_from := 0;
                       rs_converted := 0; rs_spans := [] |} = None).
  { unfold rescan_step. simpl rs_paragraph. simpl rs_search_from.
    pose proof (build_paragraph_text_map_fst paragraph) as Hfull.
    destruct (build_paragraph_text_map paragraph) as [full mapping].
    simpl in Hfull. subst full.
    destruct (negb _ || _); [reflexivity|].
    unfold search_literal. rewrite drop_0.
    now rewrite (contains_find_at sentence _ 0 H). }
  rewrite Hstep. reflexivity.
Qed.

(* ===================================================================== *)
(** ** Sentences extracted from free text *)
(* ===================================================================== *)

(** The deduplication loop appends to what it has kept, takes its
    additions from the images in their order, and keeps no string
    twice. *)
Lemma dedupe_fold_shape (f : str -> str) (l : list str) :
  forall st : list str * gset str,
  dedupe_inv st -> NoDup (fst st) ->
  exists k : list str,
    fst (fold_left (dedupe_step f) l st) = fst st ++ k
    /\ k `sublist_of` List.map f l
    /\ NoDup (fst st ++ k).
Proof.
  induction l as [|s l IH]; intros st Hinv Hnd.
  - exists []. rewrite app_nil_r. simpl. split; [reflexivity|].
    split; [constructor | exact Hnd].
  - simpl fold_left.
    pose proof (dedupe_step_inv f st s Hinv) as Hinv1.
    destruct st as [ordered seen].
    destruct (dedupe_step f (ordered, seen) s) as [o1 s1] eqn:Hstep.
    unfold dedupe_step in Hstep. simpl in Hnd.
    destruct (nonempty (f s) && negb (bool_decide (f s ∈ seen))) eqn:Hc.
    + injection Hstep as <- <-.
      apply andb_true_iff in Hc as [_ Hseen].
      apply negb_true_iff, bool_decide_eq_false in Hseen.
      assert (Hnd1 : NoDup (ordered ++ [f s])).
      { apply NoDup_app. split; [exact Hnd|]. split; [|apply NoDup_singleton].
        intros x Hx Hx'. apply list_elem_of_singleton in Hx'. subst x.
        apply Hseen. apply (Hinv (f s)). simpl.
        now apply list_elem_of_In. }
      destruct (IH _ Hinv1 Hnd1) as (k & Hk & Hsub & Hndk).
      exists (f s :: k). simpl fst in *.
      rewrite Hk, <- app_assoc. split; [reflexivity|].
      split; [now apply sublist_skip|].
      now rewrite <- app_assoc in Hndk.
    + injection Hstep as <- <-.
      destruct (IH _ Hinv1 Hnd) as (k & Hk & Hsub & Hndk).
      exists k. simpl fst in *. split; [exact Hk|].
      split; [now apply sublist_cons | exact Hndk].
Qed.

Lemma dedupe_shape (f : str -> str) (l : list str) :
  NoDup (dedupe f l) /\ dedupe f l `sublist_of` List.map f l.
Proof.
  destruct (dedupe_fold_shape f l ([], ∅)) as (k & Hk & Hsub & Hnd).
  - intros s. simpl. rewrite elem_of_empty. hide_tables. tauto.
  - constructor.
  - unfold dedupe. rewrite Hk. simpl in *. auto.
Qed.

(** X13.  The sentences [extract_sentences] returns, whatever the regular
    expression engine matches: no sentence comes twice, the sentences are
    exactly the stripped first groups of the matches that are not empty,
    they come in the order of the matches, and each is already stripped.
    An empty text gives none. *)
Theorem extract_sentences_result (text : str) :
  NoDup (extract_sentences text)
  /\ extract_sentences text
     `sublist_of` List.map strip (SENTENCE_SPLIT_RE_groups text)
  /\ forall x : str,
       In x (extract_sentences text)
       <-> text <> [] /\ x <> [] /\ strip x = x
           /\ exists g, In g (SENTENCE_SPLIT_RE_groups text) /\ x = strip g.
Proof.
  unfold extract_sentences. destruct text as [|c text]; simpl negb; cbv iota.
  - split; [constructor|]. split; [apply sublist_nil_l|].
    intros x. split; [intros [] | intros [H _]; congruence].
  - destruct (dedupe_shape id (List.map strip
                                 (SENTENCE_SPLIT_RE_groups (c :: text))))
      as [Hnd Hsub].
    rewrite List.map_id in Hsub.
    split; [exact Hnd|]. split; [exact Hsub|].
    intros x. split.
    + intros H. apply dedupe_from in H as (y & Hy & -> & Hne).
      unfold id in *. apply in_map_iff in Hy as (g & <- & Hg).
      split; [discriminate|]. split; [exact Hne|].
      split; [apply strip_idem|]. exists g. auto.
    + intros (_ & Hne & _ & g & Hg & ->).
      apply (dedupe_In id (List.map strip _) (strip g));
        [apply in_map_iff; exists g; auto | exact Hne].
Qed.

(* ===================================================================== *)
(** ** Sentence mode: the tables it reaches *)
(* ===================================================================== *)

Lemma map_sum_fst {A : Type} (f : A -> A * nat) (l : list A) :
  fst (map_sum f l) = List.map (fun a => fst (f a)) l.
Proof.
  induction l as [|a l IH]; [reflexivity|]. simpl.
  destruct (f a) as [a' n]. destruct (map_sum f l) as [l' n'].
  simpl in *. now rewrite IH.
Qed.

(** A cell put in the place of one with the same image leaves the images
    as they are. *)
Lemma map_insert_same {A B : Type} (Q : A -> B) (l : list A) :
  forall (i : nat) (c c' : A),
  l !! i = Some c -> Q c' = Q c ->
  List.map Q (<[i := c']> l) = List.map Q l.
Proof.
  induction l as [|x l IH]; intros i c c' Hi HQ; [reflexivity|].
  destruct i as [|i]; simpl in *.
  - injection Hi as ->. now rewrite HQ.
  - f_equal. now apply (IH i c c').
Qed.

(** What the body of the loops over the cells keeps of a cell is kept of
    every cell of the table, however often a cell is listed. *)
Lemma map_cells_frame {B : Type} (Q : Cell -> B) (body : Cell -> Cell * nat)
    (t : Table) :
  (forall c, Q (fst (body c)) = Q c) ->
  List.map Q (table_cells (fst (map_cells body t)))
  = List.map Q (table_cells t).
Proof.
  intros HQ. unfold map_cells.
  assert (H : forall (idxs : list nat) (cells : list Cell) (n : nat),
            List.map Q
              (fst (fold_left
                      (fun (st : list Cell * nat) (idx : nat) =>
                         let '(cells, n) := st in
                         match cells !! idx with
                         | None => (cells, n)
                         | Some cell =>
                             let '(cell', k) := body cell in
                             (<[idx := cell']> cells, (n + k)%nat)
                         end) idxs (cells, n)))
            = List.map Q cells).
  { induction idxs as [|idx idxs IH]; intros cells n; [reflexivity|].
    simpl fold_left. destruct (cells !! idx) as [cell|] eqn:Hc; [|apply IH].
    pose proof (HQ cell) as Hcell. destruct (body cell) as [cell' k].
    rewrite IH. now apply (map_insert_same Q cells idx cell cell'). }
  specialize (H (concat (table_rows t)) (table_cells t) 0%nat).
  destruct (fold_left _ _ _) as [cells n]. exact H.
Qed.

(** Where only the paragraphs of the cells are visited, the tables of the
    cells are as they were. *)
Lemma sentences_flat_table_nested (ss : list str) (t : Table) :
  nested_tables (fst (sentences_flat_table ss t)) = nested_tables t.
Proof.
  unfold nested_tables, sentences_flat_table. apply map_cells_frame.
  intros c. now destruct (process_paragraphs ss (cell_paragraphs c)).
Qed.

Lemma sentences_header_footer_nested (ss : list str)
    (hf : option HeaderFooter) :
  List.map nested_tables (tables_of (fst (sentences_header_footer ss hf)))
  = List.map nested_tables (tables_of hf).
Proof.
  destruct hf as [h|]; [|reflexivity]. unfold sentences_header_footer.
  destruct (process_paragraphs ss (hf_paragraphs h)) as [ps n1].
  pose proof (map_sum_fst (sentences_flat_table ss) (hf_tables h)) as Hts.
  destruct (map_sum (sentences_flat_table ss) (hf_tables h)) as [ts n2].
  simpl in *. subst ts. rewrite List.map_map. apply map_ext.
  intros t. apply sentences_flat_table_nested.
Qed.

(** X14.  What the sentence mode never reaches: in the headers and
    footers, the tables nested in the cells of a table; in the body, the
    tables nested in the cells of a table that is itself nested in a cell.
    They are after [apply_sentences_docx] what they were before, whatever
    the sentences and however the rows list the cells. *)
Theorem sentence_mode_skips_nested_tables (ss : list str) (doc : Document) :
  let doc' := fst (sentences_document ss doc) in
  List.map (fun sec =>
              (List.map nested_tables (tables_of (header sec)),
               List.map nested_tables (tables_of (footer sec))))
    (sections doc')
  = List.map (fun sec =>
                (List.map nested_tables (tables_of (header sec)),
                 List.map nested_tables (tables_of (footer sec))))
      (sections doc)
  /\ List.map (fun t =>
                 List.map (fun c => List.map nested_tables (cell_tables c))
                   (table_cells t))
       (tables doc')
     = List.map (fun t =>
                   List.map (fun c => List.map nested_tables (cell_tables c))
                     (table_cells t))
         (tables doc).
Proof.
  cbv zeta. unfold sentences_document.
  destruct (process_paragraphs ss (paragraphs doc)) as [ps n1].
  pose proof (map_sum_fst (sentences_body_table ss) (tables doc)) as Hts.
  destruct (map_sum (sentences_body_table ss) (tables doc)) as [ts n2].
  match goal with
  | |- context [map_sum ?f (sections doc)] =>
      pose proof (map_sum_fst f (sections doc)) as Hsecs;
      destruct (map_sum f (sections doc)) as [secs n3]
  end.
  simpl in *. subst ts secs. rewrite !List.map_map. split.
  - apply map_ext. intros sec.
    pose proof (sentences_header_footer_nested ss (header sec)) as Hh.
    pose proof (sentences_header_footer_nested ss (footer sec)) as Hf.
    destruct (sentences_header_footer ss (header sec)) as [h nh].
    destruct (sentences_header_footer ss (footer sec)) as [f nf].
    simpl in *. now rewrite Hh, Hf.
  - apply map_ext. intros t. unfold sentences_body_table.
    apply map_cells_frame. intros c.
    destruct (process_paragraphs ss (cell_paragraphs c)) as [cps m1].
    pose proof (map_sum_fst (sentences_flat_table ss) (cell_tables c))
      as Hnt.
    destruct (map_sum (sentences_flat_table ss) (cell_tables c))
      as [nts m2].
    simpl in *. subst nts. rewrite List.map_map. apply map_ext.
    intros nt. apply sentences_flat_table_nested.
Qed.

(* ===================================================================== *)
(** ** How a run of the program ends *)
(* ===================================================================== *)

Lemma resolve_out_path_ne (w : World) (input : str) (out : option str) :
  posixpath.abspath (getcwd w) (resolve_out_path w input out)
  <> posixpath.abspath (getcwd w) input.
Proof.
  unfold resolve_out_path, posixpath.str_eqb.
  case_bool_decide as Heq; [apply fixed_path_abspath_ne | exact Heq].
Qed.

(** When [convert_docx] returns. *)
Lemma convert_docx_cases (w : World) (zipf : oracle)
    (input : str) (out : option str) (threshold : spec_float)
    (dry : bool) :
  match convert_docx w zipf input out threshold dry with
  | Ok None => dry = true /\ isfile w input = true
  | Ok (Some (path, doc)) =>
      dry = false /\ isfile w input = true
      /\ path = resolve_out_path w input out
      /\ save_document w path doc = None
  | Raise _ => True
  end.
Proof.
  unfold convert_docx. destruct (isfile w input) eqn:Hfile; simpl negb;
    cbv iota; [|exact I].
  destruct (open_document w input) as [d|] eqn:Hopen; [|exact I].
  destruct (traverse _ (paragraphs d)) as [[ps c1]|e]; [|exact I].
  rewrite bind_Ok.
  destruct (traverse _ (tables d)) as [[ts c2]|e]; [|exact I].
  rewrite bind_Ok.
  destruct (process_headers_footers _ _ _ (sections d)) as [[secs c3]|e];
    [|exact I].
  rewrite bind_Ok. destruct dry; [auto|].
  destruct (save_document w _ _) as [failure|] eqn:Hsave; [exact I | auto].
Qed.

(** When [apply_sentences_docx] returns. *)
Lemma apply_sentences_docx_cases (w : World) (input : str)
    (out : option str) (ss : list str) :
  match apply_sentences_docx w input out ss with
  | Ok (path, doc, _) =>
      isfile w input = true
      /\ path = resolve_out_path w input out
      /\ save_document w path doc = None
  | Raise _ => True
  end.
Proof.
  unfold apply_sentences_docx. destruct (isfile w input) eqn:Hfile;
    simpl negb; cbv iota; [|exact I].
  destruct (open_document w input) as [d|] eqn:Hopen; [|exact I].
  destruct (sentences_document ss d) as [d' n].
  destruct (save_document w _ _) as [failure|] eqn:Hsave; [exact I | auto].
Qed.

(** X15.  How a run of [main] ends, for every command line, whatever the
    argument parser makes of it, and for every file system and oracle.
    When the parser ends the program itself (as for [-h]) the status is
    the parser's and nothing is written.  Otherwise: the window opens only
    under [--gui] with tkinter at hand; the status is 3 exactly when
    [--gui] is given without tkinter, and 0, 1 or 2 if not.  A document is
    written only with status 0, after the input file was found and the
    save went through, to the path computed from the input and [--out],
    which never names the input file; the frequency mode writes none in a
    dry run, and status 0 without a written document is a dry run of the
    frequency mode.  Without [--in], and in the frequency mode without
    the oracle, the status is 2 and nothing is written. *)
Theorem main_outcomes (w : World) (zipf : oracle) (argv : list str) :
  match main_argv w zipf argv, parse_args argv with
  | Exit code written, inl status => code = status /\ written = None
  | Gui, inl _ => False
  | Gui, inr args => gui args = true /\ tk_available w = true
  | Exit code written, inr args =>
      let input := default [] (in_path args) in
      let target := resolve_out_path w input (out_path args) in
      ((code = 3 /\ gui args = true /\ tk_available w = false
        /\ written = None)
       \/ (gui args = false /\ (code = 0 \/ code = 1 \/ code = 2)))%Z
      /\ (forall path doc,
            written = Some (path, doc) ->
            code = 0%Z
            /\ isfile w input = true
            /\ path = target
            /\ save_document w path doc = None
            /\ posixpath.abspath (getcwd w) path
               <> posixpath.abspath (getcwd w) input
            /\ (sentence_mode args = false -> dry_run args = false))
      /\ (code = 0%Z -> written = None ->
            sentence_mode args = false /\ dry_run args = true)
      /\ (gui args = false ->
          truthy (in_path args) = false
          \/ (sentence_mode args = false /\ zipf = None) ->
          code = 2%Z /\ written = None)
  end.
Proof.
  unfold main_argv. destruct (parse_args argv) as [status|args];
    [split; reflexivity|].
  cbv zeta. unfold main, sentence_mode, launch_gui.
  assert (Hnone : forall code : Z,
            (code = 1 \/ code = 2)%Z -> gui args = false ->
            ((code = 3 /\ gui args = true /\ tk_available w = false
              /\ @None (str * Document) = None)
             \/ (gui args = false /\ (code = 0 \/ code = 1 \/ code = 2)))%Z)
    by (intros code Hc Hg; right; split; [exact Hg | lia]).
  destruct (gui args) eqn:Hgui.
  { destruct (tk_available w) eqn:Htk; simpl negb; cbv iota.
    - split; reflexivity.
    - split; [left; auto|]. split; [discriminate|].
      split; [intros ?; discriminate | intros ?; discriminate]. }
  destruct (truthy (sentences args) || truthy (sentences_file args)) eqn:Hmode.
  - destruct (truthy (in_path args)) eqn:Hin; simpl negb; cbv iota.
    2:{ split; [apply Hnone; auto|]. split; [discriminate|].
        split; [intros ?; discriminate | auto]. }
    destruct (if truthy (sentences_file args) then _ else _) as [from_file|].
    2:{ split; [apply Hnone; auto|]. split; [discriminate|].
        split; [intros ?; discriminate | auto]. }
    destruct (negb (nonempty_list _)).
    { split; [apply Hnone; auto|]. split; [discriminate|].
      split; [intros ?; discriminate | auto]. }
    match goal with
    | |- context [apply_sentences_docx w ?i ?o ?ss] =>
        pose proof (apply_sentences_docx_cases w i o ss) as Hcases;
        destruct (apply_sentences_docx w i o ss) as [[[path doc] n]|e]
    end.
    + destruct Hcases as (Hfile & Hpath & Hsave).
      split; [right; split; [reflexivity | lia]|].
      split; [|split; [discriminate|]].
      * intros path' doc' E. injection E as <- <-.
        split; [reflexivity|]. split; [exact Hfile|]. split; [exact Hpath|].
        split; [exact Hsave|]. split; [|discriminate].
        rewrite Hpath. apply resolve_out_path_ne.
      * intros _ [H|[H _]]; discriminate.
    + split; [apply Hnone; auto|]. split; [discriminate|].
      split; [intros ?; discriminate|].
      intros _ [H|[H _]]; discriminate.
  - destruct (truthy (in_path args)) eqn:Hin; simpl negb; cbv iota.
    2:{ split; [apply Hnone; auto|]. split; [discriminate|].
        split; [intros ?; discriminate | auto]. }
    destruct zipf as [z|].
    2:{ split; [apply Hnone; auto|]. split; [discriminate|].
        split; [intros ?; discriminate | auto]. }
    pose proof (convert_docx_cases w (Some z) (default [] (in_path args))
                  (out_path args) (threshold args) (dry_run args)) as Hcases.
    destruct (convert_docx w (Some z) _ _ _ _) as [[[path doc]|]|e].
    + destruct Hcases as (Hdry & Hfile & Hpath & Hsave).
      split; [right; split; [reflexivity | lia]|].
      split; [|split; [discriminate|]].
      * intros path' doc' E. injection E as <- <-.
        split; [reflexivity|]. split; [exact Hfile|]. split; [exact Hpath|].
        split; [exact Hsave|]. split; [|intros _; exact Hdry].
        rewrite Hpath. apply resolve_out_path_ne.
      * intros _ [H|[_ H]]; discriminate.
    + destruct Hcases as (Hdry & Hfile).
      split; [right; split; [reflexivity | lia]|].
      split; [discriminate|]. split; [intros _ _; auto|].
      intros _ [H|[_ H]]; discriminate.
    + destruct e; (split; [apply Hnone; auto|]; split; [discriminate|];
        split; [intros ?; discriminate|];
        intros _ [H|[_ H]]; discriminate).
Qed.

End Engine.

(* ===================================================================== *)
(** ** The claims on concrete inputs *)
(* ===================================================================== *)

(** C1.  A Latin letter that stands alone is lost: on "I am" the tokenizer
    returns the chunks " " and "am", whose concatenation is not the text,
    and [process_run] then empties the run and emits runs for these two
    chunks only, whatever the oracle and the threshold. *)
Theorem isolated_letter_lost :
  let text := of_string "I am" in
  sanitize_text text = text
  /\ split_into_chunks unicode_white_space text
     = [of_string " "; of_string "am"]
  /\ concat (split_into_chunks unicode_white_space text) <> text
  /\ forall (lower_ext : N -> str) (zipf : str -> spec_float)
            (threshold : spec_float),
       exists (rs : list Run) (k : nat),
         process_run unicode_white_space lower_ext (Some zipf)
           [plain_run text None] 0 threshold
         = Ok (set_text [] (plain_run text None) :: rs, (1%nat, k))
         /\ List.map run_text rs = [of_string " "; of_string "am"]
         /\ flat_text (set_text [] (plain_run text None) :: rs)
            = of_string " am".
Proof.
  cbv zeta. split; [reflexivity|]. split; [reflexivity|].
  split; [vm_compute; discriminate|].
  intros lower_ext zipf threshold.
  destruct (process_run_emits_chunks unicode_white_space lower_ext zipf
              [plain_run (of_string "I am") None] 0
              (plain_run (of_string "I am") None) threshold)
    as (rs & k & Hrun & Htexts); [reflexivity | reflexivity | discriminate|].
  exists rs, k. rewrite app_nil_r in Hrun. split; [exact Hrun|].
  split; [exact Htexts|].
  unfold flat_text. simpl List.map. rewrite Htexts. reflexivity.
Qed.

(** C2.  The protection of field codes fails: [_is_run_field_code] answers
    no for every run, because its first look-up raises and the exception
    is taken for a no.  So a run with a field instruction and the text
    "PAGE 12", and a run of a simple field with that text, go through
    [process_run] and [split_run_apply_tnr] like any run: the run is
    emptied (the field instruction goes with its content) and new runs
    are put after it.  The half of the claim about hyperlinks holds: a run
    inside a hyperlink is left as it is, with the whole paragraph, by both
    functions, for every text, threshold, oracle and range. *)
Theorem field_code_run_rewritten :
  let r := instruction_run (of_string "PAGE 12") in
  let s := simple_field_run (of_string "PAGE 12") in
  (forall run : Run, _is_run_field_code run = false)
  /\ field_code_run r = true
  /\ field_code_run s = true
  /\ (forall (lower_ext : N -> str) (zipf : str -> spec_float)
             (threshold : spec_float) (x : Run),
        x = r \/ x = s ->
        exists (rs : list Run) (k : nat),
          process_run unicode_white_space lower_ext (Some zipf) [x] 0
            threshold
          = Ok (set_text [] x :: rs, (1%nat, k))
          /\ List.map run_text rs
             = [of_string "PAGE"; of_string " "; of_string "12"]
          /\ run_text (set_text [] x) = []
          /\ has_instrText (set_text [] x) = false)
  /\ split_run_apply_tnr [r] 0 0 4
     = [set_text [] r;
        set_ascii_hAnsi Times_New_Roman (styled_run r (of_string "PAGE"));
        styled_run r (of_string " 12")]
  /\ split_run_apply_tnr [s] 0 0 4
     = [set_text [] s;
        set_ascii_hAnsi Times_New_Roman (styled_run s (of_string "PAGE"));
        styled_run s (of_string " 12")]
  /\ (forall (re_space : N -> bool) (lower_ext : N -> str) (zipf : oracle)
             (paragraph : list Run) (run : nat) (x : Run)
             (threshold : spec_float) (local_start local_end : Z),
        paragraph !! run = Some x ->
        _is_run_in_hyperlink x = true ->
        (exists scanned,
           process_run re_space lower_ext zipf paragraph run threshold
           = Ok (paragraph, (scanned, 0%nat)))
        /\ split_run_apply_tnr paragraph run local_start local_end
           = paragraph).
Proof.
  cbv zeta. split; [intros run; reflexivity|].
  split; [reflexivity|]. split; [reflexivity|]. split.
  { intros lower_ext zipf threshold x Hx.
    destruct (process_run_emits_chunks unicode_white_space lower_ext zipf
                [x] 0 x threshold)
      as (rs & k & Hrun & Htexts);
      [reflexivity | destruct Hx as [-> | ->]; reflexivity
      | destruct Hx as [-> | ->]; discriminate |].
    exists rs, k. rewrite app_nil_r in Hrun. split; [exact Hrun|].
    split; [|split; reflexivity].
    rewrite Htexts. destruct Hx as [-> | ->]; reflexivity. }
  split; [reflexivity|]. split; [reflexivity|].
  intros re_space lower_ext zipf paragraph run x threshold local_start
    local_end Hrun Hlink.
  exact (hyperlink_protection re_space lower_ext zipf paragraph run x
           threshold local_start local_end Hrun Hlink).
Qed.

(** The frame condition on "am going" set in SutonnyMJ: the run of "going"
    is relabeled and keeps the other slots. *)
Lemma font_slot_frame_witness :
  let r := plain_run (of_string "am going") (Some sutonny_rFonts) in
  exists (paragraph' : list Run) (counts : nat * nat) (e : Run),
    process_run unicode_white_space keep_code_point (Some oracle_5) [r] 0
      default_threshold
    = Ok (paragraph', counts)
    /\ paragraph' !! 3%nat = Some e
    /\ run_text e = of_string "going"
    /\ rFonts_attr e "w:ascii" = Some Times_New_Roman
    /\ rFonts_attr e "w:asciiTheme" = None
    /\ rFonts_attr e "w:eastAsia" = rFonts_attr r "w:eastAsia"
    /\ rFonts_attr e "w:cs" = rFonts_attr r "w:cs"
    /\ rFonts_attr e "w:hint" = rFonts_attr r "w:hint".
Proof.
  cbv zeta.
  destruct (process_run unicode_white_space keep_code_point (Some oracle_5)
              [plain_run (of_string "am going") (Some sutonny_rFonts)] 0
              default_threshold) as [[paragraph' counts]|err] eqn:Hrun;
    [|vm_compute in Hrun; discriminate Hrun].
  destruct (font_slot_frame unicode_white_space keep_code_point
              (Some oracle_5)
              [plain_run (of_string "am going") (Some sutonny_rFonts)]
              paragraph' 0
              (plain_run (of_string "am going") (Some sutonny_rFonts))
              default_threshold counts 2 (of_string "going")
              eq_refl eq_refl Hrun eq_refl eq_refl)
    as (e & H0 & H1 & H2 & _ & H4 & _ & H6 & H7 & H8 & _).
  exists paragraph', counts, e. repeat split; assumption.
Defined.

(** The guard on "am" in a SutonnyMJ run, with a score of 7.0. *)
Lemma short_token_guard_witness :
  (2 <= length (_clean_token (of_string "am")) <= 3)%nat
  /\ contains sutonny (lower keep_code_point (of_string "SutonnyMJ")) = true
  /\ should_use_tnr keep_code_point (Some oracle_7) (of_string "am")
       default_threshold (Some (of_string "SutonnyMJ"))
     = Ok false.
Proof.
  assert (H1 : (2 <= length (_clean_token (of_string "am")) <= 3)%nat)
    by (vm_compute; lia).
  assert (H2 : contains sutonny (lower keep_code_point (of_string "SutonnyMJ"))
               = true) by reflexivity.
  split; [exact H1|]. split; [exact H2|].
  exact (short_token_guard keep_code_point oracle_7 (of_string "am")
           default_threshold (of_string "SutonnyMJ") H1 H2).
Defined.

(** C5, as stated, fails on a one-letter token: the oracle scores "a" at
    7.0, above the threshold 3.5, and [is_english_word] answers no at 3.5,
    because the token has fewer than two characters. *)
Lemma classifier_monotone_counterexample :
  float_ge (oracle_7 (of_string "a")) default_threshold = true
  /\ float_le default_threshold default_threshold = true
  /\ is_english_word keep_code_point (Some oracle_7) (of_string "a")
       default_threshold
     = Ok false.
Proof. repeat split. Qed.

(** Monotonicity on "going": scored 5.0, it passes at 3.5 and at 3.0. *)
Lemma classifier_monotone_witness :
  (2 <= length (keep_word_chars (of_string "going")))%nat
  /\ float_ge (oracle_5 (lower keep_code_point
                           (keep_word_chars (of_string "going"))))
       default_threshold = true
  /\ float_le float_3 default_threshold = true
  /\ is_english_word keep_code_point (Some oracle_5) (of_string "going")
       float_3
     = Ok true.
Proof.
  assert (H1 : (2 <= length (keep_word_chars (of_string "going")))%nat)
    by (vm_compute; lia).
  assert (H2 : float_ge (oracle_5 (lower keep_code_point
                                     (keep_word_chars (of_string "going"))))
                 default_threshold = true) by reflexivity.
  assert (H3 : float_le float_3 default_threshold = true) by reflexivity.
  split; [exact H1|]. split; [exact H2|]. split; [exact H3|].
  exact (classifier_monotone keep_code_point oracle_5 (of_string "going")
           default_threshold float_3 H1 H2 H3).
Defined.

(** Without the oracle, "going" raises in [is_english_word] and the
    sentence mode does not. *)
Lemma oracle_absence_confined_witness :
  is_english_word keep_code_point None (of_string "going") default_threshold
  = Raise ClassifierUnavailable
  /\ apply_sentences_docx empty_world
       (of_string "missing.docx") None [of_string "Hello world."]
     <> Raise ClassifierUnavailable.
Proof.
  destruct (oracle_absence_confined unicode_white_space python_isspace
              keep_code_point (fun _ => [])) as (H1 & H2 & _).
  split; [apply H1; vm_compute; lia | apply H2].
Defined.

(** C7.  A missing input file: in the sentence mode, on
    [--in missing.docx --sentences "Hello world."] with no such file,
    [main] ends with status 1, whatever the oracle and the tables; in the
    frequency mode a missing input file ends it with status 2. *)
Theorem missing_input_exit_status :
  (forall (re_space : N -> bool) (lower_ext : N -> str)
          (groups : str -> list str) (zipf : oracle),
     main re_space python_isspace lower_ext groups empty_world zipf
       missing_input_args
     = Exit 1 None)
  /\ (forall (re_space py_isspace : N -> bool) (lower_ext : N -> str)
             (groups : str -> list str) (w : World) (zipf : oracle)
             (args : Args),
        gui args = false ->
        truthy (sentences args) || truthy (sentences_file args) = false ->
        truthy (in_path args) = true ->
        isfile w (default [] (in_path args)) = false ->
        main re_space py_isspace lower_ext groups w zipf args = Exit 2 None).
Proof.
  split.
  - intros re_space lower_ext groups zipf.
    apply (main_sentence_missing_input re_space python_isspace lower_ext
             groups empty_world zipf missing_input_args
             (of_string "missing.docx") (of_string "Hello world."));
      try reflexivity; discriminate.
  - intros. now apply main_frequency_missing_input.
Qed.

(** C8, as stated, fails on an input path without extension: for "report"
    and no output path the document is saved to "report_fixed.docx", not
    to the stem, "_fixed" and the (empty) extension of the input. *)
Lemma default_output_path_counterexample :
  resolve_out_path full_world (of_string "report") None
  = of_string "report_fixed.docx"
  /\ resolve_out_path full_world (of_string "report") None
     <> fst (posixpath.splitext (of_string "report")) ++ _fixed
        ++ snd (posixpath.splitext (of_string "report")).
Proof. split; [reflexivity | vm_compute; discriminate]. Qed.

(** "./report.docx" given as the output of "report.docx" is replaced by
    "report_fixed.docx", which is also the default. *)
Lemma input_never_overwritten_witness :
  posixpath.abspath (getcwd full_world)
    (resolve_out_path full_world (of_string "report.docx")
       (Some (of_string "./report.docx")))
  <> posixpath.abspath (getcwd full_world) (of_string "report.docx")
  /\ resolve_out_path full_world (of_string "report.docx")
       (Some (of_string "./report.docx"))
     = of_string "report_fixed.docx"
  /\ resolve_out_path full_world (of_string "report.docx") None
     = of_string "report_fixed.docx".
Proof.
  destruct (input_never_overwritten unicode_white_space keep_code_point)
    as (H1 & _ & _ & H4 & H5 & _).
  split; [apply H1|]. split.
  - rewrite H5; [reflexivity | discriminate | reflexivity].
  - rewrite H4; reflexivity.
Defined.

(** C9.  The three-part split does not keep every text: the pieces are
    written with [run.text = ...], which writes a carriage return as a
    line break, so on the run "a<CR>b" split at [0, 1) the run after the
    target reads "<LF>b" and the emitted texts make up "a<LF>b", not the
    text of the run.  Nor does it keep every colour: a run whose colour is
    a theme colour with no value of its own is cloned with the value
    black.  What holds for every run outside a hyperlink and every range
    that is not empty once clamped: the run is emptied and followed, in
    order, by a run for the text before the range (only if there is some),
    a run for the text of the range with "Times New Roman" in its ascii
    and high-ANSI slots, and a run for the text after the range (only if
    there is some); each holds its piece as [run.text] writes it and has
    the style of the run and its font attributes as [clone_run_style]
    copies them, the runs before and after have its font mapping, and the
    three pieces make up the text of the run. *)
Theorem three_part_split_rewrites_text :
  let r := plain_run [97; 13; 98]%N None in
  let c := theme_colour_run (of_string "ab") in
  split_run_apply_tnr [r] 0 0 1
  = [set_text [] r;
     set_ascii_hAnsi Times_New_Roman (styled_run r [97%N]);
     styled_run r [13; 98]%N]
  /\ List.map run_text (split_run_apply_tnr [r] 0 0 1)
     = [[]; [97%N]; [10; 98]%N]
  /\ flat_text (split_run_apply_tnr [r] 0 0 1) <> run_text r
  /\ split_run_apply_tnr [c] 0 0 1
     = [set_text [] c;
        set_ascii_hAnsi Times_New_Roman (styled_run c (of_string "a"));
        styled_run c (of_string "b")]
  /\ rgb (color (run_font c)) = None
  /\ rgb (color (run_font (styled_run c (of_string "b")))) = Some 0%N
  /\ (forall (paragraph : list Run) (run : nat) (x : Run)
             (local_start local_end : Z),
        paragraph !! run = Some x ->
        structural x = false ->
        let text := run_text x in
        let len := Z.of_nat (length text) in
        let lo := Z.max 0 local_start in
        let hi := Z.min local_end len in
        (lo < hi)%Z ->
        let before := slice text 0 lo in
        let target := slice text lo hi in
        let after := slice text hi len in
        let r_target :=
          set_ascii_hAnsi Times_New_Roman (styled_run x target) in
        split_run_apply_tnr paragraph run local_start local_end
        = take run paragraph
          ++ set_text [] x
             :: (if nonempty before then [styled_run x before] else [])
             ++ [r_target]
             ++ (if nonempty after then [styled_run x after] else [])
             ++ drop (S run) paragraph
        /\ before ++ target ++ after = text
        /\ target <> []
        /\ run_text (set_text [] x) = []
        /\ run_text r_target = as_written target
        /\ rFonts_attr r_target "w:ascii" = Some Times_New_Roman
        /\ rFonts_attr r_target "w:hAnsi" = Some Times_New_Roman
        /\ run_style r_target = run_style x
        /\ run_font r_target = cloned_font (run_font x)
        /\ (forall t, run_text (styled_run x t) = as_written t
                      /\ run_style (styled_run x t) = run_style x
                      /\ run_font (styled_run x t) = cloned_font (run_font x)
                      /\ run_rFonts (styled_run x t) = run_rFonts x)).
Proof.
  cbv zeta. split; [reflexivity|]. split; [reflexivity|].
  split; [vm_compute; discriminate|]. split; [reflexivity|].
  split; [reflexivity|]. split; [reflexivity|].
  intros paragraph run x local_start local_end Hrun Hstruct Hlt.
  exact (split_run_apply_tnr_three_parts paragraph run x local_start
           local_end Hrun Hstruct Hlt).
Qed.

(** The loop on the runs "Hello " and "world." for "Hello world.". *)
Lemma rescan_loop_terminates_witness :
  let paragraph := [plain_run (of_string "Hello ") None;
                    plain_run (of_string "world.") None] in
  let sentence := of_string "Hello world." in
  sentence <> []
  /\ exists st',
       apply_sentence_to_paragraph paragraph sentence
       = (rs_paragraph st', rs_converted st')
       /\ (rs_converted st' <= 1)%nat
       /\ length (flat_text (rs_paragraph st')) = length sentence
       /\ as_written (flat_text (rs_paragraph st')) = as_written sentence.
Proof.
  cbv zeta.
  assert (Hne : of_string "Hello world." <> []) by discriminate.
  split; [exact Hne|].
  destruct (rescan_loop_terminates
              [plain_run (of_string "Hello ") None;
               plain_run (of_string "world.") None]
              (of_string "Hello world.") Hne)
    as (_ & st' & _ & _ & Happly & Hbound & _ & Hlen & Hflat & _).
  exists st'. split; [exact Happly|]. split; [exact Hbound|].
  split; [exact Hlen | exact Hflat].
Defined.

(** The scenarios of the specification. *)
Example scenario_sentence_two_runs :
  let paragraph := [plain_run (of_string "Hello ") None;
                    plain_run (of_string "world.") None] in
  let '(paragraph', converted) :=
    apply_sentence_to_paragraph paragraph (of_string "Hello world.") in
  converted = 1%nat
  /\ List.map run_text paragraph'
     = [[]; of_string "Hello "; []; of_string "world."]
  /\ List.map (fun r => rFonts_attr r "w:ascii") paragraph'
     = [None; Some Times_New_Roman; None; Some Times_New_Roman].
Proof. vm_compute. repeat split. Qed.

(** "আমি am going।" in a SutonnyMJ run at threshold 3.5: six chunks, of
    which "am" is guarded and "going" is relabeled. *)
Example scenario_mixed_scripts :
  let text := [2438; 2478; 2495; 32; 97; 109; 32; 103; 111; 105; 110; 103;
               2404]%N in
  let r := plain_run text (Some sutonny_rFonts) in
  split_into_chunks unicode_white_space text
  = [[2438; 2478; 2495]%N; of_string " "; of_string "am"; of_string " ";
     of_string "going"; [2404%N]]
  /\ exists paragraph',
       process_run unicode_white_space keep_code_point (Some oracle_5) [r] 0
         default_threshold
       = Ok (paragraph', (1%nat, 1%nat))
       /\ List.map run_text paragraph'
          = [] :: split_into_chunks unicode_white_space text
       /\ List.map (fun r => rFonts_attr r "w:ascii") paragraph'
          = [Some (of_string "SutonnyMJ"); Some (of_string "SutonnyMJ");
             Some (of_string "SutonnyMJ"); Some (of_string "SutonnyMJ");
             Some (of_string "SutonnyMJ"); Some Times_New_Roman;
             Some (of_string "SutonnyMJ")].
Proof.
  cbv zeta. split; [reflexivity|].
  eexists. split; [vm_compute; reflexivity|]. split; vm_compute; reflexivity.
Qed.

(** The sentence "a<LF>b" in the run "a<LF>b a<CR>b": the text holds it
    once, but the first match rewrites the run, the carriage return comes
    back as a line feed, and the search that follows finds it again. *)
Example scenario_carriage_return :
  let paragraph := [plain_run [97; 10; 98; 32; 97; 13; 98]%N None] in
  let sentence := [97; 10; 98]%N in
  let '(paragraph', converted) :=
    apply_sentence_to_paragraph paragraph sentence in
  literal_matches sentence (flat_text paragraph) = [(0%nat, 3%nat)]
  /\ converted = 2%nat
  /\ List.map run_text paragraph'
     = [[]; [97; 10; 98]%N; []; [32%N]; [97; 10; 98]%N].
Proof. vm_compute. repeat split. Qed.

(* ===================================================================== *)
(** * Further properties on concrete inputs *)
(* ===================================================================== *)

(** "Going!" and "going" are one word to the classifier. *)
Lemma is_english_word_ignores_case_and_foreign_witness :
  lower keep_code_point (keep_word_chars (of_string "Going!"))
  = lower keep_code_point (keep_word_chars (of_string "going"))
  /\ is_english_word keep_code_point (Some oracle_5) (of_string "Going!")
       default_threshold
     = is_english_word keep_code_point (Some oracle_5) (of_string "going")
         default_threshold.
Proof.
  assert (H : lower keep_code_point (keep_word_chars (of_string "Going!"))
              = lower keep_code_point (keep_word_chars (of_string "going")))
    by reflexivity.
  split; [exact H|].
  exact (is_english_word_ignores_case_and_foreign keep_code_point
           (Some oracle_5) (of_string "Going!") (of_string "going")
           default_threshold H).
Defined.

(** [process_run] on the second of three runs, "am going": the first and
    the third run stay where they are. *)
Lemma process_run_frame_witness :
  let before := plain_run (of_string "one ") None in
  let r := plain_run (of_string "am going") None in
  let after := plain_run (of_string " two") None in
  exists (paragraph' : list Run) (counts : nat * nat),
    [before; r; after] !! 1%nat = Some r
    /\ process_run unicode_white_space keep_code_point (Some oracle_5)
         [before; r; after] 1 default_threshold
       = Ok (paragraph', counts)
    /\ (paragraph' = [before; r; after] /\ snd counts = 0%nat
        \/ exists rs : list Run,
             paragraph'
             = take 1 [before; r; after]
               ++ set_text [] r :: rs ++ drop 2 [before; r; after]
             /\ List.map run_text rs
                = List.map as_written
                    (split_into_chunks unicode_white_space
                       (sanitize_text (run_text r)))
             /\ Forall (fun e => run_style e = run_style r
                                 /\ run_font e = cloned_font (run_font r)
                                 /\ run_parent e = run_parent r) rs
             /\ fst counts = 1%nat /\ (snd counts <= length rs)%nat).
Proof.
  cbv zeta.
  assert (H : { x : list Run * (nat * nat)
              | process_run unicode_white_space keep_code_point
                  (Some oracle_5)
                  [plain_run (of_string "one ") None;
                   plain_run (of_string "am going") None;
                   plain_run (of_string " two") None] 1 default_threshold
                = Ok x })
    by (eexists; vm_compute; reflexivity).
  destruct H as [[paragraph' counts] H].
  exists paragraph', counts. split; [reflexivity|]. split; [exact H|].
  exact (process_run_frame unicode_white_space keep_code_point
           (Some oracle_5)
           [plain_run (of_string "one ") None;
            plain_run (of_string "am going") None;
            plain_run (of_string " two") None] paragraph' 1
           (plain_run (of_string "am going") None) default_threshold counts
           eq_refl H).
Defined.


(** "Goodbye." does not occur in "Hello world.". *)
Lemma absent_sentence_changes_nothing_witness :
  let paragraph := [plain_run (of_string "Hello ") None;
                    plain_run (of_string "world.") None] in
  contains (of_string "Goodbye.") (flat_text paragraph) = false
  /\ apply_sentence_to_paragraph paragraph (of_string "Goodbye.")
     = (paragraph, 0%nat).
Proof.
  cbv zeta.
  assert (H : contains (of_string "Goodbye.")
                (flat_text [plain_run (of_string "Hello ") None;
                            plain_run (of_string "world.") None]) = false)
    by reflexivity.
  split; [exact H|].
  exact (absent_sentence_changes_nothing _ (of_string "Goodbye.") H).
Defined.
